(** * The CAMB theory wrapper of cobaya: cache driver, requirement registry
      and quantity accessors

    Shallow embedding of [cobaya/theories/camb/camb.py] (class [camb]).

    - Python floats are an abstract carrier [F] with decidable equality and a
      decidable total order ([Num]); arithmetic on them is left uninterpreted.
    - Python dicts whose iteration order is observable are association lists
      ([odict]); the parameter point, compared with [==], is a [gmap].
    - The CAMB library itself is an interface ([CAMB]): the wrapper only calls
      into it.
    - Exceptions are values: fallible functions return [res], stateful ones
      return an outcome together with the object as the exception left it. *)

From Stdlib Require Import ZArith Lia Ascii.
From stdpp Require Import sorting base option list gmap strings numbers.

Set Default Proof Using "Type*".
Open Scope Z_scope.

(** ** Numbers *)

Class Num (F : Type) := {
  num_eq_dec :: EqDecision F;
  fle : relation F;
  fle_dec :: RelDecision fle;
  fle_po :: PartialOrder fle;
  fle_total :: Total fle;
  (** constants and arithmetic used by the wrapper, uninterpreted *)
  fzero : F;              (* 0 *)
  fone : F;               (* 1 *)
  fmul : F → F → F;       (* x * y *)
  fdiv : F → F → F;       (* x / y *)
  fsqr : F → F;           (* x ** 2 *)
  flog : F → F;           (* np.log *)
  f_of_nat : nat → F;     (* an integer of np.arange, as a number *)
  two_pi : F;             (* 2 * np.pi *)
  _c_km_s : F;            (* cobaya.conventions._c_km_s *)
  _T_CMB_K : F;           (* cobaya.conventions._T_CMB_K *)
  f1e6 : F;               (* 1.e6 *)
}.

Definition flt {F} `{Num F} (x y : F) : Prop := fle x y ∧ x ≠ y.
Definition fmax {F} `{Num F} (x y : F) : F := if decide (fle x y) then y else x.

#[global] Instance flt_dec {F} `{Num F} : RelDecision (@flt F _).
Proof. intros x y. unfold flt. apply _. Defined.

(** ** Exceptions and fallible results *)

Inductive exn :=
  | LoggedError (msg : string)
  | KeyError (msg : string)
  | IndexError (msg : string)
  | TypeError (msg : string)
  | ValueError (msg : string)
  | AttributeError (msg : string)
  | CAMBError
  | CAMBParamRangeError
  | CAMBValueError
  | CAMBUnknownArgumentError (msg : string).

(** [except self.camb.CAMBError]: the range error is a subclass of it. *)
Definition is_CAMBError (e : exn) : bool :=
  match e with CAMBError | CAMBParamRangeError => true | _ => false end.

Inductive res (A : Type) := Ok (a : A) | Err (e : exn).
Arguments Ok {A} a.
Arguments Err {A} e.

#[global] Instance res_ret : MRet res := λ A a, Ok a.
#[global] Instance res_bind : MBind res := λ A B f m,
  match m with Ok a => f a | Err e => Err e end.
#[global] Instance res_fmap : FMap res := λ A B f m,
  match m with Ok a => Ok (f a) | Err e => Err e end.

Definition of_option {A} (o : option A) (e : exn) : res A :=
  match o with Some a => Ok a | None => Err e end.

Definition res_is_ok {A} (r : res A) : bool :=
  match r with Ok _ => true | Err _ => false end.

Definition res_get {A} (r : res A) (d : A) : A :=
  match r with Ok a => a | Err _ => d end.

Definition res_error {A} (r : res A) : option exn :=
  match r with Ok _ => None | Err e => Some e end.

Fixpoint res_mapM {A B} (f : A → res B) (l : list A) : res (list B) :=
  match l with
  | [] => Ok []
  | x :: l' => y ← f x; ys ← res_mapM f l'; Ok (y :: ys)
  end.

(** ** Insertion-ordered dictionaries *)

Module odict.
Section odict.
Context {K V : Type} `{EqDecision K}.

Fixpoint get (k : K) (d : list (K * V)) : option V :=
  match d with
  | [] => None
  | (k', v) :: d' => if decide (k' = k) then Some v else get k d'
  end.

(** [d[k] = v]: an existing key keeps its position. *)
Fixpoint put (k : K) (v : V) (d : list (K * V)) : list (K * V) :=
  match d with
  | [] => [(k, v)]
  | (k', v') :: d' =>
      if decide (k' = k) then (k', v) :: d' else (k', v') :: put k v d'
  end.

(** [k in d] *)
Definition mem (k : K) (d : list (K * V)) : bool :=
  bool_decide (is_Some (get k d)).

Definition keys (d : list (K * V)) : list K := d.*1.

End odict.
End odict.

(** ** Python list helpers *)

Definition py_min (l : list Z) : res Z :=
  match l with
  | [] => Err (ValueError "min() arg is an empty sequence")
  | x :: l' => Ok (foldl Z.min x l')
  end.

Definition py_max (l : list Z) : res Z :=
  match l with
  | [] => Err (ValueError "max() arg is an empty sequence")
  | x :: l' => Ok (foldl Z.max x l')
  end.

(** [l.index(x)]: the first position holding [x]. *)
Fixpoint py_index (x : Z) (l : list Z) : res nat :=
  match l with
  | [] => Err (ValueError "x is not in list")
  | y :: l' => if decide (y = x) then Ok 0%nat else S <$> py_index x l'
  end.

(** [str.lower] on ASCII letters. *)
Definition ascii_lower (c : Ascii.ascii) : Ascii.ascii :=
  let n := Ascii.nat_of_ascii c in
  if ((65 <=? n) && (n <=? 90))%nat then Ascii.ascii_of_nat (n + 32) else c.

Fixpoint lower (s : string) : string :=
  match s with
  | EmptyString => EmptyString
  | String c s' => String (ascii_lower c) (lower s')
  end.

(** ** Data model *)

(** Values of requirement fields, solver arguments and collector keyword
    arguments. *)
Inductive pyval (F : Type) : Type :=
  | PNone
  | PBool (b : bool)
  | PNum (x : F)
  | PStr (s : string)
  | PArr (a : list F)
  | PStrs (l : list string)
  | PPairs (l : list (string * string)).
Arguments PNone {F}.
Arguments PBool {F} b.
Arguments PNum {F} x.
Arguments PStr {F} s.
Arguments PArr {F} a.
Arguments PStrs {F} l.
Arguments PPairs {F} l.

#[global] Instance pyval_eq_dec {F} `{EqDecision F} : EqDecision (pyval F).
Proof. solve_decision. Defined.

(** A field of a requirement: a value, or the ordered [sources] dictionary
    (source name to window description). *)
Inductive rfield (F : Type) : Type :=
  | RVal (v : pyval F)
  | RSources (s : list (string * gmap string (pyval F))).
Arguments RVal {F} v.
Arguments RSources {F} s.

(** Keys of the collectors and of the per-state results.  The requirement
    names are strings; matter power uses the tuple
    [("matter_power_spectrum", nonlinear, var1, var2)] and the memoised
    interpolator [("Pk_interpolator", nonlinear, extrap_kmax, var1, var2)].
    The fixed entries of a state ("params", "derived", "derived_extra",
    "last", "set_args") are record fields of [slot]; no collector is ever
    registered under one of those names. *)
Inductive ckey (F : Type) : Type :=
  | KStr (name : string)
  | Kmatter_power_spectrum (nonlinear : bool) (var1 var2 : string)
  | KPk_interpolator (nonlinear : bool) (extrap_kmax : option F) (var1 var2 : string).
Arguments KStr {F} name.
Arguments Kmatter_power_spectrum {F} nonlinear var1 var2.
Arguments KPk_interpolator {F} nonlinear extrap_kmax var1 var2.

#[global] Instance rfield_eq_dec {F} `{EqDecision F} : EqDecision (rfield F).
Proof. solve_decision. Defined.

#[global] Instance ckey_eq_dec {F} `{EqDecision F} : EqDecision (ckey F).
Proof. solve_decision. Defined.

(** What a state stores under a key: the object a CAMB method returned, or
    the interpolator built from it. [D] is the type of CAMB's results. *)
Inductive computed (F D : Type) : Type :=
  | VSpectra (d : list (string * list (list F)))   (* name -> 2D array *)
  | VArr (a : list F)                               (* 1D array *)
  | VPk (k z : list F) (pk : list (list F))         (* (k, z, PK) *)
  | VSourceCls (d : list (string * list F))         (* term -> array *)
  | VData (r : D)                                   (* the results object *)
  | VInterp (z k : list F) (pk : list (list F)) (logP : bool)
      (extrap_kmax : option F).                     (* PowerSpectrumInterpolator *)
Arguments VSpectra {F D} d.
Arguments VArr {F D} a.
Arguments VPk {F D} k z pk.
Arguments VSourceCls {F D} d.
Arguments VData {F D} r.
Arguments VInterp {F D} z k pk logP extrap_kmax.

Inductive NonLinear_model := NonLinear_both | NonLinear_lens | NonLinear_pk.

(** Values of [extra_attrs]. *)
Inductive attrval := AtBool (b : bool) | AtNonLinear (m : NonLinear_model).

Definition attr_truthy (a : attrval) : bool :=
  match a with AtBool b => b | AtNonLinear _ => true end.

(** The methods of [CAMBdata] that collectors call. *)
Module CAMBdata.
Inductive method :=
  | get_cmb_power_spectra
  | h_of_z
  | angular_diameter_distance
  | comoving_radial_distance
  | get_fsigma8
  | get_linear_matter_power_spectrum
  | get_source_cls_dict.
End CAMBdata.

(** [Collector = namedtuple("collector", ["method", "args", "kwargs"])] with
    defaults [(None, [], {})]. *)
Record Collector (F : Type) : Type := {
  method : option CAMBdata.method;
  args : list (pyval F);
  kwargs : gmap string (rfield F);
}.
Arguments method {F} c.
Arguments args {F} c.
Arguments kwargs {F} c.
Arguments Build_Collector {F} method args kwargs.

(** ** numpy *)

Section numpy.
Context {F : Type} `{!Num F}.

(** [np.sort]: ascending. *)
Definition np_sort (a : list F) : list F := merge_sort fle a.

(** [np.unique]: the sorted distinct elements. *)
Definition np_unique (a : list F) : list F := merge_sort fle (remove_dups a).

(** [np.atleast_1d] of a number or an array; other values are not redshifts. *)
Definition np_atleast_1d (v : pyval F) : res (list F) :=
  match v with
  | PNum x => Ok [x]
  | PArr a => Ok a
  | _ => Err (TypeError "not a number or an array of numbers")
  end.

(** [np.searchsorted(a, v)] for one value, [a] ascending: the first index
    [i] with [v <= a[i]], [len(a)] when there is none. *)
Fixpoint np_searchsorted (a : list F) (v : F) : nat :=
  match a with
  | [] => 0%nat
  | x :: a' => if decide (flt x v) then S (np_searchsorted a' v) else 0%nat
  end.

(** [np.where(a == v)[0]]: every index holding [v]. *)
Fixpoint np_where_eq (a : list F) (v : F) : list nat :=
  match a with
  | [] => []
  | x :: a' =>
      (if decide (x = v) then [0%nat] else []) ++ (S <$> np_where_eq a' v)
  end.

(** [a[idx]] with an array of indices. *)
Definition np_take {A} (a : list A) (idx : list nat) : res (list A) :=
  res_mapM (λ i, of_option (a !! i) (IndexError "index is out of bounds for axis 0"))
    idx.

(** [max] of a non-empty sequence of numbers. *)
Definition py_max_F (l : list F) : res F :=
  match l with
  | [] => Err (ValueError "max() arg is an empty sequence")
  | x :: l' => Ok (foldl fmax x l')
  end.

End numpy.

(** ** The CAMB library, as the wrapper sees it *)

Class CAMB (F : Type) := {
  CAMBparams : Type;
  CAMBresults : Type;
  pyobj : Type;
  source_window : Type;
  (** [camb.set_params] on a base object and keyword arguments; [None]: no base object is passed *)
  camb_set_params : option CAMBparams → gmap string (pyval F) → res CAMBparams;
  (** [getfullargspec(getattr(CAMBparams, f)).args[1:]] *)
  set_classes_args : list string;
  set_matter_power_args : list string;
  set_for_lmax_args : list string;
  camb_hasattr : CAMBparams → string → bool;
  camb_setattr : CAMBparams → string → attrval → CAMBparams;
  SplinedSourceWindow : gmap string (pyval F) → res source_window;
  GaussianSourceWindow : gmap string (pyval F) → res source_window;
  set_SourceWindows : CAMBparams → list source_window → CAMBparams;
  set_limber_windows : CAMBparams → bool → CAMBparams;
  camb_get_results : CAMBparams → res CAMBresults;
  camb_get_background : CAMBparams → res CAMBresults;
  (** a collector's method on the results with its arguments *)
  call_method : CAMBdata.method → CAMBresults → list (pyval F) →
                gmap string (rfield F) → res (computed F CAMBresults);
  get_derived_params : CAMBresults → gmap string F;
  get_sigma8 : CAMBresults → res (list F);
  (** attribute lookup; the outer [None] is [AttributeError], the inner one
      the value [None] *)
  obj_of_params : CAMBparams → pyobj;
  obj_of_results : CAMBresults → pyobj;
  empty_dict : pyobj;
  getattr_value : pyobj → string → option (option F);
  getattr_object : pyobj → string → option pyobj;
  (** [getattr(params, "get_" + p, lambda: None)()] *)
  call_getter : CAMBparams → string → option F;
  (** [version.parse(camb.__version__) < version.parse("1.0.11")] *)
  version_lt_1_0_11 : bool;
}.

(** [l[-1]] *)
Definition py_last {A} (l : list A) : res A :=
  of_option (list.last l) (IndexError "list index out of range").

(** First [Some] of [f] over a list: a loop whose body may [return]. *)
Fixpoint first_some {A B} (f : A → option B) (l : list A) : option B :=
  match l with
  | [] => None
  | x :: l' => match f x with Some y => Some y | None => first_some f l' end
  end.

Section model.
Context {F : Type} `{!Num F} `{!CAMB F}.

(** One of the [_n_states] computation states.  [set_args] is [None] until
    [set] first stores it. *)
Record slot := {
  params : option (gmap string F);
  derived : option (gmap string F);
  derived_extra : option (gmap string (option F));
  last : Z;
  set_args : option (gmap string (pyval F));
  products : list (ckey F * computed F CAMBresults);
}.

(** The theory object.  [camb_calls] is ghost state: the number of calls made
    into the CAMB library so far. *)
Record theory := {
  input_params : list string;
  output_params : list string;
  renames : gmap string string;
  use_planck_names : bool;
  stop_at_error : bool;
  _states : list slot;
  collectors : list (ckey F * option (Collector F));
  extra_args : gmap string (pyval F);
  extra_attrs : list (string * attrval);
  derived_extra_names : list string;
  needs_perts : bool;
  limber : bool;
  non_linear_lens : bool;
  non_linear_pk : bool;
  _base_params : option CAMBparams;
  _reduced_extra_args : gmap string (pyval F);
  sources : option (list (string * gmap string (pyval F)));
  H_units_conv_factor : option (gmap string F);
  _needs : list (string * option (gmap string (rfield F)));
  camb_calls : nat;
}.

(** Field updates ([s["k"] = v] and [self.k = v]). *)
Definition with_params v (s : slot) : slot :=
  {| params := v; derived := derived s; derived_extra := derived_extra s; last := last s; set_args := set_args s; products := products s |}.
Definition with_derived v (s : slot) : slot :=
  {| params := params s; derived := v; derived_extra := derived_extra s; last := last s; set_args := set_args s; products := products s |}.
Definition with_derived_extra v (s : slot) : slot :=
  {| params := params s; derived := derived s; derived_extra := v; last := last s; set_args := set_args s; products := products s |}.
Definition with_last v (s : slot) : slot :=
  {| params := params s; derived := derived s; derived_extra := derived_extra s; last := v; set_args := set_args s; products := products s |}.
Definition with_set_args v (s : slot) : slot :=
  {| params := params s; derived := derived s; derived_extra := derived_extra s; last := last s; set_args := v; products := products s |}.
Definition with_products v (s : slot) : slot :=
  {| params := params s; derived := derived s; derived_extra := derived_extra s; last := last s; set_args := set_args s; products := v |}.
Definition with_states v (self : theory) : theory :=
  {| input_params := input_params self; output_params := output_params self; renames := renames self; use_planck_names := use_planck_names self; stop_at_error := stop_at_error self; _states := v; collectors := collectors self; extra_args := extra_args self; extra_attrs := extra_attrs self; derived_extra_names := derived_extra_names self; needs_perts := needs_perts self; limber := limber self; non_linear_lens := non_linear_lens self; non_linear_pk := non_linear_pk self; _base_params := _base_params self; _reduced_extra_args := _reduced_extra_args self; sources := sources self; H_units_conv_factor := H_units_conv_factor self; _needs := _needs self; camb_calls := camb_calls self |}.
Definition with_collectors v (self : theory) : theory :=
  {| input_params := input_params self; output_params := output_params self; renames := renames self; use_planck_names := use_planck_names self; stop_at_error := stop_at_error self; _states := _states self; collectors := v; extra_args := extra_args self; extra_attrs := extra_attrs self; derived_extra_names := derived_extra_names self; needs_perts := needs_perts self; limber := limber self; non_linear_lens := non_linear_lens self; non_linear_pk := non_linear_pk self; _base_params := _base_params self; _reduced_extra_args := _reduced_extra_args self; sources := sources self; H_units_conv_factor := H_units_conv_factor self; _needs := _needs self; camb_calls := camb_calls self |}.
Definition with_extra_args v (self : theory) : theory :=
  {| input_params := input_params self; output_params := output_params self; renames := renames self; use_planck_names := use_planck_names self; stop_at_error := stop_at_error self; _states := _states self; collectors := collectors self; extra_args := v; extra_attrs := extra_attrs self; derived_extra_names := derived_extra_names self; needs_perts := needs_perts self; limber := limber self; non_linear_lens := non_linear_lens self; non_linear_pk := non_linear_pk self; _base_params := _base_params self; _reduced_extra_args := _reduced_extra_args self; sources := sources self; H_units_conv_factor := H_units_conv_factor self; _needs := _needs self; camb_calls := camb_calls self |}.
Definition with_extra_attrs v (self : theory) : theory :=
  {| input_params := input_params self; output_params := output_params self; renames := renames self; use_planck_names := use_planck_names self; stop_at_error := stop_at_error self; _states := _states self; collectors := collectors self; extra_args := extra_args self; extra_attrs := v; derived_extra_names := derived_extra_names self; needs_perts := needs_perts self; limber := limber self; non_linear_lens := non_linear_lens self; non_linear_pk := non_linear_pk self; _base_params := _base_params self; _reduced_extra_args := _reduced_extra_args self; sources := sources self; H_units_conv_factor := H_units_conv_factor self; _needs := _needs self; camb_calls := camb_calls self |}.
Definition with_derived_extra_names v (self : theory) : theory :=
  {| input_params := input_params self; output_params := output_params self; renames := renames self; use_planck_names := use_planck_names self; stop_at_error := stop_at_error self; _states := _states self; collectors := collectors self; extra_args := extra_args self; extra_attrs := extra_attrs self; derived_extra_names := v; needs_perts := needs_perts self; limber := limber self; non_linear_lens := non_linear_lens self; non_linear_pk := non_linear_pk self; _base_params := _base_params self; _reduced_extra_args := _reduced_extra_args self; sources := sources self; H_units_conv_factor := H_units_conv_factor self; _needs := _needs self; camb_calls := camb_calls self |}.
Definition with_needs_perts v (self : theory) : theory :=
  {| input_params := input_params self; output_params := output_params self; renames := renames self; use_planck_names := use_planck_names self; stop_at_error := stop_at_error self; _states := _states self; collectors := collectors self; extra_args := extra_args self; extra_attrs := extra_attrs self; derived_extra_names := derived_extra_names self; needs_perts := v; limber := limber self; non_linear_lens := non_linear_lens self; non_linear_pk := non_linear_pk self; _base_params := _base_params self; _reduced_extra_args := _reduced_extra_args self; sources := sources self; H_units_conv_factor := H_units_conv_factor self; _needs := _needs self; camb_calls := camb_calls self |}.
Definition with_limber v (self : theory) : theory :=
  {| input_params := input_params self; output_params := output_params self; renames := renames self; use_planck_names := use_planck_names self; stop_at_error := stop_at_error self; _states := _states self; collectors := collectors self; extra_args := extra_args self; extra_attrs := extra_attrs self; derived_extra_names := derived_extra_names self; needs_perts := needs_perts self; limber := v; non_linear_lens := non_linear_lens self; non_linear_pk := non_linear_pk self; _base_params := _base_params self; _reduced_extra_args := _reduced_extra_args self; sources := sources self; H_units_conv_factor := H_units_conv_factor self; _needs := _needs self; camb_calls := camb_calls self |}.
Definition with_non_linear_lens v (self : theory) : theory :=
  {| input_params := input_params self; output_params := output_params self; renames := renames self; use_planck_names := use_planck_names self; stop_at_error := stop_at_error self; _states := _states self; collectors := collectors self; extra_args := extra_args self; extra_attrs := extra_attrs self; derived_extra_names := derived_extra_names self; needs_perts := needs_perts self; limber := limber self; non_linear_lens := v; non_linear_pk := non_linear_pk self; _base_params := _base_params self; _reduced_extra_args := _reduced_extra_args self; sources := sources self; H_units_conv_factor := H_units_conv_factor self; _needs := _needs self; camb_calls := camb_calls self |}.
Definition with_non_linear_pk v (self : theory) : theory :=
  {| input_params := input_params self; output_params := output_params self; renames := renames self; use_planck_names := use_planck_names self; stop_at_error := stop_at_error self; _states := _states self; collectors := collectors self; extra_args := extra_args self; extra_attrs := extra_attrs self; derived_extra_names := derived_extra_names self; needs_perts := needs_perts self; limber := limber self; non_linear_lens := non_linear_lens self; non_linear_pk := v; _base_params := _base_params self; _reduced_extra_args := _reduced_extra_args self; sources := sources self; H_units_conv_factor := H_units_conv_factor self; _needs := _needs self; camb_calls := camb_calls self |}.
Definition with_base_params v (self : theory) : theory :=
  {| input_params := input_params self; output_params := output_params self; renames := renames self; use_planck_names := use_planck_names self; stop_at_error := stop_at_error self; _states := _states self; collectors := collectors self; extra_args := extra_args self; extra_attrs := extra_attrs self; derived_extra_names := derived_extra_names self; needs_perts := needs_perts self; limber := limber self; non_linear_lens := non_linear_lens self; non_linear_pk := non_linear_pk self; _base_params := v; _reduced_extra_args := _reduced_extra_args self; sources := sources self; H_units_conv_factor := H_units_conv_factor self; _needs := _needs self; camb_calls := camb_calls self |}.
Definition with_reduced_extra_args v (self : theory) : theory :=
  {| input_params := input_params self; output_params := output_params self; renames := renames self; use_planck_names := use_planck_names self; stop_at_error := stop_at_error self; _states := _states self; collectors := collectors self; extra_args := extra_args self; extra_attrs := extra_attrs self; derived_extra_names := derived_extra_names self; needs_perts := needs_perts self; limber := limber self; non_linear_lens := non_linear_lens self; non_linear_pk := non_linear_pk self; _base_params := _base_params self; _reduced_extra_args := v; sources := sources self; H_units_conv_factor := H_units_conv_factor self; _needs := _needs self; camb_calls := camb_calls self |}.
Definition with_sources v (self : theory) : theory :=
  {| input_params := input_params self; output_params := output_params self; renames := renames self; use_planck_names := use_planck_names self; stop_at_error := stop_at_error self; _states := _states self; collectors := collectors self; extra_args := extra_args self; extra_attrs := extra_attrs self; derived_extra_names := derived_extra_names self; needs_perts := needs_perts self; limber := limber self; non_linear_lens := non_linear_lens self; non_linear_pk := non_linear_pk self; _base_params := _base_params self; _reduced_extra_args := _reduced_extra_args self; sources := v; H_units_conv_factor := H_units_conv_factor self; _needs := _needs self; camb_calls := camb_calls self |}.
Definition with_H_units_conv_factor v (self : theory) : theory :=
  {| input_params := input_params self; output_params := output_params self; renames := renames self; use_planck_names := use_planck_names self; stop_at_error := stop_at_error self; _states := _states self; collectors := collectors self; extra_args := extra_args self; extra_attrs := extra_attrs self; derived_extra_names := derived_extra_names self; needs_perts := needs_perts self; limber := limber self; non_linear_lens := non_linear_lens self; non_linear_pk := non_linear_pk self; _base_params := _base_params self; _reduced_extra_args := _reduced_extra_args self; sources := sources self; H_units_conv_factor := v; _needs := _needs self; camb_calls := camb_calls self |}.
Definition with_needs v (self : theory) : theory :=
  {| input_params := input_params self; output_params := output_params self; renames := renames self; use_planck_names := use_planck_names self; stop_at_error := stop_at_error self; _states := _states self; collectors := collectors self; extra_args := extra_args self; extra_attrs := extra_attrs self; derived_extra_names := derived_extra_names self; needs_perts := needs_perts self; limber := limber self; non_linear_lens := non_linear_lens self; non_linear_pk := non_linear_pk self; _base_params := _base_params self; _reduced_extra_args := _reduced_extra_args self; sources := sources self; H_units_conv_factor := H_units_conv_factor self; _needs := v; camb_calls := camb_calls self |}.
Definition with_camb_calls v (self : theory) : theory :=
  {| input_params := input_params self; output_params := output_params self; renames := renames self; use_planck_names := use_planck_names self; stop_at_error := stop_at_error self; _states := _states self; collectors := collectors self; extra_args := extra_args self; extra_attrs := extra_attrs self; derived_extra_names := derived_extra_names self; needs_perts := needs_perts self; limber := limber self; non_linear_lens := non_linear_lens self; non_linear_pk := non_linear_pk self; _base_params := _base_params self; _reduced_extra_args := _reduced_extra_args self; sources := sources self; H_units_conv_factor := H_units_conv_factor self; _needs := _needs self; camb_calls := v |}.


(** ** [initialize], [current_state], [translate_param] *)

Definition empty_state : slot :=
  {| params := None; derived := None; derived_extra := None; last := 0;
     set_args := None; products := [] |}.

Definition _n_states : nat := 3.

(** The object [initialize] builds. *)
Definition new_theory (input_params output_params : list string)
    (renames : gmap string string) (use_planck_names stop_at_error : bool)
    (extra_args : gmap string (pyval F)) : theory :=
  {| input_params := input_params; output_params := output_params;
     renames := renames; use_planck_names := use_planck_names;
     stop_at_error := stop_at_error;
     _states := replicate _n_states empty_state;
     collectors := [];
     extra_args := extra_args;
     extra_attrs := [("Want_CMB", AtBool false); ("Want_cl_2D_array", AtBool false);
                     ("WantCls", AtBool false)];
     derived_extra_names := [];
     needs_perts := false; limber := false;
     non_linear_lens := false; non_linear_pk := false;
     _base_params := None; _reduced_extra_args := ∅;
     sources := None; H_units_conv_factor := None; _needs := [];
     camb_calls := 0 |}.


Definition lasts_of (self : theory) : list Z := last <$> _states self.

(** Index of the state [current_state] returns:
    [lasts.index(max(lasts))]. *)
Definition current_index (self : theory) : res nat :=
  m ← py_max (lasts_of self); py_index m (lasts_of self).

Definition current_state (self : theory) : res slot :=
  i ← current_index self;
  of_option (_states self !! i) (IndexError "list index out of range").

Definition translate_param (self : theory) (p : string) : string :=
  if use_planck_names self then default p (renames self !! p) else p.

(** ** Derived parameters *)

Record CAMBOutputs := {
  out_CAMBparams : CAMBparams;
  out_CAMBdata : option CAMBresults;
  out_derived : option (gmap string F);
}.

(** The body of the loop over [thing]: [Some v] is [return v]. *)
Definition lookup_thing (p : string) (thing : pyobj) : option (option F) :=
  match getattr_value thing p with
  | Some v => Some v
  | None =>
      first_some (λ mod_, m ← getattr_object thing mod_; getattr_value m p)
        ["InitPower"; "Reion"; "Recomb"; "Transfer"; "DarkEnergy"]
  end.

Definition _get_derived_from_params (p : string) (intermediates : CAMBOutputs)
    : option F :=
  let results :=
    [Some (obj_of_params (out_CAMBparams intermediates));
     obj_of_results <$> out_CAMBdata intermediates] in
  let things :=
    flat_map (λ r, match r with
                   | None => []
                   | Some result =>
                       [result; default empty_dict (getattr_object result "Params")]
                   end) results in
  default None (first_some (lookup_thing p) things).

Definition _get_derived_from_getter (p : string) (intermediates : CAMBOutputs)
    : option F :=
  call_getter (out_CAMBparams intermediates) p.

Definition _get_derived (p : string) (intermediates : CAMBOutputs)
    : res (option F) :=
  if decide (p = "sigma8") then
    match out_CAMBdata intermediates with
    | None => Err (AttributeError "'NoneType' object has no attribute 'get_sigma8'")
    | Some d => a ← get_sigma8 d; Some <$> py_last a
    end
  else
    let from_table :=
      match out_derived intermediates with
      | Some t => if decide (t = ∅) then None else t !! p
      | None => None
      end in
    match from_table with
    | Some v => Ok (Some v)
    | None =>
        Ok (first_some (λ f, f p intermediates)
              [_get_derived_from_params; _get_derived_from_getter])
    end.

Fixpoint _get_derived_all_loop (self : theory) (intermediates : CAMBOutputs)
    (ps : list string) (derived : gmap string F) : res (gmap string F) :=
  match ps with
  | [] => Ok derived
  | p :: ps' =>
      v ← _get_derived (translate_param self p) intermediates;
      match v with
      | None => Err (LoggedError "Derived param not implemented in the CAMB interface")
      | Some x => _get_derived_all_loop self intermediates ps' (<[p := x]> derived)
      end
  end.

Definition _get_derived_all (self : theory) (intermediates : CAMBOutputs)
    : res (gmap string F) :=
  _get_derived_all_loop self intermediates (output_params self) ∅.


(** ** [set] *)

(** [self._states[i][...] = ...]; the index always comes from
    [range(self._n_states)]. *)
Definition update_state (i : nat) (f : slot → slot) (self : theory) : theory :=
  with_states (alter f i (_states self)) self.

Definition count_call (self : theory) : theory :=
  with_camb_calls (S (camb_calls self)) self.

(** [{self.translate_param(p): v for p, v in params_values_dict.items()}] *)
Definition translate_args (self : theory) (params_values_dict : gmap string F)
    : gmap string (pyval F) :=
  list_to_map ((λ pv, (translate_param self pv.1, PNum pv.2))
                 <$> map_to_list params_values_dict).

(** The loop over the fixed parameters: the name that is being sampled, if
    any, and [_reduced_extra_args] as the loop left it. *)
Fixpoint check_fixed (fixed : list string) (args reduced : gmap string (pyval F))
    : option string * gmap string (pyval F) :=
  match fixed with
  | [] => (None, reduced)
  | fixed_param :: rest =>
      if decide (is_Some (args !! fixed_param)) then (Some fixed_param, reduced)
      else check_fixed rest args (delete fixed_param reduced)
  end.

Fixpoint set_attrs (attrs : list (string * attrval)) (params : CAMBparams)
    : res CAMBparams :=
  match attrs with
  | [] => Ok params
  | (attr, value) :: rest =>
      if camb_hasattr params attr
      then set_attrs rest (camb_setattr params attr value)
      else Err (LoggedError
                  "Some of the attributes to be set manually were not recognized")
  end.

(** The loop over [self.sources]: the windows built, and the dictionary as
    the loop left it (a window that fails stays without its "function"). *)
Fixpoint build_windows (srcs : list (string * gmap string (pyval F)))
    : res (list source_window) * list (string * gmap string (pyval F)) :=
  match srcs with
  | [] => (Ok [], [])
  | (source, window) :: rest =>
      let function := default PNone (window !! "function") in
      let popped := delete "function" window in
      let built :=
        if decide (function = PStr "spline") then SplinedSourceWindow popped
        else if decide (function = PStr "gaussian") then GaussianSourceWindow popped
        else Err (LoggedError "Unknown source window function type") in
      match built with
      | Err e => (Err e, (source, popped) :: rest)
      | Ok w =>
          let '(r, rest') := build_windows rest in
          ((λ ws, w :: ws) <$> r, (source, <["function" := function]> popped) :: rest')
      end
  end.

(** The [if not self._base_params] statement: the arguments of the final
    call and the base parameters. *)
Definition prepare_base (args : gmap string (pyval F)) (self : theory)
    : res (gmap string (pyval F) * CAMBparams) * theory :=
  match _base_params self with
  | None =>
      let base_args := extra_args self ∪ args in
      let self := with_reduced_extra_args (extra_args self) self in
      let self := count_call self in
      match camb_set_params None base_args with
      | Err e => (Err e, self)
      | Ok params =>
          let '(sampled, reduced) :=
            check_fixed (set_classes_args ++ set_matter_power_args ++ set_for_lmax_args)
              args (_reduced_extra_args self) in
          let self := with_reduced_extra_args reduced self in
          match sampled with
          | Some _ => (Err (LoggedError "Trying to sample fixed theory parameter"), self)
          | None =>
              match set_attrs (extra_attrs self) params with
              | Err e => (Err e, self)
              | Ok params =>
                  match sources self with
                  | Some (w :: ws) =>
                      let '(built, srcs) := build_windows (w :: ws) in
                      let self := with_sources (Some srcs) self in
                      match built with
                      | Err e => (Err e, self)
                      | Ok source_windows =>
                          let params :=
                            set_limber_windows
                              (set_SourceWindows params source_windows) (limber self) in
                          (Ok (args, params), with_base_params (Some params) self)
                      end
                  | _ => (Ok (args, params), with_base_params (Some params) self)
                  end
              end
          end
      end
  | Some base => (Ok (_reduced_extra_args self ∪ args, base), self)
  end.

(** The body of the [try] of [set]. *)
Definition set_try (args : gmap string (pyval F)) (i_state : nat) (self : theory)
    : res CAMBparams * theory :=
  let '(r, self) := prepare_base args self in
  match r with
  | Err e => (Err e, self)
  | Ok (args, base) =>
      let self := update_state i_state (with_set_args (Some args)) self in
      (camb_set_params (Some base) args, count_call self)
  end.

(** [set]: [Ok None] is the [return False] after an out-of-bounds point. *)
Definition set (params_values_dict : gmap string F) (i_state : nat) (self : theory)
    : res (option CAMBparams) * theory :=
  let self := update_state i_state (with_params (Some params_values_dict)) self in
  let args := translate_args self params_values_dict in
  let '(r, self) := set_try args i_state self in
  match r with
  | Ok camb_params => (Ok (Some camb_params), self)
  | Err CAMBParamRangeError =>
      if stop_at_error self
      then (Err (LoggedError "Out of bound parameters"), self)
      else (Ok None, self)
  | Err CAMBValueError => (Err CAMBValueError, self)
  | Err (CAMBUnknownArgumentError _) =>
      (Err (LoggedError "Some of the parameters passed to CAMB were not recognized"),
       self)
  | Err e => (Err e, self)
  end.

(** ** [compute] *)

(** What a call leaves to its caller: the value returned together with the
    [_derived] dictionary as the call left it, or the exception raised. *)
Inductive outcome :=
  | Return (status : Z) (_derived : option (gmap string F))
  | Raise (e : exn).

(** [next(i for i in range(self._n_states)
          if self._states[i]["params"] == params_values_dict)] *)
Definition find_state (params_values_dict : gmap string F) (self : theory)
    : option nat :=
  fst <$> list_find (λ s, params s = Some params_values_dict) (_states self).

(** [for product in self.collectors:
       next(k for k in self._states[i_state] if k == product)] finds every
    product. *)
Definition has_products (self : theory) (s : slot) : bool :=
  forallb (λ product, bool_decide (product ∈ odict.keys (products s)))
    (odict.keys (collectors self)).

(** The state the [try] block settles on, [None] when it leaves through
    [StopIteration]. *)
Definition reusable_state (cached : bool) (params_values_dict : gmap string F)
    (self : theory) : option nat :=
  if cached then
    i_state ← find_state params_values_dict self;
    s ← _states self !! i_state;
    if has_products self s then Some i_state else None
  else None.

(** The last three lines: make [i_state] the current one. *)
Definition make_current (lasts : list Z) (i_state : nat) (self : theory)
    : res theory :=
  m ← py_max lasts;
  Ok (update_state i_state (with_last 1)
        (with_states ((λ s, with_last (last s - m) s) <$> _states self) self)).

Definition store_product (i_state : nat) (product : ckey F)
    (v : computed F CAMBresults) (self : theory) : theory :=
  update_state i_state (λ s, with_products (odict.put product v (products s)) s) self.

Inductive loop_exit := LoopDone | LoopReturn0 | LoopRaise (e : exn).

(** The loop over [self.collectors.items()]. *)
Fixpoint run_collectors (results : CAMBresults) (i_state : nat)
    (cs : list (ckey F * option (Collector F))) (self : theory)
    : loop_exit * theory :=
  match cs with
  | [] => (LoopDone, self)
  | (product, None) :: _ =>
      (LoopRaise (AttributeError "'NoneType' object has no attribute 'method'"), self)
  | (product, Some collector) :: rest =>
      let '(r, self) :=
        match method collector with
        | Some m =>
            (call_method m results (args collector) (kwargs collector), count_call self)
        | None => (Ok (VData results), self)
        end in
      match r with
      | Ok v => run_collectors results i_state rest (store_product i_state product v self)
      | Err e =>
          if is_CAMBError e then
            if stop_at_error self then (LoopRaise e, self) else (LoopReturn0, self)
          else (LoopRaise e, self)
      end
  end.

(** [{p: self._get_derived(p, intermediates) for p in self.derived_extra}] *)
Fixpoint derived_extra_dict (intermediates : CAMBOutputs) (ps : list string)
    (acc : gmap string (option F)) : res (gmap string (option F)) :=
  match ps with
  | [] => Ok acc
  | p :: ps' =>
      v ← _get_derived p intermediates;
      derived_extra_dict intermediates ps' (<[p := v]> acc)
  end.

(** The part of the [except StopIteration] branch after the collectors. *)
Definition prepare_derived (_derived : option (gmap string F)) (i_state : nat)
    (camb_params : CAMBparams) (results : option CAMBresults) (self : theory)
    : res (option (gmap string F)) * theory :=
  let intermediates :=
    {| out_CAMBparams := camb_params; out_CAMBdata := results;
       out_derived := get_derived_params <$> results |} in
  let '(r, self) :=
    if decide (_derived = Some ∅) then
      match _get_derived_all self intermediates with
      | Err e => (Err e, self)
      | Ok d => (Ok (Some d), update_state i_state (with_derived (Some d)) self)
      end
    else (Ok _derived, self) in
  match r with
  | Err e => (Err e, self)
  | Ok _derived =>
      match derived_extra_dict intermediates (derived_extra_names self) ∅ with
      | Err e => (Err e, self)
      | Ok de => (Ok _derived, update_state i_state (with_derived_extra (Some de)) self)
      end
  end.

(** The [except StopIteration] branch up to its end: [inl] is a [return] or
    [raise] from inside it, [inr] falls through to the last lines. *)
Definition compute_new (_derived : option (gmap string F))
    (params_values_dict : gmap string F) (lasts : list Z) (self : theory)
    : (outcome + (nat * option (gmap string F))) * theory :=
  match m ← py_min lasts; py_index m lasts with
  | Err e => (inl (Raise e), self)
  | Ok i_state =>
      let '(r, self) := set params_values_dict i_state self in
      match r with
      | Err e => (inl (Raise e), self)
      | Ok None => (inl (Return 0 _derived), self)
      | Ok (Some camb_params) =>
          let '(r, self) :=
            match collectors self with
            | [] => (Ok None, self)
            | _ :: _ =>
                (Some <$> (if needs_perts self then camb_get_results camb_params
                           else camb_get_background camb_params),
                 count_call self)
            end in
          match r with
          | Err e => (inl (Raise e), self)
          | Ok results =>
              let '(exit, self) :=
                match results with
                | Some d => run_collectors d i_state (collectors self) self
                | None => (LoopDone, self)
                end in
              match exit with
              | LoopRaise e => (inl (Raise e), self)
              | LoopReturn0 => (inl (Return 0 _derived), self)
              | LoopDone =>
                  let '(r, self) :=
                    prepare_derived _derived i_state camb_params results self in
                  match r with
                  | Err e => (inl (Raise e), self)
                  | Ok _derived => (inr (i_state, _derived), self)
                  end
              end
          end
      end
  end.

Definition compute (_derived : option (gmap string F)) (cached : bool)
    (params_values_dict : gmap string F) (self : theory) : outcome * theory :=
  let lasts := lasts_of self in
  let '(r, self) :=
    match reusable_state cached params_values_dict self with
    | Some i_state =>
        let _derived :=
          if decide (_derived = Some ∅)
          then Some (default ∅ (s ← _states self !! i_state; derived s))
          else _derived in
        (inr (i_state, _derived, true), self)
    | None =>
        let '(r, self) := compute_new _derived params_values_dict lasts self in
        (match r with
         | inl o => inl o
         | inr (i_state, _derived) => inr (i_state, _derived, false)
         end, self)
    end in
  match r with
  | inl o => (o, self)
  | inr (i_state, _derived, reused_state) =>
      match make_current lasts i_state self with
      | Err e => (Raise e, self)
      | Ok self => (Return (if reused_state : bool then 1 else 2) _derived, self)
      end
  end.


(** ** The requirement accumulator *)

(** Modelled from the spec: the merge of two values of one requirement field
    of [_cosmo.needs], whose source is not among the files at hand.  Spec
    4.1: scalar bounds take the max, sets (redshifts, variable pairs) the
    union, Boolean flags the logical or; incompatible values are a
    ConflictingRequirement error ([None] here). *)
Definition merge_pyval (old new : pyval F) : option (pyval F) :=
  match old, new with
  | PNone, PNone => Some PNone
  | PBool a, PBool b => Some (PBool (a || b))
  | PNum a, PNum b => Some (PNum (fmax a b))
  | PStr a, PStr b => if decide (a = b) then Some (PStr a) else None
  | PArr a, PArr b => Some (PArr (list_union a b))
  | PStrs a, PStrs b => Some (PStrs (list_union a b))
  | PPairs a, PPairs b => Some (PPairs (list_union a b))
  | _, _ => None
  end.

(** Modelled from the spec: the union of two dictionaries of named sources of
    [_cosmo.needs]; a source declared twice must carry the same window. *)
Fixpoint merge_sources (old new : list (string * gmap string (pyval F)))
    : option (list (string * gmap string (pyval F))) :=
  match new with
  | [] => Some old
  | (source, window) :: rest =>
      match odict.get source old with
      | None => merge_sources (old ++ [(source, window)]) rest
      | Some w => if decide (w = window) then merge_sources old rest else None
      end
  end.

(** Modelled from the spec: the merge of one field of [_cosmo.needs]. *)
Definition merge_rfield (old new : rfield F) : option (rfield F) :=
  match old, new with
  | RVal a, RVal b => RVal <$> merge_pyval a b
  | RSources a, RSources b => RSources <$> merge_sources a b
  | _, _ => None
  end.

(** Modelled from the spec: the field-by-field merge of [_cosmo.needs] for a
    quantity that is already required. *)
Definition merge_requirement (old new : option (gmap string (rfield F)))
    : res (option (gmap string (rfield F))) :=
  match old, new with
  | None, None => Ok None
  | Some o, Some n =>
      let m : gmap string (option (rfield F)) :=
        merge (λ a b, match a, b with
                      | Some x, Some y => Some (merge_rfield x y)
                      | Some x, None => Some (Some x)
                      | None, Some y => Some (Some y)
                      | None, None => None
                      end) o n in
      if decide (map_Forall (λ _ r, is_Some r) m)
      then Ok (Some (omap id m))
      else Err (LoggedError "ConflictingRequirement")
  | _, _ => Err (LoggedError "ConflictingRequirement")
  end.

(** Modelled from the spec: [declare(quantity_name, parameters)] of the
    accumulator [_cosmo.needs] (spec 4.1): an absent requirement is stored
    verbatim, a present one is merged. *)
Definition declare (quantity_name : string)
    (parameters : option (gmap string (rfield F)))
    (acc : list (string * option (gmap string (rfield F))))
    : res (list (string * option (gmap string (rfield F)))) :=
  match odict.get quantity_name acc with
  | None => Ok (odict.put quantity_name parameters acc)
  | Some old =>
      merged ← merge_requirement old parameters;
      Ok (odict.put quantity_name merged acc)
  end.

(** Modelled from the spec: [_cosmo.needs] on a dictionary of requirements, one [declare]
    per requirement. *)
Fixpoint accumulate (requirements : list (string * option (gmap string (rfield F))))
    (acc : list (string * option (gmap string (rfield F))))
    : res (list (string * option (gmap string (rfield F)))) :=
  match requirements with
  | [] => Ok acc
  | (k, v) :: rest => acc' ← declare k v acc; accumulate rest acc'
  end.

(** ** [needs] *)

(** [v[name]] on a requirement. *)
Definition req_get (v : option (gmap string (rfield F))) (name : string)
    : res (rfield F) :=
  match v with
  | None => Err (TypeError "'NoneType' object is not subscriptable")
  | Some d => of_option (d !! name) (KeyError name)
  end.

Definition as_pyval (f : rfield F) : res (pyval F) :=
  match f with
  | RVal x => Ok x
  | RSources _ => Err (TypeError "a dictionary where a value is expected")
  end.

Definition as_num (x : pyval F) : res F :=
  match x with
  | PNum a => Ok a
  | _ => Err (TypeError "not a number")
  end.

(** Options of a requirement that are Booleans. *)
Definition as_bool (x : pyval F) : res bool :=
  match x with
  | PBool b => Ok b
  | _ => Err (TypeError "not a Boolean")
  end.

(** Truth value of a field. *)
Definition truthy (f : rfield F) : bool :=
  match f with
  | RVal PNone => false
  | RVal (PBool b) => b
  | RVal (PNum x) => bool_decide (x ≠ fzero)
  | RVal (PStr s) => bool_decide (s ≠ "")
  | RVal (PArr a) => bool_decide (a ≠ [])
  | RVal (PStrs l) => bool_decide (l ≠ [])
  | RVal (PPairs l) => bool_decide (l ≠ [])
  | RSources s => bool_decide (s ≠ [])
  end.

(** [self.extra_args.get(name, 0)] as a number. *)
Definition extra_num (self : theory) (name : string) : res F :=
  match extra_args self !! name with
  | None => Ok fzero
  | Some x => as_num x
  end.

(** [np.concatenate(a, b)] as [_combine_z] calls it: the second positional
    argument of [np.concatenate] is the axis, so the call raises whatever the
    arrays hold. *)
Definition np_concatenate_misused (a b : list F) : res (list F) :=
  Err (TypeError "only integer scalar arrays can be converted to a scalar index").

Definition _combine_z (self : theory) (k : string)
    (v : option (gmap string (rfield F))) : res (list F) :=
  match odict.get (KStr k) (collectors self) with
  | Some (Some c) =>
      old ← (f ← of_option (kwargs c !! "z") (KeyError "z"); x ← as_pyval f;
             np_atleast_1d x);
      new ← (f ← req_get v "z"; x ← as_pyval f; np_atleast_1d x);
      a ← np_concatenate_misused old new;
      Ok (np_sort (np_unique a))
  | _ =>
      f ← req_get v "z"; x ← as_pyval f; a ← np_atleast_1d x;
      Ok (np_sort a)
  end.

Definition add_to_redshifts (z : pyval F) (self : theory) : res theory :=
  new ← np_atleast_1d z;
  old ← match extra_args self !! "redshifts" with
        | None => Ok []
        | Some x => np_atleast_1d x
        end;
  Ok (with_extra_args
        (<["redshifts" := PArr (reverse (np_sort (np_unique (new ++ old))))]>
           (extra_args self)) self).

Definition set_collector (k : ckey F) (c : option (Collector F)) (self : theory)
    : theory :=
  with_collectors (odict.put k c (collectors self)) self.

Definition set_extra_attr (name : string) (v : attrval) (self : theory) : theory :=
  with_extra_attrs (odict.put name v (extra_attrs self)) self.

Definition set_extra_arg (name : string) (v : pyval F) (self : theory) : theory :=
  with_extra_args (<[name := v]> (extra_args self)) self.

(** [list(set(l))]: the distinct elements.  Python leaves their order open;
    here each comes at the place of its last occurrence. *)
Definition list_set (l : list string) : list string := remove_dups l.

Definition needs_Cl (k : string) (v : option (gmap string (rfield F)))
    (self : theory) : res theory :=
  d ← of_option v (AttributeError "'NoneType' object has no attribute 'values'");
  values ← res_mapM (λ kv, x ← as_pyval kv.2; as_num x) (map_to_list d);
  m ← py_max_F values;
  old ← extra_num self "lmax";
  let self := set_extra_arg "lmax" (PNum (fmax m old)) self in
  let cls := (λ kv, lower kv.1) <$> map_to_list d in
  old_spectra ←
    match odict.get (KStr k) (collectors self) with
    | None => Ok []
    | Some None => Err (AttributeError "'NoneType' object has no attribute 'kwargs'")
    | Some (Some c) =>
        match kwargs c !! "spectra" with
        | None => Ok []
        | Some (RVal (PStrs l)) => Ok l
        | Some _ => Err (TypeError "can only concatenate list to list")
        end
    end;
  let spectra :=
    list_set (old_spectra ++ ["total"]
              ++ (if bool_decide ("pp" ∈ cls) then ["lens_potential"] else [])) in
  let self :=
    set_collector (KStr k)
      (Some {| method := Some CAMBdata.get_cmb_power_spectra; args := [];
               kwargs := {[ "spectra" := RVal (PStrs spectra);
                            "raw_cl" := RVal (PBool true) ]} |}) self in
  let self := with_needs_perts true self in
  let self := set_extra_attr "Want_CMB" (AtBool true) self in
  let self := set_extra_attr "WantCls" (AtBool true) self in
  Ok (with_non_linear_lens true self).

Definition needs_background (k : string) (m : CAMBdata.method)
    (v : option (gmap string (rfield F))) (self : theory) : res theory :=
  z ← _combine_z self k v;
  Ok (set_collector (KStr k)
        (Some {| method := Some m; args := [];
                 kwargs := {[ "z" := RVal (PArr z) ]} |}) self).

Definition needs_H (k : string) (v : option (gmap string (rfield F)))
    (self : theory) : res theory :=
  self ← needs_background k CAMBdata.h_of_z v self;
  Ok (with_H_units_conv_factor
        (Some {[ "1/Mpc" := fone; "km/s/Mpc" := _c_km_s ]}) self).

Definition needs_fsigma8 (k : string) (v : option (gmap string (rfield F)))
    (self : theory) : res theory :=
  z ← (f ← req_get v "z"; as_pyval f);
  self ← add_to_redshifts z self;
  let self :=
    set_collector (KStr k)
      (Some {| method := Some CAMBdata.get_fsigma8; args := []; kwargs := ∅ |})
      self in
  Ok (with_needs_perts true self).

(** The loop over [v["vars_pairs"]].  Every collector holds the one [kwargs]
    dictionary that the loop keeps updating, so all of them end with the
    [var1] and [var2] of the last pair. *)
Definition pair_collectors (kwargs : gmap string (rfield F)) (nonlinear : bool)
    (pairs : list (string * string)) (self : theory) : theory :=
  let shared :=
    foldl (λ kw (pair : string * string),
             <["var2" := RVal (PStr pair.2)]> (<["var1" := RVal (PStr pair.1)]> kw))
      kwargs pairs in
  foldl (λ self (pair : string * string),
           set_collector (Kmatter_power_spectrum nonlinear pair.1 pair.2)
             (Some {| method := Some CAMBdata.get_linear_matter_power_spectrum;
                      args := []; kwargs := shared |}) self)
    self pairs.

Definition needs_Pk (k : string) (v : option (gmap string (rfield F)))
    (self : theory) : res theory :=
  k_max ← (f ← req_get v "k_max"; x ← as_pyval f; as_num x);
  old ← extra_num self "kmax";
  let self := set_extra_arg "kmax" (PNum (fmax k_max old)) self in
  z ← (f ← req_get v "z"; as_pyval f);
  self ← add_to_redshifts z self;
  vp ← req_get v "vars_pairs";
  let vp := if truthy vp then vp else RVal (PPairs [("delta_tot", "delta_tot")]) in
  d ← of_option v (TypeError "'NoneType' object is not subscriptable");
  let d := <["vars_pairs" := vp]> d in
  let self := with_needs (odict.put k (Some d) (_needs self)) self in
  let kwargs := d in
  if (from_option truthy false (kwargs !! "hubble_units")
      || from_option truthy false (kwargs !! "k_hunit"))
  then Err (LoggedError "hubble_units and k_hunit must be False for consistency")
  else
    let kwargs := <["k_hunit" := RVal (PBool false)]>
                    (<["hubble_units" := RVal (PBool false)]> kwargs) in
    _ ← (if decide (k = "Pk_interpolator") then Ok ()
         else if decide (is_Some (kwargs !! "nonlinear"))
         then Err (LoggedError "cannot use 'nonlinear' with xxx_matter_power_spectrum")
         else if version_lt_1_0_11 then Err (LoggedError "update CAMB to 1.0.11+")
         else Ok ());
    let nonlinear := from_option truthy true (kwargs !! "nonlinear") in
    let kwargs := <["nonlinear" := RVal (PBool nonlinear)]> kwargs in
    let self := if nonlinear then with_non_linear_pk true self else self in
    let kwargs := delete "vars_pairs" (delete "z" (delete "k_max" kwargs)) in
    pairs ← match vp with
            | RVal (PPairs l) => Ok l
            | _ => Err (TypeError "vars_pairs is not a list of pairs")
            end;
    Ok (with_needs_perts true (pair_collectors kwargs nonlinear pairs self)).

Definition needs_source_Cl (k : string) (v : option (gmap string (rfield F)))
    (self : theory) : res theory :=
  let current := match sources self with Some (w :: ws) => w :: ws | _ => [] end in
  srcs ← (f ← req_get v "sources";
          match f with
          | RSources s => Ok s
          | RVal _ => Err (AttributeError "object has no attribute 'items'")
          end);
  let current :=
    foldl (λ acc (sw : string * gmap string (pyval F)),
             if odict.mem sw.1 acc then acc else odict.put sw.1 sw.2 acc)
      current srcs in
  let self := with_sources (Some current) self in
  d ← of_option v (TypeError "'NoneType' object is not subscriptable");
  limber ← match d !! "limber" with
           | None => Ok true
           | Some f => x ← as_pyval f; as_bool x
           end;
  let self := with_limber limber self in
  non_linear ← match d !! "non_linear" with
               | None => Ok false
               | Some f => x ← as_pyval f; as_bool x
               end;
  let self := with_non_linear_lens (non_linear_lens self || non_linear) self in
  self ← match d !! "lmax" with
         | None => Ok self
         | Some f =>
             lmax ← (x ← as_pyval f; as_num x);
             old ← extra_num self "lmax";
             Ok (set_extra_arg "lmax" (PNum (fmax lmax old)) self)
         end;
  let self := with_needs_perts true self in
  let self :=
    set_collector (KStr k) (Some {| method := Some CAMBdata.get_source_cls_dict;
                                    args := []; kwargs := ∅ |}) self in
  let self := set_extra_attr "Want_cl_2D_array" (AtBool true) self in
  Ok (set_extra_attr "WantCls" (AtBool true) self).

Definition needs_derived (k : string) (self : theory) : res theory :=
  let k_translated := translate_param self k in
  let self :=
    if bool_decide (k_translated ∈ derived_extra_names self) then self
    else with_derived_extra_names (derived_extra_names self ++ [k_translated]) self in
  if decide (k = "sigma8")
  then Ok (with_needs_perts true (set_extra_attr "WantTransfer" (AtBool true) self))
  else Ok self.

(** The body of the loop over [self._needs.items()]. *)
Definition needs_one (k : string) (v : option (gmap string (rfield F)))
    (self : theory) : res theory :=
  if decide (k = "Cl") then needs_Cl k v self
  else if decide (k = "H") then needs_H k v self
  else if decide (k = "angular_diameter_distance")
  then needs_background k CAMBdata.angular_diameter_distance v self
  else if decide (k = "comoving_radial_distance")
  then needs_background k CAMBdata.comoving_radial_distance v self
  else if decide (k = "fsigma8") then needs_fsigma8 k v self
  else if decide (k = "Pk_interpolator" ∨ k = "matter_power_spectrum")
  then needs_Pk k v self
  else if decide (k = "source_Cl") then needs_source_Cl k v self
  else if decide (k = "CAMBdata") then Ok (set_collector (KStr k) None self)
  else match v with
       | None => needs_derived k self
       | Some _ =>
           Err (LoggedError "This should not be happening. Contact the developers.")
       end.

Fixpoint needs_loop (items : list (string * option (gmap string (rfield F))))
    (self : theory) : res theory :=
  match items with
  | [] => Ok self
  | (k, v) :: rest => self ← needs_one k v self; needs_loop rest self
  end.

Definition NonLinear_of (lens pk : bool) : attrval :=
  match lens, pk with
  | true, true => AtNonLinear NonLinear_both
  | true, false => AtNonLinear NonLinear_lens
  | false, true => AtNonLinear NonLinear_pk
  | false, false => AtBool false
  end.

(** The statements of [needs] after the loop. *)
Definition needs_finish (self : theory) : res theory :=
  if decide (Exists (λ p, is_Some (extra_args self !! p)) (input_params self))
  then Err (LoggedError "parameters appear both as input parameters and as CAMB extra arguments")
  else
    want ← of_option (odict.get "WantCls" (extra_attrs self)) (KeyError "WantCls");
    let self :=
      if negb (attr_truthy want)
      then with_extra_args (foldl (λ m a, delete a m) (extra_args self) set_for_lmax_args)
             self
      else self in
    let self :=
      set_extra_attr "NonLinear"
        (NonLinear_of (non_linear_lens self) (non_linear_pk self)) self in
    Ok (with_base_params None self).

(** [needs] on a dictionary of requirements.  A call that raises ends the build, so only the
    object a successful call leaves is given. *)
Definition needs (requirements : list (string * option (gmap string (rfield F))))
    (self : theory) : res theory :=
  acc ← accumulate requirements (_needs self);
  let self := with_needs acc self in
  self ← needs_loop (_needs self) self;
  needs_finish self.


(** ** Quantity accessors *)

(** What an accessor hands to its caller: a new object, or the very object
    that state [i_state] stores under [key]. *)
Inductive handed (A : Type) : Type :=
  | Fresh (a : A)
  | Stored (i_state : nat) (key : ckey F).
Arguments Fresh {A} a.
Arguments Stored {A} i_state key.

(** [current_state[key]] *)
Definition state_get (s : slot) (key : ckey F) : res (computed F CAMBresults) :=
  of_option (odict.get key (products s)) (KeyError "key of a state").

(** [a[:, i]] of a 2D array given by its rows. *)
Definition column (i : nat) (rows : list (list F)) : res (list F) :=
  res_mapM (λ r, of_option (r !! i) (IndexError "index is out of bounds for axis 1"))
    rows.

(** [a[2:] *= fac] on a 1D array, [fac] an array: elementwise when the
    lengths agree, a single factor is broadcast, anything else cannot be
    broadcast. *)
Definition imul_tail (a fac : list F) : res (list F) :=
  if decide (length (drop 2 a) = length fac)
  then Ok (take 2 a ++ zip_with fmul (drop 2 a) fac)
  else match fac with
       | [c] => Ok (take 2 a ++ ((λ x, fmul x c) <$> drop 2 a))
       | _ => Err (ValueError "operands could not be broadcast together")
       end.

(** [a[2:] *= c] with a scalar. *)
Definition imul_tail_scalar (a : list F) (c : F) : list F :=
  take 2 a ++ ((λ x, fmul x c) <$> drop 2 a).

(** [((ell + 1) * ell / (2 * np.pi))] at one multipole. *)
Definition ell_weight (ell : nat) : F := fdiv (f_of_nat ((ell + 1) * ell)) two_pi.

Definition units_factors : list (string * F) :=
  [("1", fone); ("muK2", fmul _T_CMB_K f1e6); ("K2", _T_CMB_K)].

(** The value of the local variable [ell_factor] after its reassignment: the
    integer 1, or the array over the multipoles from 2 on. *)
Inductive ell_factor_value :=
  | EllOne
  | EllArray (a : list F).

Definition get_Cl (ell_factor : bool) (units : string) (self : theory)
    : res (handed (list (string * list F))) :=
  current_state ← current_state self;
  let no_cl := LoggedError "No Cl's were computed. Are you sure that you have requested them?" in
  spectra ← match odict.get (KStr "Cl") (products current_state) with
            | Some (VSpectra d) => Ok d
            | _ => Err no_cl
            end;
  cl_camb ← of_option (odict.get "total" spectra) no_cl;
  let ell := seq 0 (length cl_camb) in
  tt ← column 0 cl_camb;
  ee ← column 1 cl_camb;
  bb ← column 2 cl_camb;
  te ← column 3 cl_camb;
  pp ← match odict.get "lens_potential" spectra with
       | Some lp => Some <$> column 0 lp
       | None => Ok None
       end;
  let ell_factor :=
    if ell_factor then EllArray (drop 2 (ell_weight <$> ell)) else EllOne in
  units_factor ← of_option (odict.get units units_factors)
                   (LoggedError "Units not recognized.");
  let scale (cl : list F) : res (list F) :=
    match ell_factor with
    | EllOne => Ok (imul_tail_scalar cl (fmul (fsqr units_factor) fone))
    | EllArray a => imul_tail cl ((λ x, fmul (fsqr units_factor) x) <$> a)
    end in
  tt ← scale tt;
  ee ← scale ee;
  bb ← scale bb;
  te ← scale te;
  pp ← match pp, ell_factor with
       | Some pp, EllArray a =>
           Some <$> imul_tail pp ((λ x, fmul (fsqr x) two_pi) <$> a)
       | _, _ => Ok pp
       end;
  Ok (Fresh ([("ell", f_of_nat <$> ell); ("tt", tt); ("ee", ee); ("bb", bb);
              ("te", te)]
             ++ match pp with Some pp => [("pp", pp)] | None => [] end)).

Definition _get_z_dependent (quantity : string) (z : list F) (self : theory)
    : res (handed (list F)) :=
  i_kwarg_z ←
    (if decide (quantity = "fsigma8") then
       computed_redshifts ←
         (x ← of_option (extra_args self !! "redshifts") (KeyError "redshifts");
          match x with
          | PArr a => Ok a
          | _ => Err (TypeError "redshifts is not an array")
          end);
       match z with
       | [] => Err (ValueError "need at least one array to concatenate")
       | _ => Ok (concat ((λ zi, np_where_eq computed_redshifts zi) <$> z))
       end
     else
       c ← of_option (odict.get (KStr quantity) (collectors self)) (KeyError quantity);
       c ← of_option c (AttributeError "'NoneType' object has no attribute 'kwargs'");
       computed_redshifts ←
         (f ← of_option (kwargs c !! "z") (KeyError "z");
          match f with
          | RVal (PArr a) => Ok a
          | _ => Err (TypeError "z is not an array")
          end);
       Ok ((λ zi, np_searchsorted computed_redshifts zi) <$> z));
  current_state ← current_state self;
  stored ← state_get current_state (KStr quantity);
  match stored with
  | VArr a => Fresh <$> np_take a i_kwarg_z
  | _ => Err (IndexError "too many indices for array")
  end.

(** An [except KeyError] turning the error into a [LoggedError]. *)
Definition except_KeyError {A} (r : res A) (msg : string) : res A :=
  match r with
  | Err (KeyError _) => Err (LoggedError msg)
  | _ => r
  end.

Definition get_H (z : list F) (units : string) (self : theory)
    : res (handed (list F)) :=
  except_KeyError
    (h ← _get_z_dependent "H" z self;
     factors ← of_option (H_units_conv_factor self)
                 (AttributeError "'camb' object has no attribute 'H_units_conv_factor'");
     factor ← of_option (factors !! units) (KeyError units);
     match h : handed (list F) with
     | Fresh a => Ok (Fresh ((λ x, fmul x factor) <$> a))
     | Stored i key => Ok (Stored i key)
     end)
    "Units not known for H.".

Definition get_angular_diameter_distance (z : list F) (self : theory)
    : res (handed (list F)) :=
  _get_z_dependent "angular_diameter_distance" z self.

Definition get_comoving_radial_distance (z : list F) (self : theory)
    : res (handed (list F)) :=
  _get_z_dependent "comoving_radial_distance" z self.

Definition get_fsigma8 (z : list F) (self : theory) : res (handed (list F)) :=
  _get_z_dependent "fsigma8" z self.

(** [get_matter_power]; [_state] is the index of the state passed, if any.
    The stored tuple itself is returned. *)
Definition get_matter_power (var_pair : string * string) (nonlinear : bool)
    (_state : option nat) (self : theory)
    : res (handed (list F * list F * list (list F))) :=
  if nonlinear && negb (non_linear_pk self)
  then Err (ValueError "Getting non-linear matter power but nonlinear not specified in requirements")
  else
    i ← match _state with Some i => Ok i | None => current_index self end;
    current_state ← of_option (_states self !! i) (IndexError "list index out of range");
    let key := Kmatter_power_spectrum nonlinear var_pair.1 var_pair.2 in
    if odict.mem key (products current_state) then Ok (Stored i key)
    else Err (ValueError "Matter power not computed").

(** The object a handed reference stands for. *)
Definition deref (h : handed (list F * list F * list (list F))) (self : theory)
    : res (computed F CAMBresults) :=
  match h with
  | Stored j key =>
      s ← of_option (_states self !! j) (IndexError "list index out of range");
      state_get s key
  | Fresh (k, z, pk) => Ok (VPk k z pk)
  end.

(** The part of [get_Pk_interpolator] between the unpacking of the tuple and
    the construction of the interpolator, an object of
    [cobaya.theories._cosmo] given here by the arguments of its constructor. *)
Definition make_interpolator (stored : computed F CAMBresults)
    (extrap_kmax : option F) : res (computed F CAMBresults) :=
  match stored with
  | VPk k z pk =>
      let log_p := forallb (forallb (λ x, bool_decide (flt fzero x))) pk in
      if log_p
      then Ok (VInterp z k (map (map flog) pk) true extrap_kmax)
      else
        klast ← py_last k;
        match extrap_kmax with
        | None => Err (TypeError "'>' not supported between 'NoneType' and 'float'")
        | Some e =>
            if decide (flt klast e)
            then Err (ValueError "cannot do log extrapolation with negative pk")
            else Ok (VInterp z k pk false extrap_kmax)
        end
  | _ => Err (TypeError "cannot unpack non-iterable object")
  end.

(** [get_Pk_interpolator]: the interpolator is memoised in the current
    state, and the stored object is what is returned. *)
Definition get_Pk_interpolator (var_pair : string * string) (nonlinear : bool)
    (extrap_kmax : option F) (self : theory)
    : res (handed (computed F CAMBresults)) * theory :=
  match current_index self with
  | Err e => (Err e, self)
  | Ok i =>
    match _states self !! i with
    | None => (Err (IndexError "list index out of range"), self)
    | Some current_state =>
      let key := KPk_interpolator nonlinear extrap_kmax var_pair.1 var_pair.2 in
      if odict.mem key (products current_state) then (Ok (Stored i key), self)
      else
        let r : res (computed F CAMBresults) :=
          h ← get_matter_power var_pair nonlinear (Some i) self;
          stored ← deref h self;
          make_interpolator stored extrap_kmax in
        match r with
        | Err e => (Err e, self)
        | Ok result => (Ok (Stored i key), store_product i key result self)
        end
    end
  end.

(** Keys of the dictionary [get_source_Cl] returns. *)
Inductive source_key :=
  | SEll
  | STerm (names : list string).

#[global] Instance source_key_eq_dec : EqDecision source_key.
Proof. solve_decision. Defined.

(** [_.strip("W")] *)
Fixpoint lstrip_W (s : string) : string :=
  match s with
  | String "W"%char s' => lstrip_W s'
  | _ => s
  end.

Definition strip_W (s : string) : string :=
  String.rev (lstrip_W (String.rev (lstrip_W s))).

(** [term.split("x")] *)
Fixpoint split_x_aux (cur : string) (s : string) : list string :=
  match s with
  | EmptyString => [String.rev cur]
  | String "x"%char s' => String.rev cur :: split_x_aux EmptyString s'
  | String c s' => split_x_aux (String c cur) s'
  end.

Definition split_x (s : string) : list string := split_x_aux EmptyString s.

(** [int(x)] for a string of decimal digits. *)
Fixpoint parse_digits (acc : nat) (s : string) : option nat :=
  match s with
  | EmptyString => Some acc
  | String c s' =>
      let n := Ascii.nat_of_ascii c in
      if ((48 <=? n) && (n <=? 57))%nat
      then parse_digits (10 * acc + (n - 48))%nat s'
      else None
  end.

Definition py_int (s : string) : res nat :=
  match s with
  | EmptyString => Err (ValueError "invalid literal for int()")
  | _ => of_option (parse_digits 0 s) (ValueError "invalid literal for int()")
  end.

(** [x if x == "P" else list(self.sources)[int(x) - 1]] *)
Definition source_name (names : res (list string)) (x : string) : res string :=
  if decide (x = "P") then Ok x
  else
    names ← names;
    n ← py_int x;
    match n with
    | O => py_last names
    | S i => of_option (names !! i) (IndexError "list index out of range")
    end.

Definition get_source_Cl (self : theory)
    : res (handed (list (source_key * list F))) :=
  current_state ← current_state self;
  let no_cl := LoggedError "No source Cl's were computed. Are you sure that you have requested some source?" in
  cls ← match odict.get (KStr "source_Cl") (products current_state) with
        | Some (VSourceCls d) => Ok d
        | Some _ => Err (AttributeError "object has no attribute 'items'")
        | None => Err no_cl
        end;
  let names :=
    of_option (odict.keys <$> sources self)
      (AttributeError "'camb' object has no attribute 'sources'") in
  cls_dict ←
    res_mapM (λ tc : string * list F,
                term_tuple ← res_mapM (λ t, source_name names (strip_W t))
                               (split_x tc.1);
                Ok (STerm term_tuple, tc.2)) cls;
  first ← of_option (head cls) (IndexError "list index out of range");
  Ok (Fresh (foldl (λ d kv, odict.put kv.1 kv.2 d) [] cls_dict
             ++ [(SEll, f_of_nat <$> seq 0 (length first.2))])).

(** [get_param]: the first of the three pools of the current state that
    holds a value other than [None] under the translated name. *)
Definition get_param (p : string) (self : theory) : res F :=
  current_state ← current_state self;
  let key := translate_param self p in
  match default ∅ (params current_state) !! key with
  | Some value => Ok value
  | None =>
      match default ∅ (derived current_state) !! key with
      | Some value => Ok value
      | None =>
          match default ∅ (derived_extra current_state) !! key with
          | Some (Some value) => Ok value
          | _ => Err (LoggedError "Parameter not known")
          end
      end
  end.

(** [get_CAMBdata]: the object the current state stores under ["CAMBdata"]. *)
Definition get_CAMBdata (self : theory) : res (computed F CAMBresults) :=
  current_state ← current_state self;
  of_option (odict.get (KStr "CAMBdata") (products current_state))
    (KeyError "CAMBdata").

End model.

Arguments Fresh {F A} a.
Arguments Stored {F A} i_state key.

(** ** A concrete carrier for evaluating the model *)

(** Integers as numbers; the constants are stand-ins. *)
#[global, refine] Instance Z_Num : Num Z := {|
  fle := Z.le; fzero := 0; fone := 1; fmul := Z.mul; fdiv := Z.div;
  fsqr := λ x, x * x; flog := Z.log2; f_of_nat := Z.of_nat;
  two_pi := 6; _c_km_s := 299792; _T_CMB_K := 3; f1e6 := 1000000 |}.
Proof. all: apply _. Defined.


(** A small stand-in for the CAMB library over the integers: parameters and
    results are the dictionary of arguments, a negative [H0] is out of range,
    and every product is computed from [H0]. *)
Definition toy_H0 (d : gmap string (pyval Z)) : Z :=
  match d !! "H0" with Some (PNum h) => h | _ => 0 end.

Definition toy_set_params (base : option (gmap string (pyval Z)))
    (args : gmap string (pyval Z)) : res (gmap string (pyval Z)) :=
  if decide (toy_H0 args < 0) then Err CAMBParamRangeError
  else Ok (args ∪ default ∅ base).

Definition toy_call_method (m : CAMBdata.method) (d : gmap string (pyval Z))
    (args : list (pyval Z)) (kw : gmap string (rfield Z))
    : res (computed Z (gmap string (pyval Z))) :=
  let h := toy_H0 d in
  match m with
  | CAMBdata.h_of_z | CAMBdata.angular_diameter_distance
  | CAMBdata.comoving_radial_distance =>
      match kw !! "z" with
      | Some (RVal (PArr zs)) => Ok (VArr ((λ z, h + z) <$> zs))
      | _ => Err (TypeError "z")
      end
  | CAMBdata.get_fsigma8 =>
      match d !! "redshifts" with
      | Some (PArr zs) => Ok (VArr ((λ z, h * z) <$> zs))
      | _ => Ok (VArr [])
      end
  | CAMBdata.get_cmb_power_spectra =>
      Ok (VSpectra [("total", [[h; h; h; h]; [h; h; h; h]; [h; h; h; h]; [h; h; h; h]]);
                    ("lens_potential", [[h; 0; 0]; [h; 0; 0]; [h; 0; 0]; [h; 0; 0]])])
  | CAMBdata.get_linear_matter_power_spectrum =>
      Ok (VPk [1; 2] [0] [[h; h + 1]])
  | CAMBdata.get_source_cls_dict =>
      Ok (VSourceCls [("W1xW1", [h; h]); ("PxW1", [h; h])])
  end.

#[global] Instance toy_CAMB : CAMB Z := {|
  CAMBparams := gmap string (pyval Z);
  CAMBresults := gmap string (pyval Z);
  pyobj := unit;
  source_window := unit;
  camb_set_params := toy_set_params;
  set_classes_args := ["dark_energy_model"];
  set_matter_power_args := ["redshifts"; "kmax"];
  set_for_lmax_args := ["lmax"; "lens_potential_accuracy"];
  camb_hasattr := λ _ _, true;
  camb_setattr := λ p _ _, p;
  SplinedSourceWindow := λ _, Ok ();
  GaussianSourceWindow := λ _, Ok ();
  set_SourceWindows := λ p _, p;
  set_limber_windows := λ p _, p;
  camb_get_results := λ p, Ok p;
  camb_get_background := λ p, Ok p;
  call_method := toy_call_method;
  get_derived_params := λ d, {[ "H0" := toy_H0 d ]};
  get_sigma8 := λ d, Ok [toy_H0 d];
  obj_of_params := λ _, ();
  obj_of_results := λ _, ();
  empty_dict := ();
  getattr_value := λ _ _, None;
  getattr_object := λ _ _, None;
  call_getter := λ _ _, None;
  version_lt_1_0_11 := false;
|}.

(** A theory without requirements, and four parameter points; [pD] is out of
    range for the stand-in library. *)
Definition toy0 : theory := new_theory ["H0"] ["H0"] ∅ false false ∅.

(** The same with the requirement of [H] at three redshifts. *)
Definition toy_H : theory :=
  res_get (needs [("H", Some {[ "z" := RVal (PArr [0; 2; 4]) ]})] toy0) toy0.

Definition pA : gmap string Z := {[ "H0" := 67 ]}.
Definition pB : gmap string Z := {[ "H0" := 68 ]}.
Definition pC : gmap string Z := {[ "H0" := 69 ]}.
Definition pD : gmap string Z := {[ "H0" := -1 ]}.

Definition req_z (z : list Z) : option (gmap string (rfield Z)) :=
  Some {[ "z" := RVal (PArr z) ]}.

Definition pE : gmap string Z := {[ "H0" := 70 ]}.

(** The same theory with the requirement of [fsigma8] at two redshifts. *)
Definition toy_fsigma8 : theory :=
  res_get (needs [("fsigma8", Some {[ "z" := RVal (PArr [0; 1]) ]})] toy0) toy0.

(** The same instance after one evaluation of [pA], with the Hubble rate
    then requested as well. *)
Definition toy_fsigma8_then_H : theory :=
  res_get (needs [("H", Some {[ "z" := RVal (PArr [0; 2; 4]) ]})]
             (compute None true pA toy_fsigma8).2) toy0.

(** The theory with the Hubble rate after the evaluation of three points,
    the derived parameters asked for each time. *)
Definition toy_ABC : theory :=
  (compute (Some ∅) true pC
     (compute (Some ∅) true pB (compute (Some ∅) true pA toy_H).2).2).2.

(** The same theory with the requirement of two spectra, and with that of
    the interpolator of the matter power spectrum. *)
Definition toy_Cl : theory :=
  res_get
    (needs [("Cl", Some {[ "tt" := RVal (PNum 3); "pp" := RVal (PNum 3) ]})] toy0)
    toy0.

Definition toy_Pk : theory :=
  res_get
    (needs [("Pk_interpolator",
             Some {[ "z" := RVal (PArr [0]); "k_max" := RVal (PNum 2);
                     "vars_pairs" := RVal (PPairs []) ]})] toy0)
    toy0.

(** Further instances used to exercise the statements below. *)

Definition toy_CAMBdata : theory :=
  res_get (needs [("CAMBdata", None)] toy0) toy0.
Definition toy_sources : theory :=
  res_get
    (needs [("source_Cl",
             Some {[ "sources" :=
                       RSources [("s1", {[ "function" := PStr "gaussian";
                                           "redshift" := PNum 1 ]})] ]})] toy0)
    toy0.
Definition toy_outputs : CAMBOutputs :=
  {| out_CAMBparams := ∅; out_CAMBdata := None;
     out_derived := Some {[ "H0" := 67 ]} |}.
Definition tt_and_pp : gmap string (rfield Z) :=
  {[ "tt" := RVal (PNum 3); "PP" := RVal (PNum 5) ]}.

Definition two_pairs : gmap string (rfield Z) :=
  {[ "z" := RVal (PArr [0]); "k_max" := RVal (PNum 2);
     "vars_pairs" := RVal (PPairs [("delta_tot", "delta_tot");
                                   ("delta_nonu", "delta_nonu")]) ]}.

(** * Vocabulary of the statements *)

Section vocabulary.
Context {F : Type} `{!Num F} `{!CAMB F}.
Implicit Types (self : theory) (s : slot) (P : gmap string F).

(** [frame i Q self self']: from [self] to [self'] the collectors and every
    state but [i] are unchanged, and state [i] changes within [Q]. *)
Definition frame (i : nat) (Q : slot → slot → Prop) (self self' : theory) : Prop :=
  collectors self' = collectors self ∧
  stop_at_error self' = stop_at_error self ∧
  length (_states self') = length (_states self) ∧
  (∀ j, j ≠ i → _states self' !! j = _states self !! j) ∧
  (∀ s, _states self !! i = Some s → ∃ s', _states self' !! i = Some s' ∧ Q s s').

Definition set_rel P (s s' : slot) : Prop :=
  params s' = Some P ∧ last s' = last s ∧ products s' = products s.

Definition keep_rel (s s' : slot) : Prop :=
  params s' = params s ∧ last s' = last s ∧ products s' = products s.

(** State [i] after the collectors: the keys only grow, and a loop that ran
    to its end ([fin]) has stored every key of [ks]. *)
Definition coll_rel (ks : list (ckey F)) (fin : Prop) (s s' : slot) : Prop :=
  params s' = params s ∧ last s' = last s ∧
  (∀ k, k ∈ odict.keys (products s) → k ∈ odict.keys (products s')) ∧
  (fin → ∀ k, k ∈ ks → k ∈ odict.keys (products s')).

(** The state that a new computation overwrites:
    [lasts.index(min(lasts))]. *)
Definition oldest (self : theory) : res nat :=
  m ← py_min (lasts_of self); py_index m (lasts_of self).

(** State [i] after the [except StopIteration] branch: it holds the new
    parameters, with its recency untouched, and after a full computation
    ([fin]) every collector's product. *)
Definition new_rel P (ks : list (ckey F)) (fin : Prop) (s s' : slot) : Prop :=
  params s' = Some P ∧ last s' = last s ∧
  (fin → ∀ k, k ∈ ks → k ∈ odict.keys (products s')).

(** No two states hold the same parameter point. *)
Definition unique_params self : Prop :=
  ∀ i j s t P, _states self !! i = Some s → _states self !! j = Some t →
    params s = Some P → params t = Some P → i = j.

(** A state that holds a parameter point without the product of every
    collector is the one the next computation overwrites. *)
Definition incomplete_is_oldest self : Prop :=
  ∀ i s P, _states self !! i = Some s → params s = Some P →
    has_products self s = false → oldest self = Ok i.

Definition cache_inv self : Prop := unique_params self ∧ incomplete_is_oldest self.

(** The cache as [initialize] leaves it. *)
Definition fresh_cache self : Prop := _states self = replicate _n_states empty_state.

(** The object after the last three lines of [compute] made [i] current,
    [m] being [max(lasts)]. *)
Definition hit_state (m : Z) (i : nat) self : theory :=
  update_state i (with_last 1)
    (with_states ((λ s, with_last (last s - m) s) <$> _states self) self).

(** The objects reached by evaluations with caching on. *)
Inductive reachable (self0 : theory) : theory → Prop :=
  | reachable_refl : reachable self0 self0
  | reachable_compute self d P o self' :
      reachable self0 self → compute d true P self = (o, self') →
      reachable self0 self'.

(** The keys of a state's results only grow, and only by keys of [ks]. *)
Definition keys_rel (ks : list (ckey F)) (s s' : slot) : Prop :=
  (∀ k, k ∈ odict.keys (products s) → k ∈ odict.keys (products s')) ∧
  (∀ k, k ∈ odict.keys (products s') → k ∈ odict.keys (products s) ∨ k ∈ ks).

(** Every result a state holds belongs to a registered collector. *)
Definition products_registered self : Prop :=
  ∀ j t k, _states self !! j = Some t → k ∈ odict.keys (products t) →
    k ∈ odict.keys (collectors self).

(** A list of evaluations with caching on, one after the other; what they
    return is dropped. *)
Definition run_computes (ps : list (gmap string F)) self : theory :=
  foldl (λ self p, (compute None true p self).2) self ps.

(** The redshifts that a requirement declares: [np.atleast_1d(v["z"])]. *)
Definition declared_z (v : option (gmap string (rfield F))) : res (list F) :=
  f ← req_get v "z"; x ← as_pyval f; np_atleast_1d x.

(** The list held for the library: [extra_args.get("redshifts", [])], as an
    array. *)
Definition solver_redshifts self : list F :=
  match extra_args self !! "redshifts" with
  | Some (PArr l) => l
  | Some (PNum x) => [x]
  | _ => []
  end.

(** The [z] argument of the collector of quantity [k]. *)
Definition collector_z self (k : string) : option (list F) :=
  match odict.get (KStr k) (collectors self) with
  | Some (Some c) =>
      match kwargs c !! "z" with
      | Some (RVal (PArr l)) => Some l
      | _ => None
      end
  | _ => None
  end.

(** The quantities whose redshifts go to the library, and those that keep
    them in their collector. *)
Definition transfer_quantity (k : string) : Prop :=
  k = "fsigma8" ∨ k = "Pk_interpolator" ∨ k = "matter_power_spectrum".

Definition background_quantity (k : string) : Prop :=
  k = "H" ∨ k = "angular_diameter_distance" ∨ k = "comoving_radial_distance".

(** The redshifts a getter looks its argument up in. *)
Definition redshifts_of (quantity : string) self : option (list F) :=
  if decide (quantity = "fsigma8") then
    match extra_args self !! "redshifts" with
    | Some (PArr a) => Some a
    | _ => None
    end
  else collector_z self quantity.

(** [val] is stored at a place where the redshifts hold [zi]. *)
Definition stored_at (redshifts stored : list F) (zi val : F) : Prop :=
  ∃ i, redshifts !! i = Some zi ∧ stored !! i = Some val.

(** A spectrum with multipole [l] from 2 on multiplied by [fac l]. *)
Definition weighted (fac : nat → F) (cl : list F) : list F :=
  imap (λ l x, if (l <? 2)%nat then x else fmul x (fac l)) cl.

(** The factors of [get_Cl] at multipole [l]. *)
Definition cl_factor (ell_factor : bool) (units_factor : F) (l : nat) : F :=
  fmul (fsqr units_factor) (if ell_factor then ell_weight l else fone).

Definition pp_factor (l : nat) : F := fmul (fsqr (ell_weight l)) two_pi.

(** What [get_Pk_interpolator] may do to the current state: nothing, or
    store one object under a key that was not there. *)
Definition memo_rel (key : ckey F) (s s' : slot) : Prop :=
  params s' = params s ∧ derived s' = derived s ∧
  derived_extra s' = derived_extra s ∧ last s' = last s ∧
  (products s' = products s ∨
   ∃ result, odict.get key (products s) = None ∧
             products s' = odict.put key result (products s)).

(** What [needs] builds and [compute] only reads: the parameter names, the
    collectors, the arguments and attributes for the library and the flags. *)
Definition same_registry self self' : Prop :=
  input_params self' = input_params self ∧
  output_params self' = output_params self ∧
  renames self' = renames self ∧
  use_planck_names self' = use_planck_names self ∧
  stop_at_error self' = stop_at_error self ∧
  collectors self' = collectors self ∧
  extra_args self' = extra_args self ∧
  extra_attrs self' = extra_attrs self ∧
  derived_extra_names self' = derived_extra_names self ∧
  needs_perts self' = needs_perts self ∧
  limber self' = limber self ∧
  non_linear_lens self' = non_linear_lens self ∧
  non_linear_pk self' = non_linear_pk self ∧
  H_units_conv_factor self' = H_units_conv_factor self ∧
  _needs self' = _needs self.

(** The spectra of the collector of [Cl], none when there is no collector. *)
Definition collector_spectra self : list string :=
  match odict.get (KStr "Cl") (collectors self) with
  | Some (Some c) =>
      match kwargs c !! "spectra" with
      | Some (RVal (PStrs l)) => l
      | _ => []
      end
  | _ => []
  end.

(** The objects reached from [self0] by the calls a run makes: requirements
    declared, points evaluated with or without caching, interpolators
    asked for. *)
Inductive session (self0 : theory) : theory → Prop :=
  | session_start : session self0 self0
  | session_needs self reqs self' :
      session self0 self → needs reqs self = Ok self' → session self0 self'
  | session_compute self d cached P o self' :
      session self0 self → compute d cached P self = (o, self') →
      session self0 self'
  | session_Pk_interpolator self var_pair nonlinear extrap_kmax r self' :
      session self0 self →
      get_Pk_interpolator var_pair nonlinear extrap_kmax self = (r, self') →
      session self0 self'.

(** No collector of [K] with a method to call. *)
Definition unset (K : ckey F) self : Prop := ∀ c, (K, Some c) ∉ collectors self.

(** No collector of ["CAMBdata"] other than [None], and no state with a
    result under that key. *)
Definition no_CAMBdata self : Prop :=
  unset (KStr "CAMBdata") self ∧
  ∀ j t, _states self !! j = Some t →
    odict.get (KStr "CAMBdata") (products t) = None.

(** The results of a state under key [K] do not appear between [s] and
    [s']. *)
Definition no_new (K : ckey F) (s s' : slot) : Prop :=
  odict.get K (products s) = None → odict.get K (products s') = None.

(** A sum that is a right injection: the branch fell through to the last
    lines of [compute]. *)
Definition is_inr {A B} (r : A + B) : Prop :=
  match r with inr _ => True | inl _ => False end.

End vocabulary.

(** * Properties *)

(** ** Pairs and results *)

Lemma pair_eta_fst {A B} (x : A * B) (a : A) : x.1 = a → x = (a, x.2).
Proof. intros <-. apply surjective_pairing. Qed.

Lemma res_eta {A} (r : res A) (d : A) : res_is_ok r = true → r = Ok (res_get r d).
Proof. by destruct r. Qed.

(** A successful sequence of binds: every step succeeded. *)
Ltac ok_bind H :=
  repeat match type of H with
  | mbind _ ?m = Ok _ =>
      let E := fresh "E" in destruct m eqn:E; simpl in H; [|discriminate H]
  | (?m ≫= _) = Ok _ =>
      let E := fresh "E" in destruct m eqn:E; simpl in H; [|discriminate H]
  end.

(** ** Dictionaries *)

Section odict_facts.
Context {K V : Type} `{EqDecision K}.
Implicit Types (k : K) (v : V) (d : list (K * V)).

Lemma odict_get_put_eq k v d : odict.get k (odict.put k v d) = Some v.
Proof.
  induction d as [|[k' v'] d IH]; simpl.
  - by rewrite decide_True.
  - destruct (decide (k' = k)) as [->|Hne]; simpl.
    + by rewrite decide_True.
    + by rewrite decide_False.
Qed.

Lemma odict_get_put_ne k k' v d :
  k ≠ k' → odict.get k' (odict.put k v d) = odict.get k' d.
Proof.
  intros Hne. induction d as [|[k0 v0] d IH]; simpl.
  - by rewrite decide_False.
  - destruct (decide (k0 = k)) as [->|Hne0]; simpl.
    + by rewrite !decide_False.
    + destruct (decide (k0 = k')); done.
Qed.

Lemma odict_put_id k v d : odict.get k d = Some v → odict.put k v d = d.
Proof.
  induction d as [|[k0 v0] d IH]; simpl; [done|].
  destruct (decide (k0 = k)) as [->|Hne]; [congruence|].
  intros Hg. by rewrite IH.
Qed.

Lemma odict_get_None k d : odict.get k d = None ↔ k ∉ odict.keys d.
Proof.
  unfold odict.keys. induction d as [|[k0 v0] d IH]; csimpl.
  - split; [intros _; apply not_elem_of_nil | done].
  - rewrite not_elem_of_cons. destruct (decide (k0 = k)) as [->|Hne].
    + split; [done | intros [? _]; done].
    + rewrite IH. split; [intros ?; split; [congruence | done] | tauto].
Qed.

Lemma odict_get_is_Some k d : is_Some (odict.get k d) ↔ k ∈ odict.keys d.
Proof.
  destruct (odict.get k d) eqn:E.
  - split; [|by eauto]. intros _.
    destruct (decide (k ∈ odict.keys d)) as [|Hn]; [done|].
    apply odict_get_None in Hn. congruence.
  - split; [by intros [??] |]. intros Hin.
    apply odict_get_None in E. done.
Qed.

Lemma odict_mem_true k d : odict.mem k d = true ↔ k ∈ odict.keys d.
Proof. unfold odict.mem. rewrite bool_decide_eq_true. apply odict_get_is_Some. Qed.

Lemma odict_keys_put k k' v d :
  k' ∈ odict.keys (odict.put k v d) ↔ k' = k ∨ k' ∈ odict.keys d.
Proof.
  rewrite <-!odict_get_is_Some.
  destruct (decide (k = k')) as [->|Hne].
  - rewrite odict_get_put_eq. split; [auto | by eauto].
  - rewrite odict_get_put_ne by done. split; [auto | intros [->|?]; done].
Qed.

End odict_facts.

(** ** Minimum, maximum and first index *)

Lemma foldl_min_le x l : foldl Z.min x l ≤ x ∧ Forall (λ y, foldl Z.min x l ≤ y) l.
Proof.
  revert x. induction l as [|y l IH]; intros x; simpl; [split; [lia | constructor]|].
  destruct (IH (Z.min x y)) as [H1 H2]. split; [lia|].
  constructor; [lia | done].
Qed.

Lemma foldl_min_in x l : foldl Z.min x l = x ∨ foldl Z.min x l ∈ l.
Proof.
  revert x. induction l as [|y l IH]; intros x; simpl; [by left|].
  destruct (IH (Z.min x y)) as [H1|H1].
  - rewrite H1. destruct (Z.min_spec x y) as [[_ ->]|[_ ->]]; [by left | right; left].
  - right. by right.
Qed.

Lemma foldl_max_ge x l : x ≤ foldl Z.max x l ∧ Forall (λ y, y ≤ foldl Z.max x l) l.
Proof.
  revert x. induction l as [|y l IH]; intros x; simpl; [split; [lia | constructor]|].
  destruct (IH (Z.max x y)) as [H1 H2]. split; [lia|].
  constructor; [lia | done].
Qed.

Lemma py_min_spec l m :
  py_min l = Ok m → m ∈ l ∧ Forall (λ y, m ≤ y) l.
Proof.
  destruct l as [|x l]; simpl; [done|]. intros [= <-].
  destruct (foldl_min_le x l) as [H1 H2]. split; [|by constructor].
  destruct (foldl_min_in x l) as [->|?]; [left | by right].
Qed.

Lemma py_max_spec l m : py_max l = Ok m → Forall (λ y, y ≤ m) l.
Proof.
  destruct l as [|x l]; simpl; [done|]. intros [= <-].
  destruct (foldl_max_ge x l) as [H1 H2]. by constructor.
Qed.

Lemma py_min_is_Ok l : l ≠ [] → ∃ m, py_min l = Ok m.
Proof. destruct l; [done|]. simpl. eauto. Qed.

Lemma py_max_is_Ok l : l ≠ [] → ∃ m, py_max l = Ok m.
Proof. destruct l; [done|]. simpl. eauto. Qed.

Lemma py_index_spec x l i :
  py_index x l = Ok i → l !! i = Some x ∧ ∀ j, (j < i)%nat → l !! j ≠ Some x.
Proof.
  revert i. induction l as [|y l IH]; intros i; simpl; [done|].
  destruct (decide (y = x)) as [->|Hne].
  - intros [= <-]. split; [done | lia].
  - destruct (py_index x l) as [i'|] eqn:E; simpl; [|done].
    intros [= <-]. destruct (IH i' eq_refl) as [H1 H2]. split; [done|].
    intros [|j] Hj; simpl; [congruence | apply H2; lia].
Qed.

Lemma py_index_is_Ok x l : x ∈ l → ∃ i, py_index x l = Ok i.
Proof.
  induction l as [|y l IH]; [by intros ?%elem_of_nil|].
  intros Hin. simpl. destruct (decide (y = x)); [eauto|].
  apply elem_of_cons in Hin as [?|Hin]; [congruence|].
  destruct (IH Hin) as [i ->]. simpl. eauto.
Qed.

Lemma py_index_unique x l i :
  l !! i = Some x → (∀ j, (j < i)%nat → l !! j ≠ Some x) → py_index x l = Ok i.
Proof.
  intros Hi Hlt.
  destruct (py_index_is_Ok x l) as [i' Hi']; [by eapply list_elem_of_lookup_2|].
  destruct (py_index_spec _ _ _ Hi') as [H1 H2].
  destruct (lt_eq_lt_dec i i') as [[Hl|Heq]|Hl]; [|by subst|].
  - by destruct (H2 i Hl).
  - by destruct (Hlt i' Hl).
Qed.

(** ** Frame of the cache updates *)

Section cache_facts.
Context {F : Type} `{!Num F} `{!CAMB F}.
Implicit Types (self : theory) (s : slot) (P : gmap string F).

Lemma frame_refl i (Q : slot → slot → Prop) self :
  (∀ s, Q s s) → frame i Q self self.
Proof. intros HQ. repeat split; eauto. Qed.

Lemma frame_trans i (Q1 Q2 Q3 : slot → slot → Prop) self1 self2 self3 :
  (∀ s1 s2 s3, Q1 s1 s2 → Q2 s2 s3 → Q3 s1 s3) →
  frame i Q1 self1 self2 → frame i Q2 self2 self3 → frame i Q3 self1 self3.
Proof.
  intros HQ (Hc1 & He1 & Hl1 & Ho1 & Hi1) (Hc2 & He2 & Hl2 & Ho2 & Hi2).
  repeat split; try congruence.
  - intros j Hj. rewrite Ho2, Ho1; done.
  - intros s Hs. destruct (Hi1 s Hs) as (s2 & Hs2 & HQ1).
    destruct (Hi2 s2 Hs2) as (s3 & Hs3 & HQ2). eauto.
Qed.

Lemma frame_comp i (Q1 Q2 : slot → slot → Prop) self1 self2 self3 :
  frame i Q1 self1 self2 → frame i Q2 self2 self3 →
  frame i (λ s1 s3, ∃ s2, Q1 s1 s2 ∧ Q2 s2 s3) self1 self3.
Proof. apply frame_trans. eauto. Qed.

Lemma frame_weaken i (Q1 Q2 : slot → slot → Prop) self self' :
  (∀ s s', Q1 s s' → Q2 s s') → frame i Q1 self self' → frame i Q2 self self'.
Proof.
  intros HQ (Hc & He & Hl & Ho & Hi). repeat split; try done.
  intros s Hs. destruct (Hi s Hs) as (s' & ? & ?). eauto.
Qed.

Lemma frame_update_state i (Q : slot → slot → Prop) f self :
  (∀ s, Q s (f s)) → frame i Q self (update_state i f self).
Proof.
  intros HQ. unfold frame, update_state; simpl. repeat split.
  - by rewrite length_alter.
  - intros j Hj. by rewrite list_lookup_alter_ne.
  - intros s Hs. exists (f s). rewrite list_lookup_alter_eq, Hs. split; [done | apply HQ].
Qed.

(** Updates of fields other than the states and the collectors. *)
Lemma frame_fields i (Q : slot → slot → Prop) self self' :
  (∀ s, Q s s) →
  collectors self' = collectors self → stop_at_error self' = stop_at_error self →
  _states self' = _states self → frame i Q self self'.
Proof. intros HQ Hc He Hs. unfold frame. rewrite Hc, He, Hs. repeat split; eauto. Qed.

Lemma prepare_base_frame i args self r self' :
  prepare_base args self = (r, self') → frame i keep_rel self self'.
Proof.
  unfold prepare_base. intros Hp.
  repeat case_match; simplify_eq; by apply frame_fields.
Qed.

Lemma set_keep_rel P s1 s2 s3 : set_rel P s1 s2 → keep_rel s2 s3 → set_rel P s1 s3.
Proof. unfold set_rel, keep_rel. intros (?&?&?) (?&?&?). repeat split; congruence. Qed.

Lemma keep_rel_trans s1 s2 s3 : keep_rel s1 s2 → keep_rel s2 s3 → keep_rel s1 s3.
Proof. unfold keep_rel. intros (?&?&?) (?&?&?). repeat split; congruence. Qed.

Lemma keep_rel_refl s : keep_rel s s.
Proof. by unfold keep_rel. Qed.

Lemma set_frame P i self r self' :
  set P i self = (r, self') → frame i (set_rel P) self self'.
Proof.
  unfold set, set_try. intros Hs.
  destruct (prepare_base _ _) as [r1 self1] eqn:Hp.
  apply (prepare_base_frame i) in Hp.
  assert (frame i (set_rel P) self self1) as Hf1.
  { eapply frame_trans; [apply set_keep_rel| |exact Hp].
    apply frame_update_state. intros s. by unfold set_rel. }
  assert (∀ a, frame i (set_rel P) self
                 (count_call (update_state i (with_set_args (Some a)) self1))) as Hf2.
  { intros a. eapply frame_trans; [apply set_keep_rel|exact Hf1|].
    apply (frame_trans i keep_rel keep_rel keep_rel self1
             (update_state i (with_set_args (Some a)) self1));
      [apply keep_rel_trans| |].
    - apply frame_update_state. intros s. by unfold keep_rel.
    - apply frame_fields; [apply keep_rel_refl|done..]. }
  repeat case_match; simplify_eq; auto.
Qed.

Lemma store_product_frame i product v self :
  frame i (coll_rel [product] True) self (store_product i product v self).
Proof.
  apply frame_update_state. intros s. unfold coll_rel; simpl.
  repeat split.
  - intros k Hk. apply odict_keys_put. by right.
  - intros _ k ->%list_elem_of_singleton. apply odict_keys_put. by left.
Qed.

Lemma run_collectors_frame results i cs self exit self' :
  run_collectors results i cs self = (exit, self') →
  frame i (coll_rel (odict.keys cs) (exit = LoopDone)) self self'.
Proof.
  revert self. induction cs as [|[product [collector|]] cs IH]; intros self; simpl.
  - intros [= <- <-]. apply frame_refl. intros s. unfold coll_rel.
    repeat split; [done|]. intros _ k ?%elem_of_nil. done.
  - intros Hrun.
    assert (∀ r self1, frame i keep_rel self self1 →
      match r with
      | Ok v => run_collectors results i cs (store_product i product v self1)
      | Err e =>
          if is_CAMBError e
          then if stop_at_error self1 then (LoopRaise e, self1) else (LoopReturn0, self1)
          else (LoopRaise e, self1)
      end = (exit, self') →
      frame i (coll_rel (odict.keys ((product, Some collector) :: cs))
                 (exit = LoopDone)) self self') as Hstep.
    { intros r self1 Hf1 Hr. destruct r as [v|e].
      - apply IH in Hr.
        pose proof (frame_comp _ _ _ _ _ _ Hf1
                      (frame_comp _ _ _ _ _ _ (store_product_frame i product v self1) Hr))
          as Hall.
        eapply frame_weaken; [|exact Hall].
        unfold keep_rel, coll_rel. simpl.
        intros s1 s3 (s2&(Hp1&Hl1&Hk1)&s2'&(Hp2&Hl2&Hg2&Hd2)&(Hp3&Hl3&Hg3&Hd3)).
        repeat split; try congruence.
        + intros k Hk. apply Hg3, Hg2. by rewrite Hk1.
        + intros Hfin k [->|Hk]%elem_of_cons; [|by apply Hd3].
          apply Hg3, Hd2; [done | left].
      - assert (exit ≠ LoopDone ∧ self' = self1) as [Hne ->].
        { repeat case_match; simplify_eq; done. }
        eapply frame_weaken; [|exact Hf1].
        unfold keep_rel, coll_rel. intros s s' (?&?&Hk). repeat split; try done.
        intros k. by rewrite Hk. }
    destruct (method collector).
    + eapply (Hstep _ (count_call self)); [|exact Hrun].
      apply frame_fields; [apply keep_rel_refl|done..].
    + apply (Hstep (Ok (VData results)) self); [|exact Hrun].
      apply frame_refl, keep_rel_refl.
  - intros [= <- <-]. apply frame_refl. intros s. unfold coll_rel.
    repeat split; done.
Qed.

Lemma prepare_derived_frame d i camb_params results self r self' :
  prepare_derived d i camb_params results self = (r, self') →
  frame i keep_rel self self'.
Proof.
  unfold prepare_derived. intros Hp.
  assert (∀ f, (∀ s, keep_rel s (f s)) → ∀ self0, frame i keep_rel self self0 →
            frame i keep_rel self (update_state i f self0)) as Hupd.
  { intros f Hf self0 H0. eapply frame_trans; [apply keep_rel_trans|exact H0|].
    by apply frame_update_state. }
  repeat case_match; simplify_eq;
    repeat (apply Hupd; [intros s; by unfold keep_rel|]);
    apply frame_refl, keep_rel_refl.
Qed.

Lemma prepare_derived_derived i camb_params results self d' self' :
  prepare_derived (Some ∅) i camb_params results self = (Ok d', self') →
  ∃ dd, d' = Some dd ∧ ∀ s', _states self' !! i = Some s' → derived s' = Some dd.
Proof.
  unfold prepare_derived. rewrite decide_True by done. intros Hp.
  destruct (_get_derived_all _ _) as [dd|]; [|done].
  destruct (derived_extra_dict _ _ _) as [de|]; simplify_eq.
  exists dd. split; [done|]. intros s'. unfold update_state; simpl.
  rewrite !list_lookup_alter_eq.
  destruct (_states self !! i); simpl; [|done]. by intros [= <-].
Qed.

Lemma compute_new_spec d P self r self' :
  compute_new d P (lasts_of self) self = (r, self') →
  match oldest self with
  | Err e => r = inl (Raise e) ∧ self' = self
  | Ok i =>
      frame i (new_rel P (odict.keys (collectors self)) (is_inr r)) self self' ∧
      ∀ j d', r = inr (j, d') →
        j = i ∧
        (d = Some ∅ → ∃ dd, d' = Some dd ∧
           ∀ s', _states self' !! i = Some s' → derived s' = Some dd)
  end.
Proof.
  unfold compute_new, oldest. intros Hc.
  destruct (py_min (lasts_of self) ≫= _) as [i|e] eqn:Hi; [|by simplify_eq].
  destruct (set P i self) as [rs self1] eqn:Hset.
  pose proof (set_frame _ _ _ _ _ Hset) as Hf1.
  assert (frame i (new_rel P (odict.keys (collectors self)) False) self self1) as Hfail.
  { eapply frame_weaken; [|exact Hf1].
    unfold set_rel, new_rel. intros s s' (?&?&?). repeat split; try done. }
  destruct rs as [[camb_params|]|e]; simplify_eq.
  2:{ split; [|done]. exact Hfail. }
  2:{ split; [|done]. exact Hfail. }
  destruct (match collectors self1 with [] => _ | _ => _ end) as [rr self2] eqn:Hres.
  assert (frame i keep_rel self1 self2) as Hf2.
  { destruct (collectors self1); simplify_eq.
    - apply frame_refl, keep_rel_refl.
    - apply frame_fields; [apply keep_rel_refl|done..]. }
  destruct rr as [results|e]; simplify_eq.
  2:{ split; [|done]. eapply frame_trans; [|exact Hf1|exact Hf2].
      unfold set_rel, keep_rel, new_rel. intros ??? (?&?&?) (?&?&?).
      repeat split; try congruence; try by intros []. }
  destruct (match results with Some _ => _ | None => _ end) as [exit self3] eqn:Hrun.
  assert (frame i (coll_rel (odict.keys (collectors self)) (exit = LoopDone))
            self2 self3) as Hf3.
  { destruct Hf1 as (Hc1&_), Hf2 as (Hc2&_). rewrite <-Hc1, <-Hc2.
    destruct results as [dres|]; simplify_eq.
    - by eapply run_collectors_frame.
    - destruct (collectors self1) eqn:Hcs.
      + simplify_eq. rewrite Hcs. apply frame_refl. unfold coll_rel. intros s.
        repeat split; try done. intros _ k ?%elem_of_nil. done.
      + exfalso. injection Hres as Hres _.
        destruct (needs_perts self1), (camb_get_results camb_params),
          (camb_get_background camb_params); done. }
  assert (frame i (new_rel P (odict.keys (collectors self)) (exit = LoopDone))
            self self3) as Hf13.
  { pose proof (frame_comp _ _ _ _ _ _ Hf1 (frame_comp _ _ _ _ _ _ Hf2 Hf3)) as Hall.
    eapply frame_weaken; [|exact Hall].
    unfold set_rel, keep_rel, new_rel, coll_rel.
    intros s1 s3 (s2&(?&?&?)&s2'&(?&?&?)&(?&?&?&?)). repeat split; try congruence. done. }
  destruct exit; simplify_eq.
  - destruct (prepare_derived d i camb_params results self3) as [rd self4] eqn:Hd.
    pose proof Hd as Hd'. apply prepare_derived_frame in Hd.
    assert (frame i (new_rel P (odict.keys (collectors self)) True) self self4) as Hf4.
    { eapply frame_trans; [|exact Hf13|exact Hd].
      unfold new_rel, keep_rel. intros s1 s2 s3 (?&?&Hk) (?&?&Hp).
      repeat split; try congruence. intros _ k Hin. rewrite Hp. by apply Hk. }
    destruct rd as [d'|e]; simplify_eq.
    + split.
      * eapply frame_weaken; [|exact Hf4]. unfold new_rel.
        intros s s' (?&?&?). repeat split; auto.
      * intros j d0 [= <- <-]. split; [done|]. intros ->.
        eapply prepare_derived_derived. apply Hd'.
    + split; [|done]. eapply frame_weaken; [|exact Hf4]. unfold new_rel.
      intros s s' (?&?&?). repeat split; try done; try by intros [].
  - split; [|done]. eapply frame_weaken; [|exact Hf13]. unfold new_rel.
    intros s s' (?&?&?). repeat split; try done; try by intros [].
  - split; [|done]. eapply frame_weaken; [|exact Hf13]. unfold new_rel.
    intros s s' (?&?&?). repeat split; try done; try by intros [].
Qed.

(** *** The oldest state *)

Lemma oldest_spec self i :
  oldest self = Ok i ↔
  ∃ x, lasts_of self !! i = Some x ∧ Forall (λ y, x ≤ y) (lasts_of self) ∧
       ∀ j y, (j < i)%nat → lasts_of self !! j = Some y → x < y.
Proof.
  unfold oldest. set (l := lasts_of self). clearbody l. split.
  - destruct (py_min l) as [m|] eqn:Hm; simpl; [|done]. intros Hi.
    destruct (py_min_spec _ _ Hm) as [_ Hle].
    destruct (py_index_spec _ _ _ Hi) as [Hl Hfirst].
    exists m. repeat split; try done. intros j y Hj Hy.
    assert (m ≤ y) by (eapply Forall_lookup_1 in Hle; eauto).
    assert (y ≠ m) by (intros ->; by eapply Hfirst).
    lia.
  - intros (x & Hx & Hle & Hfirst).
    destruct (py_min_is_Ok l) as [m Hm]; [by intros ->|].
    destruct (py_min_spec _ _ Hm) as [Hin Hle'].
    assert (m = x) as ->.
    { apply list_elem_of_lookup_2 in Hx.
      rewrite list.Forall_forall in Hle, Hle'.
      specialize (Hle _ Hin). specialize (Hle' _ Hx). lia. }
    rewrite Hm. simpl. apply py_index_unique; [done|].
    intros j Hj Hy. specialize (Hfirst j x Hj Hy). lia.
Qed.

Lemma oldest_lt_length self i : oldest self = Ok i → (i < length (_states self))%nat.
Proof.
  intros (x & Hx & _)%oldest_spec. apply lookup_lt_Some in Hx.
  unfold lasts_of in Hx. by rewrite length_fmap in Hx.
Qed.

Lemma oldest_is_Ok self : _states self ≠ [] → ∃ i, oldest self = Ok i.
Proof.
  intros Hne. unfold oldest.
  destruct (py_min_is_Ok (lasts_of self)) as [m Hm].
  { unfold lasts_of. by destruct (_states self). }
  rewrite Hm. simpl. apply py_index_is_Ok. by apply py_min_spec.
Qed.

Lemma lasts_of_lookup self j :
  lasts_of self !! j = last <$> _states self !! j.
Proof. unfold lasts_of. apply list_lookup_fmap. Qed.

Lemma lasts_of_frame i (Q : slot → slot → Prop) self self' :
  (∀ s s', Q s s' → last s' = last s) →
  frame i Q self self' → lasts_of self' = lasts_of self.
Proof.
  intros HQ (_ & _ & Hlen & Ho & Hi). apply list_eq. intros j.
  rewrite !lasts_of_lookup. destruct (decide (j = i)) as [->|Hne].
  - destruct (_states self !! i) as [s|] eqn:Hs.
    + destruct (Hi s eq_refl) as (s' & -> & HQs). simpl. f_equal. eauto.
    + apply lookup_ge_None in Hs. rewrite <-Hlen in Hs.
      apply lookup_ge_None in Hs. by rewrite Hs.
  - by rewrite Ho.
Qed.

Lemma oldest_frame i (Q : slot → slot → Prop) self self' :
  (∀ s s', Q s s' → last s' = last s) →
  frame i Q self self' → oldest self' = oldest self.
Proof. intros HQ Hf. unfold oldest. by rewrite (lasts_of_frame _ _ _ _ HQ Hf). Qed.

(** *** Making a state current *)

Lemma hit_state_lookup m i self j :
  _states (hit_state m i self) !! j =
  (λ s, if decide (j = i) then with_last 1 s else with_last (last s - m) s)
    <$> _states self !! j.
Proof.
  unfold hit_state, update_state; simpl.
  destruct (decide (j = i)) as [->|Hne].
  - rewrite list_lookup_alter_eq, list_lookup_fmap.
    by destruct (_states self !! i).
  - rewrite list_lookup_alter_ne by done. by rewrite list_lookup_fmap.
Qed.

Lemma hit_state_length m i self :
  length (_states (hit_state m i self)) = length (_states self).
Proof. unfold hit_state, update_state; simpl. by rewrite length_alter, length_fmap. Qed.

Lemma make_current_spec i self self' :
  make_current (lasts_of self) i self = Ok self' ↔
  ∃ m, py_max (lasts_of self) = Ok m ∧ self' = hit_state m i self.
Proof.
  unfold make_current. destruct (py_max _) as [m|]; simpl.
  - split; [intros [= <-]; eauto | by intros (? & [= <-] & ->)].
  - split; [done | by intros (? & ? & _)].
Qed.

(** After [i] was made current it holds recency 1 and every other state a
    recency of at most 0. *)
Lemma hit_state_lasts m i self j t :
  py_max (lasts_of self) = Ok m →
  _states (hit_state m i self) !! j = Some t →
  if decide (j = i) then last t = 1 else last t ≤ 0.
Proof.
  intros Hm. rewrite hit_state_lookup.
  destruct (_states self !! j) as [s|] eqn:Hs; simpl; [|done].
  intros [= <-]. destruct (decide (j = i)); simpl; [done|].
  apply py_max_spec in Hm. rewrite list.Forall_forall in Hm.
  assert (last s ∈ lasts_of self).
  { eapply list_elem_of_lookup_2. rewrite lasts_of_lookup, Hs. done. }
  specialize (Hm _ H). lia.
Qed.

(** Making another state current does not change which state is the
    oldest. *)
Lemma oldest_hit_state m i self j :
  py_max (lasts_of self) = Ok m → oldest self = Ok j → j ≠ i →
  oldest (hit_state m i self) = Ok j.
Proof.
  intros Hm (x & Hx & Hle & Hfirst)%oldest_spec Hne. apply oldest_spec.
  pose proof (py_max_spec _ _ Hm) as Hmax. rewrite list.Forall_forall in Hmax.
  assert (x ≤ m).
  { apply Hmax. by eapply list_elem_of_lookup_2. }
  exists (x - m). repeat split.
  - rewrite lasts_of_lookup, hit_state_lookup. rewrite lasts_of_lookup in Hx.
    destruct (_states self !! j) as [s|]; simplify_eq/=.
    by rewrite decide_False.
  - apply Forall_lookup_2. intros k y. rewrite lasts_of_lookup, hit_state_lookup.
    destruct (_states self !! k) as [s|] eqn:Hs; simpl; [|done]. intros [= <-].
    destruct (decide (k = i)); simpl; [lia|].
    assert (x ≤ last s); [|lia].
    eapply Forall_lookup_1 in Hle; [exact Hle|]. by rewrite lasts_of_lookup, Hs.
  - intros k y Hk. rewrite lasts_of_lookup, hit_state_lookup.
    destruct (_states self !! k) as [s|] eqn:Hs; simpl; [|done]. intros [= <-].
    destruct (decide (k = i)); simpl; [lia|].
    assert (x < last s); [|lia].
    eapply Hfirst; [exact Hk|]. by rewrite lasts_of_lookup, Hs.
Qed.

(** *** The lookup of a reusable state *)

Lemma find_state_spec P self i :
  find_state P self = Some i ↔
  ∃ s, _states self !! i = Some s ∧ params s = Some P ∧
       ∀ j t, (j < i)%nat → _states self !! j = Some t → params t ≠ Some P.
Proof.
  unfold find_state. split.
  - destruct (list_find _ _) as [[i' s]|] eqn:Hf; simpl; [|done].
    intros [= ->]. apply list_find_Some in Hf as (Hs & Hp & Hfirst).
    exists s. repeat split; try done. intros j t Hj Ht. by eapply Hfirst.
  - intros (s & Hs & Hp & Hfirst).
    assert (list_find (λ s, params s = Some P) (_states self) = Some (i, s)) as ->.
    { apply list_find_Some. repeat split; try done.
      intros j t Ht Hj. by eapply Hfirst. }
    done.
Qed.

Lemma find_state_None P self :
  find_state P self = None ↔ ∀ j t, _states self !! j = Some t → params t ≠ Some P.
Proof.
  unfold find_state. rewrite fmap_None, list_find_None, Forall_lookup. done.
Qed.

Lemma has_products_spec self s :
  has_products self s = true ↔
  ∀ k, k ∈ odict.keys (collectors self) → k ∈ odict.keys (products s).
Proof.
  unfold has_products. rewrite forallb_forall. setoid_rewrite <-list_elem_of_In.
  setoid_rewrite bool_decide_eq_true. done.
Qed.

Lemma reusable_state_spec cached P self i :
  reusable_state cached P self = Some i ↔
  cached = true ∧ find_state P self = Some i ∧
  ∃ s, _states self !! i = Some s ∧ has_products self s = true.
Proof.
  unfold reusable_state. destruct cached; [|split; [done | by intros [? _]]].
  destruct (find_state P self) as [i'|] eqn:Hf; simpl.
  - destruct (_states self !! i') as [s|] eqn:Hs; simpl.
    + destruct (has_products self s) eqn:Hh.
      * split; [intros [= <-]; eauto 10 | by intros (_ & [= <-] & _)].
      * split; [done|]. intros (_ & [= <-] & s' & ? & ?). congruence.
    + split; [done|]. intros (_ & [= <-] & s' & ? & ?). congruence.
  - split; [done | by intros (_ & ? & _)].
Qed.

(** *** The two ways through [compute] *)

Lemma compute_hit d cached P self i :
  reusable_state cached P self = Some i →
  ∃ m s, py_max (lasts_of self) = Ok m ∧ _states self !! i = Some s ∧
    compute d cached P self =
    (Return 1 (if decide (d = Some ∅) then Some (default ∅ (derived s)) else d),
     hit_state m i self).
Proof.
  intros Hr. pose proof Hr as (_ & _ & s & Hs & _)%reusable_state_spec.
  destruct (py_max_is_Ok (lasts_of self)) as [m Hm].
  { unfold lasts_of. intros Hnil. apply fmap_nil_inv in Hnil.
    by rewrite Hnil in Hs. }
  exists m, s. repeat split; try done.
  unfold compute. rewrite Hr.
  assert (make_current (lasts_of self) i self = Ok (hit_state m i self)) as ->.
  { apply make_current_spec. eauto. }
  rewrite Hs. done.
Qed.

Lemma compute_miss d cached P self o self' :
  reusable_state cached P self = None →
  compute d cached P self = (o, self') →
  ∃ r self1, compute_new d P (lasts_of self) self = (r, self1) ∧
    match r with
    | inl o' => o = o' ∧ self' = self1
    | inr (i, d') =>
        ∃ m, py_max (lasts_of self) = Ok m ∧ o = Return 2 d' ∧
             self' = hit_state m i self1 ∧ lasts_of self1 = lasts_of self
    end.
Proof.
  intros Hr. unfold compute. rewrite Hr.
  destruct (compute_new d P (lasts_of self) self) as [r self1] eqn:Hn.
  intros Hc. exists r, self1. split; [done|].
  destruct r as [o'|[i d']]; [by simplify_eq|].
  pose proof (compute_new_spec _ _ _ _ _ Hn) as Hspec.
  destruct (oldest self) as [i0|] eqn:Ho; [|by destruct Hspec].
  destruct Hspec as [Hf _].
  assert (lasts_of self1 = lasts_of self) as Hl.
  { eapply lasts_of_frame; [|exact Hf]. by intros ?? (_ & ? & _). }
  destruct (py_max_is_Ok (lasts_of self)) as [m Hm].
  { apply oldest_lt_length in Ho. unfold lasts_of. destruct (_states self); simpl in *; [lia | done]. }
  exists m.
  assert (make_current (lasts_of self) i self1 = Ok (hit_state m i self1)) as Hmk.
  { rewrite <-Hl. apply make_current_spec. rewrite Hl. eauto. }
  rewrite Hmk in Hc. by simplify_eq.
Qed.

(** *** The invariant of the cache *)

Lemma hit_state_slot m i self j t' :
  _states (hit_state m i self) !! j = Some t' →
  ∃ t, _states self !! j = Some t ∧ params t' = params t ∧
       products t' = products t ∧ derived t' = derived t.
Proof.
  rewrite hit_state_lookup. destruct (_states self !! j) as [t|]; simpl; [|done].
  intros [= <-]. exists t. by destruct (decide (j = i)).
Qed.

Lemma hit_state_has_products m i self t' t :
  products t' = products t →
  has_products (hit_state m i self) t' = has_products self t.
Proof. unfold has_products. simpl. by intros ->. Qed.

Lemma hit_state_unique m i self : unique_params self → unique_params (hit_state m i self).
Proof.
  intros Hu a b s t P (s0 & Hs0 & Hps & _)%hit_state_slot
    (t0 & Ht0 & Hpt & _)%hit_state_slot Hs Ht.
  apply (Hu a b s0 t0 P); congruence.
Qed.

Lemma frame_has_products i (Q : slot → slot → Prop) self self' s :
  frame i Q self self' → has_products self' s = has_products self s.
Proof. intros (Hc & _). unfold has_products. by rewrite Hc. Qed.

(** A new computation for a point that could not be reused leaves the
    parameter points distinct. *)
Lemma miss_unique P i ks fin self self' :
  cache_inv self → reusable_state true P self = None → oldest self = Ok i →
  frame i (new_rel P ks fin) self self' → unique_params self'.
Proof.
  intros [Hu Hinc] Hr Ho Hf.
  assert (∀ b t, b ≠ i → _states self !! b = Some t → params t ≠ Some P) as Hother.
  { intros b t Hb Ht Hp.
    destruct (find_state P self) as [j|] eqn:Hfind.
    - pose proof Hfind as (sj & Hsj & Hpj & _)%find_state_spec.
      assert (b = j) as -> by (eapply Hu; eauto).
      destruct (has_products self sj) eqn:Hh.
      + assert (reusable_state true P self = Some j); [|congruence].
        apply reusable_state_spec. eauto 10.
      + specialize (Hinc _ _ _ Hsj Hpj Hh). congruence.
    - rewrite find_state_None in Hfind. by eapply Hfind. }
  destruct Hf as (_ & _ & _ & Hsame & Hi).
  intros a b s t Q Hs Ht Hps Hpt.
  destruct (decide (a = i)) as [->|Ha], (decide (b = i)) as [->|Hb]; [done|..].
  - rewrite Hsame in Ht by done. exfalso.
    assert (Q = P) as ->.
    { destruct (_states self !! i) as [s0|] eqn:Hs0.
      - destruct (Hi s0 eq_refl) as (s' & Hs' & Hp & _). congruence.
      - apply oldest_lt_length in Ho. apply lookup_ge_None in Hs0. lia. }
    by eapply Hother.
  - rewrite Hsame in Hs by done. exfalso.
    assert (Q = P) as ->.
    { destruct (_states self !! i) as [s0|] eqn:Hs0.
      - destruct (Hi s0 eq_refl) as (s' & Hs' & Hp & _). congruence.
      - apply oldest_lt_length in Ho. apply lookup_ge_None in Hs0. lia. }
    by eapply Hother.
  - rewrite Hsame in Hs, Ht by done. eapply Hu; eauto.
Qed.

Lemma miss_incomplete P i ks fin self self' :
  incomplete_is_oldest self → oldest self = Ok i →
  frame i (new_rel P ks fin) self self' → incomplete_is_oldest self'.
Proof.
  intros Hinc Ho Hf j t Q Ht Hp Hh.
  assert (oldest self' = oldest self) as ->.
  { eapply oldest_frame; [|exact Hf]. by intros ?? (_ & ? & _). }
  destruct (decide (j = i)) as [->|Hj]; [done|].
  rewrite (frame_has_products _ _ _ _ _ Hf) in Hh.
  destruct Hf as (_ & _ & _ & Hsame & _). rewrite Hsame in Ht by done.
  eapply Hinc; eauto.
Qed.

Lemma compute_preserves_inv d P self o self' :
  cache_inv self → compute d true P self = (o, self') → cache_inv self'.
Proof.
  intros [Hu Hinc] Hc.
  destruct (reusable_state true P self) as [i|] eqn:Hr.
  - destruct (compute_hit d _ _ _ _ Hr) as (m & s & Hm & Hs & Hc').
    rewrite Hc in Hc'. injection Hc' as _ ->.
    split; [by apply hit_state_unique|].
    intros j t' Q (t & Ht & Hpt & Hpr & _)%hit_state_slot Hp Hh.
    rewrite (hit_state_has_products _ _ _ _ _ Hpr) in Hh.
    assert (oldest self = Ok j) as Hoj by (apply (Hinc j t Q); congruence).
    apply oldest_hit_state; [done..|]. intros ->.
    apply reusable_state_spec in Hr as (_ & _ & s' & Hs' & Hh').
    congruence.
  - destruct (compute_miss _ _ _ _ _ _ Hr Hc) as (r & self1 & Hn & Hres).
    pose proof (compute_new_spec _ _ _ _ _ Hn) as Hspec.
    destruct (oldest self) as [i0|] eqn:Ho.
    2:{ destruct Hspec as [-> ->]. by destruct Hres as [_ ->]. }
    destruct Hspec as [Hf Hidx].
    pose proof (miss_unique _ _ _ _ _ _ (conj Hu Hinc) Hr Ho Hf) as Hu1.
    pose proof (miss_incomplete _ _ _ _ _ _ Hinc Ho Hf) as Hinc1.
    destruct r as [o'|[i d']]; [by destruct Hres as [_ ->]|].
    destruct Hres as (m & Hm & -> & -> & Hl).
    destruct (Hidx _ _ eq_refl) as [-> _].
    split; [by apply hit_state_unique|].
    intros j t' Q (t & Ht & Hpt & Hpr & _)%hit_state_slot Hp Hh. exfalso.
    rewrite (hit_state_has_products _ _ _ _ _ Hpr) in Hh.
    assert (oldest self1 = Ok j) as Hoj by (apply (Hinc1 j t Q); congruence).
    assert (oldest self1 = Ok i0) as Hoi.
    { rewrite <-Ho. eapply oldest_frame; [|exact Hf]. by intros ?? (_ & ? & _). }
    assert (j = i0) as -> by congruence.
    destruct (_states self !! i0) as [s0|] eqn:Hs0.
    + destruct Hf as (Hcs & _ & _ & _ & Hi).
      destruct (Hi s0 Hs0) as (s' & Hs' & _ & _ & Hfin).
      assert (has_products self1 t = true); [|congruence].
      apply has_products_spec. rewrite Hcs. simplify_eq. by apply Hfin.
    + apply oldest_lt_length in Ho. apply lookup_ge_None in Hs0. lia.
Qed.

Lemma fresh_cache_inv self : fresh_cache self → cache_inv self.
Proof.
  unfold fresh_cache. intros Hf. split.
  - intros i j s t P Hs _ Hp _. rewrite Hf in Hs.
    apply lookup_replicate in Hs as [-> _]. done.
  - intros i s P Hs Hp _. rewrite Hf in Hs.
    apply lookup_replicate in Hs as [-> _]. done.
Qed.

Lemma reachable_inv self0 self :
  cache_inv self0 → reachable self0 self → cache_inv self.
Proof.
  intros H0. induction 1 as [|self d P o self' _ IH Hc]; [done|].
  by eapply compute_preserves_inv.
Qed.

(** *** What an evaluation does to each state *)

Lemma compute_new_inl d P lasts self o self' :
  compute_new d P lasts self = (inl o, self') → o = Return 0 d ∨ ∃ e, o = Raise e.
Proof.
  unfold compute_new. intros Hc.
  repeat (case_match; simplify_eq; eauto).
Qed.

(** An evaluation that returns 1 or 2 leaves the point in a state that has
    every product and recency 1, above all the others. *)
Lemma compute_success d cached P self st d' self' :
  compute d cached P self = (Return st d', self') → st ≠ 0 →
  collectors self' = collectors self ∧
  ∃ i s, _states self' !! i = Some s ∧ params s = Some P ∧
    has_products self' s = true ∧ last s = 1 ∧
    (∀ j t, j ≠ i → _states self' !! j = Some t → last t ≤ 0) ∧
    (d = Some ∅ → d' = Some (default ∅ (derived s))).
Proof.
  intros Hc Hst.
  destruct (reusable_state cached P self) as [i|] eqn:Hr.
  - destruct (compute_hit d _ _ _ _ Hr) as (m & s & Hm & Hs & Hc').
    rewrite Hc in Hc'. injection Hc' as _ Hd ->. split; [done|].
    apply reusable_state_spec in Hr as (_ & (s0 & Hs0 & Hp & _)%find_state_spec & s1 & Hs1 & Hh).
    rewrite Hs in Hs0, Hs1. injection Hs0 as <-. injection Hs1 as <-.
    exists i, (with_last 1 s). repeat split; try done.
    + rewrite hit_state_lookup, Hs. simpl. by rewrite decide_True.
    + intros j t Hj Ht. pose proof (hit_state_lasts _ _ _ _ _ Hm Ht) as Hl.
      by rewrite decide_False in Hl.
    + intros ->. by rewrite decide_True in Hd.
  - destruct (compute_miss _ _ _ _ _ _ Hr Hc) as (r & self1 & Hn & Hres).
    destruct r as [o'|[i d0]].
    { destruct Hres as [<- ->].
      apply compute_new_inl in Hn as [?|[e ?]]; simplify_eq. }
    destruct Hres as (m & Hm & [= -> ->] & -> & Hl).
    pose proof (compute_new_spec _ _ _ _ _ Hn) as Hspec.
    destruct (oldest self) as [i0|] eqn:Ho; [|by destruct Hspec].
    destruct Hspec as [Hf Hidx]. destruct (Hidx _ _ eq_refl) as [-> Hder].
    pose proof Hf as (Hcs & _ & Hlen & _ & Hi). split; [done|].
    destruct (_states self !! i0) as [s0|] eqn:Hs0.
    2:{ apply oldest_lt_length in Ho. apply lookup_ge_None in Hs0. lia. }
    destruct (Hi s0 eq_refl) as (s1 & Hs1 & Hp & _ & Hfin).
    exists i0, (with_last 1 s1). repeat split; try done.
    + rewrite hit_state_lookup, Hs1. simpl. by rewrite decide_True.
    + apply has_products_spec. simpl. rewrite Hcs. by apply Hfin.
    + intros j t Hj Ht. rewrite <-Hl in Hm.
      pose proof (hit_state_lasts _ _ _ _ _ Hm Ht) as Hlast.
      by rewrite decide_False in Hlast.
    + intros Hd. destruct (Hder Hd) as (dd & -> & Hdd).
      simpl. by rewrite (Hdd _ Hs1).
Qed.

(** Whatever an evaluation returns or raises, each state keeps its content
    up to its recency, except that the oldest one may have been given the
    new point. *)
Lemma compute_slots d cached P self o self' :
  compute d cached P self = (o, self') →
  collectors self' = collectors self ∧
  length (_states self') = length (_states self) ∧
  ∀ j t', _states self' !! j = Some t' →
    ∃ t, _states self !! j = Some t ∧
      ((params t' = params t ∧ products t' = products t ∧ derived t' = derived t)
       ∨ (oldest self = Ok j ∧ params t' = Some P)).
Proof.
  intros Hc.
  destruct (reusable_state cached P self) as [i|] eqn:Hr.
  - destruct (compute_hit d _ _ _ _ Hr) as (m & s & Hm & Hs & Hc').
    rewrite Hc in Hc'. injection Hc' as _ ->.
    split; [done|]. split; [apply hit_state_length|].
    intros j t' (t & ? & ? & ? & ?)%hit_state_slot. eauto 10.
  - destruct (compute_miss _ _ _ _ _ _ Hr Hc) as (r & self1 & Hn & Hres).
    pose proof (compute_new_spec _ _ _ _ _ Hn) as Hspec.
    destruct (oldest self) as [i0|] eqn:Ho.
    2:{ destruct Hspec as [-> ->]. destruct Hres as [_ ->].
        repeat split; try done. intros j t' Ht'. eauto 10. }
    destruct Hspec as [(Hcs & _ & Hlen & Hsame & Hi) _].
    assert (∀ j t', _states self1 !! j = Some t' →
      ∃ t, _states self !! j = Some t ∧
        ((params t' = params t ∧ products t' = products t ∧ derived t' = derived t)
         ∨ (Ok i0 = Ok j ∧ params t' = Some P))) as H1.
    { intros j t' Ht'. destruct (decide (j = i0)) as [->|Hj].
      - destruct (_states self !! i0) as [s0|] eqn:Hs0.
        + destruct (Hi s0 eq_refl) as (s1 & Hs1 & Hp & _). simplify_eq. eauto 10.
        + apply lookup_ge_None in Hs0. rewrite <-Hlen in Hs0.
          apply lookup_ge_None in Hs0. congruence.
      - rewrite Hsame in Ht' by done. eauto 10. }
    destruct r as [o'|[i d0]].
    { destruct Hres as [_ ->]. done. }
    destruct Hres as (m & Hm & _ & -> & Hl).
    split; [done|]. split; [by rewrite hit_state_length|].
    intros j t' (t1 & Ht1 & Hp1 & Hpr1 & Hd1)%hit_state_slot.
    destruct (H1 _ _ Ht1) as (t & Ht & [(?&?&?)|[? ?]]); exists t; split; try done.
    + left. repeat split; congruence.
    + right. split; [done | congruence].
Qed.

(** With at least two states, the state that was just made current is not
    the oldest. *)
Lemma current_not_oldest self i s :
  (2 ≤ length (_states self))%nat →
  _states self !! i = Some s → last s = 1 →
  (∀ j t, j ≠ i → _states self !! j = Some t → last t ≤ 0) →
  oldest self ≠ Ok i.
Proof.
  intros Hlen Hs Hl Hothers (x & Hx & Hle & _)%oldest_spec.
  rewrite lasts_of_lookup, Hs in Hx. simplify_eq/=.
  destruct (decide (i = 0%nat)) as [->|Hi].
  - destruct (_states self !! 1%nat) as [t|] eqn:Ht.
    + specialize (Hothers 1%nat t ltac:(done) Ht).
      eapply Forall_lookup_1 in Hle; [|by rewrite lasts_of_lookup, Ht]. lia.
    + apply lookup_ge_None in Ht. lia.
  - destruct (_states self !! 0%nat) as [t|] eqn:Ht.
    + specialize (Hothers 0%nat t ltac:(done) Ht).
      eapply Forall_lookup_1 in Hle; [|by rewrite lasts_of_lookup, Ht]. lia.
    + apply lookup_ge_None in Ht. lia.
Qed.

(** *** Which results an evaluation stores *)

Lemma keys_rel_refl ks s : keys_rel ks s s.
Proof. split; auto. Qed.

Lemma keys_rel_trans ks s1 s2 s3 :
  keys_rel ks s1 s2 → keys_rel ks s2 s3 → keys_rel ks s1 s3.
Proof.
  intros [H1 H2] [H3 H4]. split; [auto|].
  intros k Hk. destruct (H4 k Hk) as [?|?]; auto.
Qed.

Lemma keep_keys_rel ks s s' : keep_rel s s' → keys_rel ks s s'.
Proof. intros (_ & _ & Hp). unfold keys_rel. rewrite Hp. auto. Qed.

Lemma keys_rel_mono ks ks' s s' : ks ⊆ ks' → keys_rel ks s s' → keys_rel ks' s s'.
Proof.
  intros Hsub [H1 H2]. split; [done|]. intros k Hk.
  destruct (H2 k Hk); auto.
Qed.

Lemma run_collectors_keys results i cs self exit self' :
  run_collectors results i cs self = (exit, self') →
  frame i (keys_rel (odict.keys cs)) self self'.
Proof.
  revert self. induction cs as [|[product [collector|]] cs IH]; intros self; simpl.
  - intros [= <- <-]. apply frame_refl, keys_rel_refl.
  - intros Hrun.
    assert (∀ r self1, frame i keep_rel self self1 →
      match r with
      | Ok v => run_collectors results i cs (store_product i product v self1)
      | Err e =>
          if is_CAMBError e
          then if stop_at_error self1 then (LoopRaise e, self1) else (LoopReturn0, self1)
          else (LoopRaise e, self1)
      end = (exit, self') →
      frame i (keys_rel (product :: odict.keys cs)) self self') as Hstep.
    { intros r self1 Hf1 Hr. destruct r as [v|e].
      - apply IH in Hr.
        eapply frame_trans; [apply keys_rel_trans| |].
        { eapply frame_weaken; [apply keep_keys_rel | exact Hf1]. }
        eapply frame_trans; [apply keys_rel_trans| |].
        2:{ eapply frame_weaken; [|exact Hr]. intros s s'.
            apply keys_rel_mono. intros k Hk. by right. }
        apply frame_update_state. intros s. split; simpl.
        + intros k Hk. apply odict_keys_put. by right.
        + intros k [->|Hk]%odict_keys_put; [right; left | by left].
      - assert (self' = self1) as ->.
        { repeat case_match; simplify_eq; done. }
        eapply frame_weaken; [apply keep_keys_rel | exact Hf1]. }
    destruct (method collector).
    + eapply (Hstep _ (count_call self)); [|exact Hrun].
      apply frame_fields; [apply keep_rel_refl|done..].
    + apply (Hstep (Ok (VData results)) self); [|exact Hrun].
      apply frame_refl, keep_rel_refl.
  - intros [= <- <-]. apply frame_refl, keys_rel_refl.
Qed.

Lemma set_keys P i ks self r self' :
  set P i self = (r, self') → frame i (keys_rel ks) self self'.
Proof.
  intros Hs. eapply frame_weaken; [|by eapply set_frame].
  intros s s' (_ & _ & Hp). unfold keys_rel. rewrite Hp. auto.
Qed.

Lemma compute_new_keys d P self r self' i :
  compute_new d P (lasts_of self) self = (r, self') → oldest self = Ok i →
  frame i (keys_rel (odict.keys (collectors self))) self self'.
Proof.
  unfold compute_new, oldest. intros Hc Ho. rewrite Ho in Hc.
  set (ks := odict.keys (collectors self)).
  destruct (set P i self) as [rs self1] eqn:Hset.
  pose proof (set_frame _ _ _ _ _ Hset) as (Hc1 & _).
  pose proof (set_keys _ _ ks _ _ _ Hset) as Hf1.
  destruct rs as [[camb_params|]|e]; simplify_eq; try done.
  destruct (match collectors self1 with [] => _ | _ => _ end) as [rr self2] eqn:Hres.
  assert (frame i keep_rel self1 self2) as Hf2.
  { destruct (collectors self1); simplify_eq.
    - apply frame_refl, keep_rel_refl.
    - apply frame_fields; [apply keep_rel_refl|done..]. }
  assert (frame i (keys_rel ks) self self2) as Hf12.
  { eapply frame_trans; [apply keys_rel_trans|exact Hf1|].
    eapply frame_weaken; [apply keep_keys_rel|exact Hf2]. }
  destruct rr as [results|e]; simplify_eq; try done.
  destruct (match results with Some _ => _ | None => _ end) as [exit self3] eqn:Hrun.
  assert (frame i (keys_rel ks) self2 self3) as Hf3.
  { destruct Hf2 as (Hc2 & _). unfold ks. rewrite <-Hc1, <-Hc2.
    destruct results as [dres|]; simplify_eq.
    - by eapply run_collectors_keys.
    - apply frame_refl, keys_rel_refl. }
  assert (frame i (keys_rel ks) self self3) as Hf13.
  { eapply frame_trans; [apply keys_rel_trans|exact Hf12|exact Hf3]. }
  destruct exit; simplify_eq; try done.
  destruct (prepare_derived d i camb_params results self3) as [rd self4] eqn:Hd.
  apply prepare_derived_frame in Hd.
  assert (frame i (keys_rel ks) self self4) as Hf4.
  { eapply frame_trans; [apply keys_rel_trans|exact Hf13|].
    eapply frame_weaken; [apply keep_keys_rel|exact Hd]. }
  destruct rd; by simplify_eq.
Qed.

(** An evaluation keeps every result that was stored and stores results of
    registered collectors only. *)
Lemma compute_keys d cached P self o self' :
  compute d cached P self = (o, self') →
  ∀ j t', _states self' !! j = Some t' →
    ∃ t, _states self !! j = Some t ∧ keys_rel (odict.keys (collectors self)) t t'.
Proof.
  intros Hc.
  destruct (reusable_state cached P self) as [i|] eqn:Hr.
  - destruct (compute_hit d _ _ _ _ Hr) as (m & s & Hm & Hs & Hc').
    rewrite Hc in Hc'. injection Hc' as _ ->.
    intros j t' (t & Ht & _ & Hp & _)%hit_state_slot. exists t. split; [done|].
    unfold keys_rel. rewrite Hp. auto.
  - destruct (compute_miss _ _ _ _ _ _ Hr Hc) as (r & self1 & Hn & Hres).
    pose proof (compute_new_spec _ _ _ _ _ Hn) as Hspec.
    destruct (oldest self) as [i0|] eqn:Ho.
    2:{ destruct Hspec as [-> ->]. destruct Hres as [_ ->].
        intros j t' Ht'. exists t'. split; [done | apply keys_rel_refl]. }
    pose proof (compute_new_keys _ _ _ _ _ _ Hn Ho) as (_ & _ & Hlen & Hsame & Hi).
    assert (∀ j t', _states self1 !! j = Some t' →
      ∃ t, _states self !! j = Some t ∧
           keys_rel (odict.keys (collectors self)) t t') as H1.
    { intros j t' Ht'. destruct (decide (j = i0)) as [->|Hj].
      - destruct (_states self !! i0) as [s0|] eqn:Hs0.
        + destruct (Hi s0 eq_refl) as (s1 & Hs1 & Hk). simplify_eq. eauto.
        + apply lookup_ge_None in Hs0. rewrite <-Hlen in Hs0.
          apply lookup_ge_None in Hs0. congruence.
      - rewrite Hsame in Ht' by done. exists t'. split; [done | apply keys_rel_refl]. }
    destruct r as [o'|[i d0]].
    { destruct Hres as [_ ->]. done. }
    destruct Hres as (m & Hm & _ & -> & Hl).
    intros j t' (t1 & Ht1 & _ & Hpr1 & _)%hit_state_slot.
    destruct (H1 _ _ Ht1) as (t & Ht & Hk). exists t. split; [done|].
    unfold keys_rel in *. by rewrite Hpr1.
Qed.

Lemma compute_registered d cached P self o self' :
  products_registered self → compute d cached P self = (o, self') →
  products_registered self'.
Proof.
  intros Hreg Hc j t' k Ht' Hk.
  destruct (compute_slots _ _ _ _ _ _ Hc) as (-> & _).
  destruct (compute_keys _ _ _ _ _ _ Hc _ _ Ht') as (t & Ht & _ & Hb).
  destruct (Hb k Hk); eauto.
Qed.

Lemma fresh_registered self : fresh_cache self → products_registered self.
Proof.
  intros Hf j t k Ht Hk. rewrite Hf in Ht.
  apply lookup_replicate in Ht as [-> _]. by apply elem_of_nil in Hk.
Qed.

Lemma reachable_registered self0 self :
  products_registered self0 → reachable self0 self → products_registered self.
Proof.
  intros H0. induction 1 as [|self d P o self' _ IH Hc]; [done|].
  by eapply compute_registered.
Qed.

Lemma reachable_length self0 self :
  reachable self0 self → length (_states self) = length (_states self0).
Proof.
  induction 1 as [|self d P o self' _ IH Hc]; [done|].
  destruct (compute_slots _ _ _ _ _ _ Hc) as (_ & -> & _). done.
Qed.

Lemma reachable_collectors self0 self :
  reachable self0 self → collectors self = collectors self0.
Proof.
  induction 1 as [|self d P o self' _ IH Hc]; [done|].
  destruct (compute_slots _ _ _ _ _ _ Hc) as (-> & _). done.
Qed.

(** *** Calls into the library *)

Lemma prepare_base_calls args self r self' :
  prepare_base args self = (r, self') →
  (camb_calls self ≤ camb_calls self')%nat ∧
  (is_Some (_base_params self) → is_Some (_base_params self') ∧ ∃ x, r = Ok x) ∧
  (_base_params self = None → (camb_calls self < camb_calls self')%nat).
Proof.
  unfold prepare_base. intros Hp.
  destruct (_base_params self) as [base|] eqn:Hb.
  - simplify_eq. rewrite Hb. split; [done|]. split; [|done].
    intros _. split; eauto.
  - assert ((S (camb_calls self) ≤ camb_calls self')%nat) as Hle.
    { repeat case_match; simplify_eq; simpl; lia. }
    split; [lia|]. split; [by intros [? ?] | intros _; lia].
Qed.

Lemma set_calls P i self r self' :
  set P i self = (r, self') → (camb_calls self < camb_calls self')%nat.
Proof.
  unfold set, set_try. intros Hs.
  destruct (prepare_base _ _) as [r1 self1] eqn:Hp.
  apply prepare_base_calls in Hp as (Hle & Hsome & Hnone). simpl in *.
  destruct (_base_params self) as [base|] eqn:Hb.
  - destruct Hsome as (_ & x & ->); [by eauto|]. destruct x as [a b].
    assert (self' = count_call (update_state i (with_set_args (Some a)) self1)) as ->.
    { repeat case_match; simplify_eq; done. }
    simpl. lia.
  - specialize (Hnone eq_refl).
    assert ((camb_calls self1 ≤ camb_calls self')%nat); [|lia].
    repeat case_match; simplify_eq; simpl; lia.
Qed.

Lemma run_collectors_calls results i cs self exit self' :
  run_collectors results i cs self = (exit, self') →
  (camb_calls self ≤ camb_calls self')%nat.
Proof.
  revert self. induction cs as [|[product [collector|]] cs IH]; intros self; simpl.
  - by intros [= <- <-].
  - intros Hrun. destruct (method collector).
    + destruct (call_method _ _ _ _).
      * apply IH in Hrun. simpl in Hrun. lia.
      * repeat case_match; simplify_eq; simpl; lia.
    + apply IH in Hrun. simpl in Hrun. lia.
  - by intros [= <- <-].
Qed.

Lemma prepare_derived_calls d i camb_params results self r self' :
  prepare_derived d i camb_params results self = (r, self') →
  camb_calls self' = camb_calls self.
Proof.
  unfold prepare_derived. intros Hp. repeat case_match; simplify_eq; done.
Qed.

Lemma compute_new_calls d P self r self' i :
  compute_new d P (lasts_of self) self = (r, self') → oldest self = Ok i →
  (camb_calls self < camb_calls self')%nat.
Proof.
  unfold compute_new, oldest. intros Hc Ho. rewrite Ho in Hc.
  destruct (set P i self) as [rs self1] eqn:Hset.
  apply set_calls in Hset.
  destruct rs as [[camb_params|]|e]; simplify_eq; try done.
  destruct (match collectors self1 with [] => _ | _ => _ end) as [rr self2] eqn:Hres.
  assert ((camb_calls self1 ≤ camb_calls self2)%nat).
  { destruct (collectors self1); simplify_eq; simpl; lia. }
  destruct rr as [results|e]; simplify_eq; [|lia].
  destruct (match results with Some _ => _ | None => _ end) as [exit self3] eqn:Hrun.
  assert ((camb_calls self2 ≤ camb_calls self3)%nat).
  { destruct results; simplify_eq; [by eapply run_collectors_calls | done]. }
  destruct exit; simplify_eq; try lia.
  destruct (prepare_derived d i camb_params results self3) as [rd self4] eqn:Hd.
  apply prepare_derived_calls in Hd. destruct rd; simplify_eq; lia.
Qed.

(** An evaluation that finds no reusable state calls into the library. *)
Lemma compute_miss_calls d cached P self o self' :
  _states self ≠ [] → reusable_state cached P self = None →
  compute d cached P self = (o, self') →
  (camb_calls self < camb_calls self')%nat.
Proof.
  intros Hne Hr Hc.
  destruct (compute_miss _ _ _ _ _ _ Hr Hc) as (r & self1 & Hn & Hres).
  destruct (oldest_is_Ok _ Hne) as [i Ho].
  pose proof (compute_new_calls _ _ _ _ _ _ Hn Ho).
  destruct r as [o'|[j d0]].
  - by destruct Hres as [_ ->].
  - destruct Hres as (m & _ & _ & -> & _). done.
Qed.

(** *** Declaring requirements leaves the cache alone *)

Lemma foldl_set_collector_states {A} (f : A → ckey F) (g : A → option (Collector F))
    (l : list A) self :
  _states (foldl (λ self a, set_collector (f a) (g a) self) self l) = _states self.
Proof. revert self. induction l as [|a l IH]; intros self; simpl; [done|]. by rewrite IH. Qed.

Lemma pair_collectors_states kw nonlinear pairs self :
  _states (pair_collectors kw nonlinear pairs self) = _states self.
Proof. unfold pair_collectors. apply foldl_set_collector_states. Qed.

Lemma add_to_redshifts_states z self self' :
  add_to_redshifts z self = Ok self' → _states self' = _states self.
Proof. unfold add_to_redshifts. intros H. ok_bind H. by simplify_eq. Qed.

Lemma needs_Cl_states k v self self' :
  needs_Cl k v self = Ok self' → _states self' = _states self.
Proof. unfold needs_Cl. intros H. ok_bind H. by simplify_eq. Qed.

Lemma needs_background_states k m v self self' :
  needs_background k m v self = Ok self' → _states self' = _states self.
Proof. unfold needs_background. intros H. ok_bind H. by simplify_eq. Qed.

Lemma needs_H_states k v self self' :
  needs_H k v self = Ok self' → _states self' = _states self.
Proof.
  unfold needs_H. intros H. ok_bind H. apply needs_background_states in E.
  by simplify_eq.
Qed.

Lemma needs_fsigma8_states k v self self' :
  needs_fsigma8 k v self = Ok self' → _states self' = _states self.
Proof.
  unfold needs_fsigma8. intros H. ok_bind H. apply add_to_redshifts_states in E0.
  by simplify_eq.
Qed.

Lemma needs_Pk_states k v self self' :
  needs_Pk k v self = Ok self' → _states self' = _states self.
Proof.
  unfold needs_Pk. intros H. ok_bind H. apply add_to_redshifts_states in E2.
  simpl in E2. destruct (_ || _); [done|]. ok_bind H.
  simplify_eq. simpl. rewrite pair_collectors_states.
  by destruct (from_option truthy true _).
Qed.

Lemma needs_source_Cl_states k v self self' :
  needs_source_Cl k v self = Ok self' → _states self' = _states self.
Proof.
  unfold needs_source_Cl. intros H. ok_bind H.
  assert (_states a3 = _states self) as Ha3.
  { destruct (_ !! "lmax"); [|by simplify_eq]. ok_bind E3. by simplify_eq. }
  by simplify_eq.
Qed.

Lemma needs_derived_states k self self' :
  needs_derived k self = Ok self' → _states self' = _states self.
Proof.
  unfold needs_derived. intros H.
  destruct (bool_decide _), (decide _); by simplify_eq.
Qed.

Lemma needs_one_states k v self self' :
  needs_one k v self = Ok self' → _states self' = _states self.
Proof.
  unfold needs_one. intros H.
  repeat case_decide;
    eauto using needs_Cl_states, needs_H_states, needs_background_states,
      needs_fsigma8_states, needs_Pk_states, needs_source_Cl_states.
  - by simplify_eq.
  - destruct v; [done|]. by eapply needs_derived_states.
Qed.
Lemma needs_loop_states items self self' :
  needs_loop items self = Ok self' → _states self' = _states self.
Proof.
  revert self. induction items as [|[k v] items IH]; intros self; simpl.
  - by intros [= <-].
  - destruct (needs_one k v self) as [self1|] eqn:H1; simpl; [|done].
    intros H2. apply IH in H2. apply needs_one_states in H1. congruence.
Qed.

Lemma needs_states reqs self self' :
  needs reqs self = Ok self' → _states self' = _states self.
Proof.
  unfold needs, needs_finish. intros H. ok_bind H.
  apply needs_loop_states in E0. simpl in E0.
  destruct (decide _); [done|]. ok_bind H. simplify_eq. simpl.
  by destruct (negb _).
Qed.

(** *** A new point in the cache *)

(** An evaluation that returns 2 wrote the oldest state and made it
    current. *)
Lemma compute_fresh_point d cached P self d' self' :
  compute d cached P self = (Return 2 d', self') →
  ∃ i m, oldest self = Ok i ∧ py_max (lasts_of self) = Ok m ∧
    reusable_state cached P self = None ∧
    lasts_of self' = <[i := 1]> ((λ x, x - m) <$> lasts_of self) ∧
    params <$> _states self' = <[i := Some P]> (params <$> _states self) ∧
    ∀ s s', _states self !! i = Some s → _states self' !! i = Some s' →
      keys_rel (odict.keys (collectors self)) s s'.
Proof.
  intros Hc.
  destruct (reusable_state cached P self) as [i|] eqn:Hr.
  { destruct (compute_hit d _ _ _ _ Hr) as (m & s & Hm & Hs & Hc').
    rewrite Hc in Hc'. done. }
  destruct (compute_miss _ _ _ _ _ _ Hr Hc) as (r & self1 & Hn & Hres).
  destruct r as [o'|[i d0]].
  { destruct Hres as [<- ->]. apply compute_new_inl in Hn as [?|[e ?]]; simplify_eq. }
  destruct Hres as (m & Hm & _ & -> & Hl).
  pose proof (compute_new_spec _ _ _ _ _ Hn) as Hspec.
  destruct (oldest self) as [i0|] eqn:Ho; [|by destruct Hspec].
  destruct Hspec as [Hf Hidx]. destruct (Hidx _ _ eq_refl) as [-> _].
  pose proof (compute_new_keys _ _ _ _ _ _ Hn Ho) as (_ & _ & _ & _ & Hk).
  destruct Hf as (_ & _ & Hlen & Hsame & Hi).
  pose proof (oldest_lt_length _ _ Ho) as Hlt.
  exists i0, m. do 3 (split; [done|]). split; [|split].
  - apply list_eq. intros j. rewrite lasts_of_lookup, hit_state_lookup.
    rewrite list_lookup_insert, length_fmap, list_lookup_fmap.
    assert (length (lasts_of self) = length (_states self1)) as ->.
    { unfold lasts_of. by rewrite length_fmap. }
    rewrite <-Hl, lasts_of_lookup.
    destruct (decide (j = i0)) as [->|Hj].
    + rewrite decide_True by (split; [done | lia]).
      destruct (_states self1 !! i0) eqn:E; [done|].
      apply lookup_ge_None in E. lia.
    + rewrite decide_False by (intros [? ?]; done).
      by destruct (_states self1 !! j).
  - apply list_eq. intros j. rewrite list_lookup_fmap, hit_state_lookup.
    rewrite list_lookup_insert, length_fmap, list_lookup_fmap.
    destruct (decide (j = i0)) as [->|Hj].
    + rewrite decide_True by (split; [done | lia]).
      destruct (_states self !! i0) as [s0|] eqn:E.
      * destruct (Hi s0 eq_refl) as (s1 & -> & Hp & _). simpl. by f_equal.
      * apply lookup_ge_None in E. lia.
    + rewrite decide_False by (intros [? ?]; done).
      rewrite Hsame by done. by destruct (_states self !! j).
  - intros s s' Hs. rewrite hit_state_lookup.
    destruct (Hk s Hs) as (s1 & -> & Hk1). simpl. rewrite decide_True by done.
    intros [= <-]. done.
Qed.

(** A hit needs the product of every registered collector. *)
Lemma hit_only_if_all_products d cached P self d' self' :
  compute d cached P self = (Return 1 d', self') →
  ∃ i s, find_state P self = Some i ∧ _states self !! i = Some s ∧
    ∀ k, k ∈ odict.keys (collectors self) → k ∈ odict.keys (products s).
Proof.
  intros Hc.
  destruct (reusable_state cached P self) as [i|] eqn:Hr.
  - apply reusable_state_spec in Hr as (_ & Hf & s & Hs & Hh).
    exists i, s. repeat split; try done. by apply has_products_spec.
  - destruct (compute_miss _ _ _ _ _ _ Hr Hc) as (r & self1 & Hn & Hres).
    destruct r as [o'|[i d0]].
    + destruct Hres as [<- ->]. apply compute_new_inl in Hn as [?|[e ?]]; simplify_eq.
    + by destruct Hres as (m & _ & ? & _).
Qed.

Lemma miss_never_returns_1 d cached P self o self' :
  reusable_state cached P self = None → compute d cached P self = (o, self') →
  ∀ d', o ≠ Return 1 d'.
Proof.
  intros Hr Hc d' ->.
  destruct (compute_miss _ _ _ _ _ _ Hr Hc) as (r & self1 & Hn & Hres).
  destruct r as [o'|[i d0]].
  - destruct Hres as [<- ->]. apply compute_new_inl in Hn as [?|[e ?]]; simplify_eq.
  - by destruct Hres as (m & _ & ? & _).
Qed.

End cache_facts.

(** ** The cache driver: the claims *)

Section cache_claims.
Context {F : Type} `{!Num F} `{!CAMB F}.
Implicit Types (self : theory) (s : slot) (P A B C D : gmap string F).

Lemma unique_params_lookup self i j P :
  unique_params self →
  (params <$> _states self) !! i = Some (Some P) →
  (params <$> _states self) !! j = Some (Some P) → i = j.
Proof.
  intros Hu. rewrite !list_lookup_fmap.
  destruct (_states self !! i) as [s|] eqn:Hs; [|done].
  destruct (_states self !! j) as [t|] eqn:Ht; [|done].
  simpl. intros [= Hps] [= Hpt]. by apply (Hu i j s t P).
Qed.

Lemma fresh_cache_length self : fresh_cache self → length (_states self) = _n_states.
Proof. intros ->. by rewrite length_replicate. Qed.

(** C5, as amended: in every object reached from a freshly initialised cache
    by evaluations that all run with caching on (whatever they return or
    raise, zero results included) and under a fixed set of collectors, no two
    states hold the same parameter point. *)
Theorem cached_params_unique self0 self :
  fresh_cache self0 → reachable self0 self → unique_params self.
Proof.
  intros Hfresh Hreach.
  apply (reachable_inv self0 self); [by apply fresh_cache_inv | done].
Qed.

(** C3: with the three states of [initialize] and the collectors fixed,
    evaluate [A] (with its derived parameters asked for, and not rejected),
    then a different point [B] (any way, with any result), then [A] again
    with caching on.  The third call returns 1, hands back the derived
    parameters of the first call and makes no call into the library. *)
Theorem hit_after_A_B_A self0 self A B d2 c2 st1 d1' self1 o2 self2 :
  fresh_cache self0 → reachable self0 self → A ≠ B →
  compute (Some ∅) true A self = (Return st1 d1', self1) → st1 ≠ 0 →
  compute d2 c2 B self1 = (o2, self2) →
  ∃ self3, compute (Some ∅) true A self2 = (Return 1 d1', self3) ∧
           camb_calls self3 = camb_calls self2.
Proof.
  intros Hfresh Hreach HAB H1 Hst H2.
  pose proof (reachable_inv _ _ (fresh_cache_inv _ Hfresh) Hreach) as Hinv.
  pose proof (compute_preserves_inv _ _ _ _ _ Hinv H1) as [Hu1 _].
  assert (length (_states self) = 3%nat) as Hlen.
  { rewrite (reachable_length _ _ Hreach). by apply fresh_cache_length. }
  destruct (compute_slots _ _ _ _ _ _ H1) as (_ & Hlen1 & _).
  destruct (compute_success _ _ _ _ _ _ _ H1 Hst)
    as (Hcs1 & iA & sA & HsA & HpA & HhA & HlA & Hoth & Hd).
  destruct (compute_slots _ _ _ _ _ _ H2) as (Hcs2 & Hlen2 & Hsl).
  assert (oldest self1 ≠ Ok iA) as Hold.
  { eapply current_not_oldest; eauto. lia. }
  assert (iA < length (_states self2))%nat as HiA.
  { rewrite Hlen2. by eapply lookup_lt_Some. }
  destruct (lookup_lt_is_Some_2 _ _ HiA) as [tA HtA].
  destruct (Hsl _ _ HtA) as (t & Ht & [(Hp & Hpr & Hde)|[Ho _]]); [|done].
  assert (t = sA) as -> by congruence.
  assert (find_state A self2 = Some iA) as Hfind.
  { apply find_state_spec. exists tA. split; [done|]. split; [congruence|].
    intros j t' Hj Ht' Hpt'.
    destruct (Hsl _ _ Ht') as (t0 & Ht0 & [(Hp0 & _)|[_ Hp0]]); [|congruence].
    assert (j = iA); [|lia].
    apply (Hu1 j iA t0 sA A); congruence. }
  assert (reusable_state true A self2 = Some iA) as Hr.
  { apply reusable_state_spec. split; [done|]. split; [done|].
    exists tA. split; [done|]. unfold has_products in *. by rewrite Hcs2, Hpr. }
  destruct (compute_hit (Some ∅) _ _ _ _ Hr) as (m & s & Hm & Hs & Hc).
  exists (hit_state m iA self2). split; [|done].
  rewrite Hc, decide_True by done.
  assert (s = tA) as -> by congruence.
  by rewrite Hde, (Hd eq_refl).
Qed.

(** C6: evaluate [A], declare requirements that register a collector key
    which was not registered before, and evaluate [A] again with caching on.
    The second evaluation finds no reusable state: it does not return 1 and
    it calls into the library again.  (A state whose parameters equal the
    query is reused only if it holds a result for every registered key:
    [hit_only_if_all_products].) *)
Theorem new_requirement_forces_miss self0 self A d1 o1 self1 reqs self2 K d2 o2 self3 :
  fresh_cache self0 → reachable self0 self →
  compute d1 true A self = (o1, self1) →
  needs reqs self1 = Ok self2 →
  K ∈ odict.keys (collectors self2) → K ∉ odict.keys (collectors self1) →
  compute d2 true A self2 = (o2, self3) →
  reusable_state true A self2 = None ∧ (∀ d', o2 ≠ Return 1 d') ∧
  (camb_calls self2 < camb_calls self3)%nat.
Proof.
  intros Hfresh Hreach H1 Hneeds HK HnK H2.
  assert (products_registered self1) as Hreg.
  { eapply compute_registered; [|exact H1].
    eapply reachable_registered; [|exact Hreach]. by apply fresh_registered. }
  pose proof (needs_states _ _ _ Hneeds) as Hst.
  assert (reusable_state true A self2 = None) as Hr.
  { destruct (reusable_state true A self2) as [i|] eqn:Hr; [|done]. exfalso.
    apply reusable_state_spec in Hr as (_ & _ & s & Hs & Hh).
    rewrite has_products_spec in Hh. rewrite Hst in Hs.
    apply HnK. eapply Hreg; [exact Hs|]. by apply Hh. }
  split; [done|]. split; [by eapply miss_never_returns_1|].
  eapply compute_miss_calls; [|exact Hr|exact H2].
  rewrite Hst. destruct (compute_slots _ _ _ _ _ _ H1) as (_ & Hlen & _).
  rewrite (reachable_length _ _ Hreach), (fresh_cache_length _ Hfresh) in Hlen.
  by destruct (_states self1).
Qed.

(** C4, as amended: start from the three empty states of [initialize] and
    evaluate four points, each computed anew (status 2).  The fourth goes to
    the state of lowest recency, first index among equals, which is the one
    that holds the first point; the results that state held are not cleared
    when it is taken, they stay until the collectors overwrite them; and an
    evaluation of the first point afterwards finds no reusable state, does
    not return 1 and calls into the library again. *)
Theorem fourth_point_evicts_first self0 A B C D dA dB dC dD dA' dB' dC' dD'
    self1 self2 self3 self4 :
  fresh_cache self0 → A ≠ B → A ≠ C → A ≠ D →
  compute dA true A self0 = (Return 2 dA', self1) →
  compute dB true B self1 = (Return 2 dB', self2) →
  compute dC true C self2 = (Return 2 dC', self3) →
  compute dD true D self3 = (Return 2 dD', self4) →
  params <$> _states self3 = [Some A; Some B; Some C] ∧
  lasts_of self3 = [-1; 0; 1] ∧
  oldest self3 = Ok 0%nat ∧
  params <$> _states self4 = [Some D; Some B; Some C] ∧
  (∀ s3 s4 k, _states self3 !! 0%nat = Some s3 → _states self4 !! 0%nat = Some s4 →
     k ∈ odict.keys (products s3) → k ∈ odict.keys (products s4)) ∧
  (∀ d o self5, compute d true A self4 = (o, self5) →
     reusable_state true A self4 = None ∧ (∀ x, o ≠ Return 1 x) ∧
     (camb_calls self4 < camb_calls self5)%nat).
Proof.
  intros Hfresh HAB HAC HAD H1 H2 H3 H4.
  assert (lasts_of self0 = [0; 0; 0]) as Hl0.
  { unfold lasts_of. by rewrite Hfresh. }
  assert (params <$> _states self0 = [None; None; None]) as Hp0.
  { by rewrite Hfresh. }
  destruct (compute_fresh_point _ _ _ _ _ _ H1) as (i1 & m1 & Ho1 & Hm1 & _ & Hl1 & Hp1 & _).
  unfold oldest in Ho1. rewrite Hl0 in Ho1, Hm1, Hl1. rewrite Hp0 in Hp1.
  vm_compute in Ho1, Hm1. injection Ho1 as <-. injection Hm1 as <-.
  simpl in Hl1, Hp1.
  destruct (compute_fresh_point _ _ _ _ _ _ H2) as (i2 & m2 & Ho2 & Hm2 & _ & Hl2 & Hp2 & _).
  unfold oldest in Ho2. rewrite Hl1 in Ho2, Hm2, Hl2. rewrite Hp1 in Hp2.
  vm_compute in Ho2, Hm2. injection Ho2 as <-. injection Hm2 as <-.
  simpl in Hl2, Hp2.
  destruct (compute_fresh_point _ _ _ _ _ _ H3) as (i3 & m3 & Ho3 & Hm3 & _ & Hl3 & Hp3 & _).
  unfold oldest in Ho3. rewrite Hl2 in Ho3, Hm3, Hl3. rewrite Hp2 in Hp3.
  vm_compute in Ho3, Hm3. injection Ho3 as <-. injection Hm3 as <-.
  simpl in Hl3, Hp3.
  destruct (compute_fresh_point _ _ _ _ _ _ H4) as (i4 & m4 & Ho4 & Hm4 & _ & Hl4 & Hp4 & Hk4).
  pose proof Ho4 as Ho4'.
  unfold oldest in Ho4. rewrite Hl3 in Ho4, Hm4, Hl4. rewrite Hp3 in Hp4.
  vm_compute in Ho4, Hm4. injection Ho4 as <-. injection Hm4 as <-.
  simpl in Hl4, Hp4.
  do 4 (split; [done|]). split.
  - intros s3 s4 k Hs3 Hs4. by apply (Hk4 s3 s4).
  - intros d o self5 H5.
    assert (reusable_state true A self4 = None) as Hr.
    { destruct (reusable_state true A self4) as [i|] eqn:Hr; [|done]. exfalso.
      apply reusable_state_spec in Hr as (_ & (s & Hs & Hps & _)%find_state_spec & _).
      assert ((params <$> _states self4) !! i = Some (Some A)) as Hi.
      { by rewrite list_lookup_fmap, Hs, <-Hps. }
      rewrite Hp4 in Hi.
      destruct i as [|[|[|i]]]; simpl in Hi; try congruence.
      by rewrite lookup_nil in Hi. }
    split; [done|]. split; [by eapply miss_never_returns_1|].
    eapply compute_miss_calls; [|exact Hr|exact H5].
    intros Hnil. by rewrite Hnil in Hp4.
Qed.

End cache_claims.

(** ** Sorted arrays *)

Section numpy_facts.
Context {F : Type} `{!Num F}.
Implicit Types (a l : list F) (x y : F).

Lemma np_sort_Permutation a : np_sort a ≡ₚ a.
Proof. apply merge_sort_Permutation. Qed.

Lemma np_sort_ascending a : StronglySorted fle (np_sort a).
Proof. apply (StronglySorted_merge_sort _). Qed.

Lemma np_sort_elem a x : x ∈ np_sort a ↔ x ∈ a.
Proof. by rewrite np_sort_Permutation. Qed.

Lemma np_unique_NoDup a : NoDup (np_unique a).
Proof.
  unfold np_unique. rewrite merge_sort_Permutation. apply NoDup_remove_dups.
Qed.

Lemma np_unique_elem a x : x ∈ np_unique a ↔ x ∈ a.
Proof.
  unfold np_unique. by rewrite merge_sort_Permutation, elem_of_remove_dups.
Qed.

Lemma ascending_NoDup_strict l :
  StronglySorted fle l → NoDup l → StronglySorted flt l.
Proof.
  induction 1 as [|x l Hs IH Hall]; intros Hnd; [constructor|].
  apply list.NoDup_cons in Hnd as [Hx Hnd]. constructor; [by apply IH|].
  apply list.Forall_forall. intros y Hy. split.
  - by apply (proj1 (list.Forall_forall _ _) Hall).
  - intros ->. done.
Qed.

Lemma StronglySorted_reverse {A} (R : relation A) (l : list A) :
  StronglySorted R l → StronglySorted (flip R) (reverse l).
Proof.
  induction 1 as [|x l Hs IH Hall]; [constructor|].
  rewrite reverse_cons. apply StronglySorted_app_2.
  - intros x1 x2 Hx1 ->%list_elem_of_singleton. rewrite elem_of_reverse in Hx1.
    unfold flip. by apply (proj1 (list.Forall_forall _ _) Hall).
  - done.
  - repeat constructor.
Qed.

(** [np.sort(np.unique(a))[::-1]]: strictly descending, with the elements of
    [a]. *)
Lemma sort_unique_reversed_descending a :
  StronglySorted (flip flt) (reverse (np_sort (np_unique a))).
Proof.
  apply StronglySorted_reverse, ascending_NoDup_strict.
  - apply np_sort_ascending.
  - rewrite np_sort_Permutation. apply np_unique_NoDup.
Qed.

Lemma sort_unique_reversed_elem a x :
  x ∈ reverse (np_sort (np_unique a)) ↔ x ∈ a.
Proof. by rewrite elem_of_reverse, np_sort_elem, np_unique_elem. Qed.

End numpy_facts.

(** ** The redshift lists of [needs] *)

Section redshift_facts.
Context {F : Type} `{!Num F} `{!CAMB F}.
Implicit Types (self : theory) (v : option (gmap string (rfield F))).

Lemma add_to_redshifts_spec z self self' :
  add_to_redshifts z self = Ok self' →
  ∃ new, np_atleast_1d z = Ok new ∧
    collectors self' = collectors self ∧
    ∃ l, extra_args self' !! "redshifts" = Some (PArr l) ∧
      StronglySorted (flip flt) l ∧
      ∀ x, x ∈ l ↔ x ∈ new ∨ x ∈ solver_redshifts self.
Proof.
  unfold add_to_redshifts. intros H. ok_bind H. injection H as <-.
  exists a. split; [done|]. split; [done|].
  eexists. split; [apply lookup_insert_eq|].
  split; [apply sort_unique_reversed_descending|].
  intros x. rewrite sort_unique_reversed_elem, elem_of_app.
  unfold solver_redshifts.
  destruct (extra_args self !! "redshifts") as [[]|]; simplify_eq/=; done.
Qed.

Lemma foldl_set_collector_extra_args {A} (f : A → ckey F)
    (g : A → option (Collector F)) (l : list A) self :
  extra_args (foldl (λ self a, set_collector (f a) (g a) self) self l)
  = extra_args self.
Proof. revert self. induction l as [|a l IH]; intros self; simpl; [done|]. by rewrite IH. Qed.

Lemma pair_collectors_extra_args kw nl pairs self :
  extra_args (pair_collectors kw nl pairs self) = extra_args self.
Proof. unfold pair_collectors. apply foldl_set_collector_extra_args. Qed.

Lemma needs_fsigma8_redshifts k v self self' :
  needs_fsigma8 k v self = Ok self' →
  ∃ new, declared_z v = Ok new ∧
    ∃ l, extra_args self' !! "redshifts" = Some (PArr l) ∧
      StronglySorted (flip flt) l ∧
      ∀ x, x ∈ l ↔ x ∈ new ∨ x ∈ solver_redshifts self.
Proof.
  unfold needs_fsigma8, declared_z. intros H.
  destruct (req_get v "z") as [f|] eqn:Ef; simpl in *; [|done].
  destruct (as_pyval f) as [z|] eqn:Ez; simpl in *; [|done].
  destruct (add_to_redshifts z self) as [s1|] eqn:Ea; simpl in *; [|done].
  destruct (add_to_redshifts_spec _ _ _ Ea) as (new & Hnew & _ & l & Hl & Hs & Hx).
  injection H as <-. exists new. split; [done|]. by exists l.
Qed.

Lemma needs_Pk_redshifts k v self self' :
  needs_Pk k v self = Ok self' →
  ∃ new, declared_z v = Ok new ∧
    ∃ l, extra_args self' !! "redshifts" = Some (PArr l) ∧
      StronglySorted (flip flt) l ∧
      ∀ x, x ∈ l ↔ x ∈ new ∨ x ∈ solver_redshifts self.
Proof.
  unfold needs_Pk, declared_z. intros H.
  destruct (req_get v "z") as [f|] eqn:Ef; simpl in *; [|by ok_bind H].
  destruct (as_pyval f) as [z|] eqn:Ez; simpl in *; [|by ok_bind H].
  ok_bind H.
  match goal with
  | E : add_to_redshifts _ _ = Ok _ |- _ =>
      destruct (add_to_redshifts_spec _ _ _ E) as (new & Hnew & _ & l & Hl & Hs & Hx)
  end.
  exists new. split; [done|]. exists l. split; [|split; [done|]].
  - destruct (_ || _); [done|]. ok_bind H. simplify_eq/=.
    rewrite pair_collectors_extra_args.
    by destruct (from_option truthy true _).
  - intros x. rewrite Hx. unfold solver_redshifts, set_extra_arg.
    simpl. by rewrite lookup_insert_ne.
Qed.

Lemma _combine_z_spec self k v l :
  _combine_z self k v = Ok l →
  (odict.get (KStr k) (collectors self) = None ∨
   odict.get (KStr k) (collectors self) = Some None) ∧
  ∃ new, declared_z v = Ok new ∧ l = np_sort new.
Proof.
  unfold _combine_z, declared_z. intros H.
  destruct (odict.get _ _) as [[c|]|].
  - ok_bind H. by unfold np_concatenate_misused in *.
  - split; [by right|]. ok_bind H. simpl. rewrite E0. simpl. rewrite E1.
    simplify_eq. by eexists.
  - split; [by left|]. ok_bind H. simpl. rewrite E0. simpl. rewrite E1.
    simplify_eq. by eexists.
Qed.

(** Once quantity [k] has a collector, [_combine_z] raises whatever the
    requirement holds. *)
Lemma _combine_z_registered self k v c :
  odict.get (KStr k) (collectors self) = Some (Some c) →
  res_is_ok (_combine_z self k v) = false.
Proof.
  intros Hc. destruct (_combine_z self k v) as [l|] eqn:E; [|done].
  destruct (_combine_z_spec _ _ _ _ E) as [[H1|H1] _]; congruence.
Qed.

Lemma needs_background_z k m v self self' :
  needs_background k m v self = Ok self' →
  extra_args self' = extra_args self ∧
  (odict.get (KStr k) (collectors self) = None ∨
   odict.get (KStr k) (collectors self) = Some None) ∧
  ∃ new, declared_z v = Ok new ∧ collector_z self' k = Some (np_sort new).
Proof.
  unfold needs_background. intros H. ok_bind H. simplify_eq.
  destruct (_combine_z_spec _ _ _ _ E) as (Hc & new & Hnew & ->).
  split; [done|]. split; [done|]. exists new. split; [done|].
  unfold collector_z, set_collector. simpl. by rewrite odict_get_put_eq.
Qed.

Lemma needs_H_z k v self self' :
  needs_H k v self = Ok self' →
  extra_args self' = extra_args self ∧
  (odict.get (KStr k) (collectors self) = None ∨
   odict.get (KStr k) (collectors self) = Some None) ∧
  ∃ new, declared_z v = Ok new ∧ collector_z self' k = Some (np_sort new).
Proof.
  unfold needs_H. intros H. ok_bind H. injection H as <-.
  by apply needs_background_z in E.
Qed.

Lemma needs_one_background k v self :
  background_quantity k →
  needs_one k v self = needs_H k v self ∨
  ∃ m, needs_one k v self = needs_background k m v self.
Proof.
  unfold needs_one. intros [-> | [-> | ->]].
  - by left.
  - right. by eexists.
  - right. by eexists.
Qed.

Lemma needs_one_transfer k v self :
  transfer_quantity k →
  needs_one k v self = needs_fsigma8 k v self ∨
  needs_one k v self = needs_Pk k v self.
Proof. unfold needs_one. intros [-> | [-> | ->]]; [by left|by right..]. Qed.

(** Once a background quantity has gone through the loop of [needs], the loop
    raises on it whatever the requirement then holds. *)
Lemma redeclared_background_raises k v v' self self' :
  background_quantity k →
  needs_one k v self = Ok self' →
  res_is_ok (needs_one k v' self') = false.
Proof.
  intros Hk H.
  assert (∃ c, odict.get (KStr k) (collectors self') = Some (Some c)) as [c Hc].
  { destruct (needs_one_background k v self Hk) as [E|[m E]]; rewrite E in H.
    - apply needs_H_z in H as (_ & _ & new & _ & Hz). unfold collector_z in Hz.
      destruct (odict.get _ _) as [[c|]|]; [by eexists|done..].
    - apply needs_background_z in H as (_ & _ & new & _ & Hz). unfold collector_z in Hz.
      destruct (odict.get _ _) as [[c|]|]; [by eexists|done..]. }
  pose proof (_combine_z_registered self' k v' c Hc) as Hz.
  destruct (needs_one_background k v' self' Hk) as [E|[m E]]; rewrite E.
  - unfold needs_H, needs_background. by destruct (_combine_z self' k v').
  - unfold needs_background. by destruct (_combine_z self' k v').
Qed.

End redshift_facts.

Section registry_claims.
Context {F : Type} `{!Num F} `{!CAMB F}.
Implicit Types (self : theory) (v : option (gmap string (rfield F))).

(** C8, as amended: one requirement going through the loop of [needs].  For
    [fsigma8], [Pk_interpolator] and [matter_power_spectrum] the list kept
    for the library becomes strictly descending, without duplicates, and
    holds the declared redshifts together with those it held.  For [H] and
    the two distances the declared redshifts do not reach that list: they
    go, sorted ascending and with their duplicates, into the collector of
    the quantity. *)
Theorem redshift_lists_of_requirement k v self self' :
  needs_one k v self = Ok self' →
  (transfer_quantity k →
   ∃ new l, declared_z v = Ok new ∧
     extra_args self' !! "redshifts" = Some (PArr l) ∧
     StronglySorted (flip flt) l ∧
     ∀ x, x ∈ l ↔ x ∈ new ∨ x ∈ solver_redshifts self) ∧
  (background_quantity k →
   extra_args self' = extra_args self ∧
   ∃ new, declared_z v = Ok new ∧
     collector_z self' k = Some (np_sort new) ∧
     StronglySorted fle (np_sort new) ∧ np_sort new ≡ₚ new).
Proof.
  intros H. split.
  - intros Hk.
    assert (∃ new, declared_z v = Ok new ∧
              ∃ l, extra_args self' !! "redshifts" = Some (PArr l) ∧
                StronglySorted (flip flt) l ∧
                ∀ x, x ∈ l ↔ x ∈ new ∨ x ∈ solver_redshifts self)
      as (new & Hnew & l & Hl); [|by exists new, l].
    destruct (needs_one_transfer k v self Hk) as [E|E]; rewrite E in H.
    + by apply needs_fsigma8_redshifts in H.
    + by apply needs_Pk_redshifts in H.
  - intros Hk.
    assert (extra_args self' = extra_args self ∧
            (odict.get (KStr k) (collectors self) = None ∨
             odict.get (KStr k) (collectors self) = Some None) ∧
            ∃ new, declared_z v = Ok new ∧ collector_z self' k = Some (np_sort new))
      as (He & Hc & new & Hnew & Hz).
    { destruct (needs_one_background k v self Hk) as [E|[m E]]; rewrite E in H.
      - by apply needs_H_z in H.
      - by apply needs_background_z in H. }
    split; [done|]. exists new.
    split; [done|]. split; [done|].
    split; [apply np_sort_ascending|apply np_sort_Permutation].
Qed.

End registry_claims.

(** ** Lookup of redshifts *)

Section lookup_facts.
Context {F : Type} `{!Num F}.
Implicit Types (a z : list F) (x zi : F).

(** In an ascending array that holds [zi], [np.searchsorted] finds a place
    of [zi]. *)
Lemma np_searchsorted_present a zi :
  StronglySorted fle a → zi ∈ a → a !! np_searchsorted a zi = Some zi.
Proof.
  induction 1 as [|x a Hs IH Hall]; intros Hin; [by apply elem_of_nil in Hin|].
  simpl. destruct (decide (flt x zi)) as [[Hle Hne]|Hn].
  - simpl. apply IH. apply elem_of_cons in Hin as [->|Hin]; done.
  - simpl. f_equal. apply elem_of_cons in Hin as [->|Hin]; [done|].
    destruct (decide (x = zi)) as [|Hne]; [done|]. exfalso. apply Hn. split; [|done].
    by apply (proj1 (list.Forall_forall _ _) Hall).
Qed.

Lemma np_where_eq_absent a zi : zi ∉ a → np_where_eq a zi = [].
Proof.
  induction a as [|x a IH]; intros Hn; [done|]. simpl.
  apply not_elem_of_cons in Hn as [Hne Hn].
  rewrite decide_False by done. by rewrite IH.
Qed.

(** In an array without repetition that holds [zi], [np.where] finds the
    one place of [zi]. *)
Lemma np_where_eq_present a zi :
  NoDup a → zi ∈ a → ∃ i, np_where_eq a zi = [i] ∧ a !! i = Some zi.
Proof.
  induction 1 as [|x a Hx Hnd IH]; intros Hin; [by apply elem_of_nil in Hin|].
  simpl. destruct (decide (x = zi)) as [->|Hne].
  - exists 0%nat. by rewrite np_where_eq_absent.
  - apply elem_of_cons in Hin as [->|Hin]; [done|].
    destruct (IH Hin) as (i & -> & Hi). by exists (S i).
Qed.

Lemma np_take_present {A} (redshifts : list F) (stored : list A) z idx :
  length stored = length redshifts →
  Forall2 (λ zi i, redshifts !! i = Some zi) z idx →
  ∃ vals, np_take stored idx = Ok vals ∧
    Forall2 (λ zi val, ∃ i, redshifts !! i = Some zi ∧ stored !! i = Some val) z vals.
Proof.
  intros Hlen. unfold np_take. induction 1 as [|zi i z idx Hi Hrest IH].
  - exists []. by split.
  - destruct IH as (vals & Hvals & Hall). simpl.
    destruct (stored !! i) as [val|] eqn:Hv.
    + exists (val :: vals). simpl. rewrite Hvals. simpl. split; [done|].
      constructor; [by exists i|done].
    + apply lookup_ge_None in Hv. apply lookup_lt_Some in Hi. lia.
Qed.

End lookup_facts.

Section accessor_facts.
Context {F : Type} `{!Num F} `{!CAMB F}.
Implicit Types (self : theory) (z : list F).

Lemma where_indices (redshifts : list F) z :
  NoDup redshifts → Forall (λ zi, zi ∈ redshifts) z →
  Forall2 (λ zi i, redshifts !! i = Some zi) z
    (concat ((λ zi, np_where_eq redshifts zi) <$> z)).
Proof.
  intros Hnd. induction 1 as [|zi z Hin Hrest IH]; [constructor|].
  destruct (np_where_eq_present _ _ Hnd Hin) as (i & Hw & Hi).
  csimpl. rewrite Hw. simpl. by constructor.
Qed.

Lemma searchsorted_indices (redshifts : list F) z :
  StronglySorted fle redshifts → Forall (λ zi, zi ∈ redshifts) z →
  Forall2 (λ zi i, redshifts !! i = Some zi) z
    ((λ zi, np_searchsorted redshifts zi) <$> z).
Proof.
  intros Hs. induction 1 as [|zi z Hin Hrest IH]; [constructor|].
  csimpl. constructor; [by apply np_searchsorted_present|done].
Qed.

Lemma _get_z_dependent_indices quantity z self redshifts :
  z ≠ [] →
  redshifts_of quantity self = Some redshifts →
  (quantity = "fsigma8" → NoDup redshifts) →
  (quantity ≠ "fsigma8" → StronglySorted fle redshifts) →
  Forall (λ zi, zi ∈ redshifts) z →
  ∃ idx, Forall2 (λ zi i, redshifts !! i = Some zi) z idx ∧
    _get_z_dependent quantity z self
    = (current_state ← current_state self;
       stored ← state_get current_state (KStr quantity);
       match stored with
       | VArr a => Fresh <$> np_take a idx
       | _ => Err (IndexError "too many indices for array")
       end).
Proof.
  intros Hz Hr Hnd Hs Hin. unfold _get_z_dependent, redshifts_of in *.
  destruct (decide (quantity = "fsigma8")) as [Hq|Hq].
  - destruct (extra_args self !! "redshifts") as [[]|]; simplify_eq/=.
    exists (concat ((λ zi, np_where_eq redshifts zi) <$> z)).
    split; [by apply where_indices; [apply Hnd|]|].
    by destruct z.
  - unfold collector_z in Hr.
    destruct (odict.get (KStr quantity) (collectors self)) as [[c|]|]; [|done..].
    simpl. destruct (kwargs c !! "z") as [[[]|]|]; simplify_eq/=.
    exists ((λ zi, np_searchsorted redshifts zi) <$> z).
    split; [by apply searchsorted_indices; [apply Hs|]|done].
Qed.

End accessor_facts.

Section accessor_claims.
Context {F : Type} `{!Num F} `{!CAMB F}.
Implicit Types (self : theory) (z : list F).

(** C2, as amended: a getter asked for redshifts that are all among those
    the quantity was computed at returns, for each, the value stored at a
    place of that redshift, and [get_H] returns it times the conversion
    factor of the units.  The redshifts looked up are ascending for the
    background quantities and without repetition for [fsigma8], as [needs]
    leaves them.  Nothing is said of a redshift that is not among them. *)
Theorem present_redshifts_return_stored quantity z self cs redshifts stored :
  z ≠ [] →
  redshifts_of quantity self = Some redshifts →
  (quantity = "fsigma8" → NoDup redshifts) →
  (quantity ≠ "fsigma8" → StronglySorted fle redshifts) →
  current_state self = Ok cs →
  odict.get (KStr quantity) (products cs) = Some (VArr stored) →
  length stored = length redshifts →
  Forall (λ zi, zi ∈ redshifts) z →
  ∃ vals,
    _get_z_dependent quantity z self = Ok (Fresh vals) ∧
    Forall2 (stored_at redshifts stored) z vals ∧
    (quantity = "H" → ∀ units factors factor,
       H_units_conv_factor self = Some factors → factors !! units = Some factor →
       get_H z units self = Ok (Fresh ((λ x, fmul x factor) <$> vals))).
Proof.
  intros Hz Hr Hnd Hs Hcs Hst Hlen Hin.
  destruct (_get_z_dependent_indices _ _ _ _ Hz Hr Hnd Hs Hin) as (idx & Hidx & Hget).
  destruct (np_take_present redshifts stored z idx Hlen Hidx) as (vals & Htake & Hvals).
  assert (_get_z_dependent quantity z self = Ok (Fresh vals)) as Hres.
  { rewrite Hget, Hcs. simpl.
    unfold state_get. rewrite Hst. simpl. by rewrite Htake. }
  exists vals. split; [done|]. split; [done|].
  intros -> units factors factor Hf Hu. unfold get_H.
  rewrite Hres. simpl. rewrite Hf. simpl. by rewrite Hu.
Qed.

End accessor_claims.

(** ** The factors of [get_Cl] *)

Section spectra_facts.
Context {F : Type} `{!Num F} `{!CAMB F}.
Implicit Types (a cl : list F).

Lemma res_mapM_length {A B} (f : A → res B) (l : list A) (r : list B) :
  res_mapM f l = Ok r → length r = length l.
Proof.
  revert r. induction l as [|x l IH]; intros r H; simpl in H; [by simplify_eq|].
  ok_bind H. simplify_eq. simpl. f_equal. by apply IH.
Qed.

Lemma column_length i (rows : list (list F)) col :
  column i rows = Ok col → length col = length rows.
Proof. apply res_mapM_length. Qed.

Lemma zip_with_seq (h : nat → F) (k : nat) a :
  zip_with fmul a (h <$> seq k (length a)) = imap (λ i x, fmul x (h (k + i)%nat)) a.
Proof.
  revert k. induction a as [|x a IH]; intros k; [done|].
  csimpl. rewrite Nat.add_0_r. f_equal. rewrite IH. apply imap_ext.
  intros i y _. simpl. by rewrite Nat.add_succ_r.
Qed.

Lemma imul_tail_scalar_weighted a (c : F) :
  imul_tail_scalar a c = weighted (λ _, c) a.
Proof.
  unfold imul_tail_scalar, weighted. destruct a as [|x0 [|x1 a]]; [done..|].
  cbn [drop take app]. rewrite <- (imap_const (λ x, fmul x c)).
  simpl. by do 2 f_equal.
Qed.

Lemma imul_tail_weighted (g : F → F) a n :
  length a = n →
  imul_tail a (g <$> drop 2 (ell_weight <$> seq 0 n))
  = Ok (weighted (λ l, g (ell_weight l)) a).
Proof.
  intros <-. unfold imul_tail, weighted.
  destruct a as [|x0 [|x1 a]]; [done..|].
  cbn [length seq fmap list_fmap drop take app].
  rewrite !drop_0, take_0, <- list_fmap_compose.
  rewrite decide_True by by rewrite length_fmap, length_seq.
  f_equal. simpl. do 2 f_equal. apply (zip_with_seq (λ l, g (ell_weight l)) 2).
Qed.

End spectra_facts.

Section spectra_claims.
Context {F : Type} `{!Num F} `{!CAMB F}.
Implicit Types (self : theory).

(** C9, as amended: every spectrum but the lensing potential has its
    multipoles from 2 on multiplied by the square of the unit factor and,
    when the weighting is asked for, by l(l+1)/(2 pi); the lensing potential
    is multiplied, from multipole 2 on, by the square of that weight times
    2 pi when the weighting is asked for, and is returned as stored when it
    is not; the unit factor never reaches it; multipoles 0 and 1 are as
    stored throughout. *)
Theorem get_Cl_scaling ell_factor units self cs spectra total tt ee bb te pp
    units_factor :
  current_state self = Ok cs →
  odict.get (KStr "Cl") (products cs) = Some (VSpectra spectra) →
  odict.get "total" spectra = Some total →
  column 0 total = Ok tt → column 1 total = Ok ee →
  column 2 total = Ok bb → column 3 total = Ok te →
  match odict.get "lens_potential" spectra with
  | Some lp => Some <$> column 0 lp
  | None => Ok None
  end = Ok pp →
  (∀ a, pp = Some a → length a = length total) →
  odict.get units units_factors = Some units_factor →
  get_Cl ell_factor units self
  = Ok (Fresh
          ([("ell", f_of_nat <$> seq 0 (length total));
            ("tt", weighted (cl_factor ell_factor units_factor) tt);
            ("ee", weighted (cl_factor ell_factor units_factor) ee);
            ("bb", weighted (cl_factor ell_factor units_factor) bb);
            ("te", weighted (cl_factor ell_factor units_factor) te)]
           ++ match pp with
              | Some a => [("pp", if ell_factor then weighted pp_factor a else a)]
              | None => []
              end)).
Proof.
  intros Hcs Hcl Htot Htt Hee Hbb Hte Hpp Hlen Hu.
  unfold get_Cl. rewrite Hu, Hcs. simpl. rewrite Hcl. simpl. rewrite Htot. simpl.
  rewrite Htt. simpl. rewrite Hee. simpl. rewrite Hbb. simpl. rewrite Hte. simpl.
  rewrite Hpp. simpl.
  apply column_length in Htt, Hee, Hbb, Hte.
  destruct ell_factor.
  - rewrite !(imul_tail_weighted (λ x, fmul (fsqr units_factor) x)) by done. simpl.
    destruct pp as [a|]; simpl; [|done].
    rewrite (imul_tail_weighted (λ x, fmul (fsqr x) two_pi)) by by apply Hlen.
    done.
  - rewrite !imul_tail_scalar_weighted. by destruct pp.
Qed.

End spectra_claims.

(** ** What the accessors hand out and what they store *)

Section handed_facts.
Context {F : Type} `{!Num F} `{!CAMB F}.
Implicit Types (self : theory) (s : slot).

Lemma memo_rel_refl key s : memo_rel key s s.
Proof. unfold memo_rel. repeat split. by left. Qed.

Lemma odict_mem_false {K V} `{EqDecision K} (k : K) (d : list (K * V)) :
  odict.mem k d = false → odict.get k d = None.
Proof.
  unfold odict.mem. rewrite bool_decide_eq_false.
  destruct (odict.get k d); [|done]. intros []. by eexists.
Qed.

Lemma get_Cl_fresh ell_factor units self r :
  get_Cl ell_factor units self = Ok r → ∃ a, r = Fresh a.
Proof. unfold get_Cl. intros H. ok_bind H. simplify_eq. by eexists. Qed.

Lemma _get_z_dependent_fresh quantity z self r :
  _get_z_dependent quantity z self = Ok r → ∃ a, r = Fresh a.
Proof.
  unfold _get_z_dependent. intros H. ok_bind H.
  destruct a1; try done. destruct (np_take _ _); simplify_eq/=. by eexists.
Qed.

Lemma get_H_fresh z units self r :
  get_H z units self = Ok r → ∃ a, r = Fresh a.
Proof.
  unfold get_H, except_KeyError. intros H.
  destruct (_get_z_dependent "H" z self) as [h|e] eqn:E; simpl in H.
  - destruct (_get_z_dependent_fresh _ _ _ _ E) as [a ->].
    destruct (H_units_conv_factor self) as [factors|]; simpl in H; [|done].
    destruct (factors !! units); simpl in H; [|done]. simplify_eq. by eexists.
  - by destruct e.
Qed.

Lemma get_source_Cl_fresh self r :
  get_source_Cl self = Ok r → ∃ a, r = Fresh a.
Proof. unfold get_source_Cl. intros H. ok_bind H. simplify_eq. by eexists. Qed.

Lemma get_matter_power_stored var_pair nonlinear _state self r :
  get_matter_power var_pair nonlinear _state self = Ok r →
  ∃ i s,
    r = Stored i (Kmatter_power_spectrum nonlinear var_pair.1 var_pair.2) ∧
    _states self !! i = Some s ∧
    is_Some (odict.get (Kmatter_power_spectrum nonlinear var_pair.1 var_pair.2)
               (products s)).
Proof.
  unfold get_matter_power. intros H. destruct (_ && _); [done|]. ok_bind H.
  destruct (odict.mem _ _) eqn:Hm; [|done]. simplify_eq.
  exists a, a0. split; [done|]. split.
  - destruct (_states self !! a); by simplify_eq/=.
  - apply odict_get_is_Some. by apply odict_mem_true.
Qed.

Lemma get_Pk_interpolator_memo var_pair nonlinear extrap_kmax self r self' :
  get_Pk_interpolator var_pair nonlinear extrap_kmax self = (r, self') →
  ∃ i,
    frame i (memo_rel (KPk_interpolator nonlinear extrap_kmax var_pair.1 var_pair.2))
      self self' ∧
    ∀ h, r = Ok h →
      h = Stored i (KPk_interpolator nonlinear extrap_kmax var_pair.1 var_pair.2) ∧
      current_index self = Ok i ∧
      ∃ s', _states self' !! i = Some s' ∧
        is_Some (odict.get
                   (KPk_interpolator nonlinear extrap_kmax var_pair.1 var_pair.2)
                   (products s')).
Proof.
  unfold get_Pk_interpolator. intros H.
  destruct (current_index self) as [i|e] eqn:Hi.
  2:{ simplify_eq. exists 0%nat. split; [apply frame_refl, memo_rel_refl|done]. }
  destruct (_states self !! i) as [cs|] eqn:Hcs.
  2:{ simplify_eq. exists 0%nat. split; [apply frame_refl, memo_rel_refl|done]. }
  destruct (odict.mem _ (products cs)) eqn:Hm.
  { simplify_eq. exists i. split; [apply frame_refl, memo_rel_refl|].
    intros h [= <-]. split; [done|]. split; [done|]. exists cs. split; [done|].
    apply odict_get_is_Some. by apply odict_mem_true. }
  apply odict_mem_false in Hm.
  destruct (_ ≫= _) as [result|e] eqn:Hr in H.
  2:{ simplify_eq. exists i. split; [apply frame_refl, memo_rel_refl|done]. }
  simplify_eq. exists i. split.
  - unfold store_product, update_state, frame. simpl.
    split; [done|]. split; [done|]. split; [by rewrite length_alter|].
    split; [intros j Hj; by rewrite list_lookup_alter_ne|].
    intros s Hs. simplify_eq. eexists. rewrite list_lookup_alter_eq, Hcs.
    split; [done|]. unfold memo_rel. simpl. repeat split. right. by eexists.
  - intros h [= <-]. split; [done|]. split; [done|].
    unfold store_product, update_state. simpl.
    rewrite list_lookup_alter_eq, Hcs. simpl. eexists. split; [done|].
    simpl. rewrite odict_get_put_eq. by eexists.
Qed.

End handed_facts.

Section handed_claims.
Context {F : Type} `{!Num F} `{!CAMB F}.
Implicit Types (self : theory).

(** C10, as amended: [get_Cl], the getters of the quantities given at
    redshifts and [get_source_Cl] hand out new arrays; [get_matter_power]
    hands out the tuple that the state stores, not a copy of it; and
    [get_Pk_interpolator] hands out the interpolator that the current state
    stores and, when the state had none under that key, stores it there,
    which is everything it changes: collectors, the other states, and the
    parameters, derived parameters, recency and other results of the
    current state are as before. *)
Theorem accessors_and_the_cache self :
  (∀ ell_factor units r, get_Cl ell_factor units self = Ok r → ∃ a, r = Fresh a) ∧
  (∀ quantity z r, _get_z_dependent quantity z self = Ok r → ∃ a, r = Fresh a) ∧
  (∀ z units r, get_H z units self = Ok r → ∃ a, r = Fresh a) ∧
  (∀ r, get_source_Cl self = Ok r → ∃ a, r = Fresh a) ∧
  (∀ var_pair nonlinear _state r,
     get_matter_power var_pair nonlinear _state self = Ok r →
     ∃ i s,
       r = Stored i (Kmatter_power_spectrum nonlinear var_pair.1 var_pair.2) ∧
       _states self !! i = Some s ∧
       is_Some (odict.get (Kmatter_power_spectrum nonlinear var_pair.1 var_pair.2)
                  (products s))) ∧
  (∀ var_pair nonlinear extrap_kmax r self',
     get_Pk_interpolator var_pair nonlinear extrap_kmax self = (r, self') →
     ∃ i,
       frame i (memo_rel (KPk_interpolator nonlinear extrap_kmax var_pair.1 var_pair.2))
         self self' ∧
       ∀ h, r = Ok h →
         h = Stored i (KPk_interpolator nonlinear extrap_kmax var_pair.1 var_pair.2) ∧
         current_index self = Ok i ∧
         ∃ s', _states self' !! i = Some s' ∧
           is_Some (odict.get
                      (KPk_interpolator nonlinear extrap_kmax var_pair.1 var_pair.2)
                      (products s'))).
Proof.
  split; [intros ???; apply get_Cl_fresh|].
  split; [intros ???; apply _get_z_dependent_fresh|].
  split; [intros ???; apply get_H_fresh|].
  split; [intros ?; apply get_source_Cl_fresh|].
  split; [intros ????; apply get_matter_power_stored|].
  intros ?????. apply get_Pk_interpolator_memo.
Qed.

End handed_claims.

(** ** What an evaluation leaves of the registry *)

Ltac same_fields := unfold same_registry; repeat split.

Section registry_facts.
Context {F : Type} `{!Num F} `{!CAMB F}.
Implicit Types (self : theory) (s : slot) (P : gmap string F).

Lemma same_registry_refl self : same_registry self self.
Proof. same_fields. Qed.

Lemma same_registry_trans self1 self2 self3 :
  same_registry self1 self2 → same_registry self2 self3 → same_registry self1 self3.
Proof. unfold same_registry. intros H12 H23. repeat split; intuition congruence. Qed.

Lemma same_registry_update_state i f self : same_registry self (update_state i f self).
Proof. same_fields. Qed.

Lemma same_registry_count_call self : same_registry self (count_call self).
Proof. same_fields. Qed.

Lemma prepare_base_registry args self r self' :
  prepare_base args self = (r, self') → same_registry self self'.
Proof.
  unfold prepare_base. intros Hp.
  repeat case_match; simplify_eq; same_fields.
Qed.

Lemma set_registry P i self r self' :
  set P i self = (r, self') → same_registry self self'.
Proof.
  unfold set, set_try. intros Hs.
  destruct (prepare_base _ _) as [r1 self1] eqn:Hp.
  apply prepare_base_registry in Hp.
  assert (∀ self2, same_registry self1 self2 → same_registry self self2) as Ht.
  { intros self2. apply same_registry_trans.
    eapply same_registry_trans; [|exact Hp]. apply same_registry_update_state. }
  repeat case_match; simplify_eq; apply Ht; same_fields.
Qed.

Lemma run_collectors_registry results i cs self exit self' :
  run_collectors results i cs self = (exit, self') → same_registry self self'.
Proof.
  revert self. induction cs as [|[product [collector|]] cs IH]; intros self; simpl.
  - intros [= <- <-]. apply same_registry_refl.
  - intros Hrun.
    repeat case_match; simplify_eq;
      try (by same_fields);
      match goal with
      | H : run_collectors _ _ _ _ = _ |- _ =>
          apply IH in H; eapply same_registry_trans; [|exact H];
          same_fields
      end.
  - intros [= <- <-]. apply same_registry_refl.
Qed.

Lemma prepare_derived_registry d i camb_params results self r self' :
  prepare_derived d i camb_params results self = (r, self') → same_registry self self'.
Proof.
  unfold prepare_derived. intros Hp.
  repeat case_match; simplify_eq; same_fields.
Qed.

Lemma compute_new_registry d P lasts self r self' :
  compute_new d P lasts self = (r, self') → same_registry self self'.
Proof.
  unfold compute_new. intros Hc.
  destruct (_ ≫= _) as [i_state|]; [|simplify_eq; apply same_registry_refl].
  destruct (set P i_state self) as [r1 self1] eqn:Hs.
  apply set_registry in Hs.
  destruct r1 as [[camb_params|]|e];
    [|by simplify_eq|by simplify_eq].
  destruct (match collectors self1 with [] => _ | _ => _ end) as [r2 self2] eqn:H2.
  assert (same_registry self1 self2) as Hr2.
  { destruct (collectors self1); simplify_eq; same_fields. }
  destruct r2 as [results|e]; [|simplify_eq; by eapply same_registry_trans].
  destruct (match results with Some _ => _ | None => _ end) as [exit self3] eqn:H3.
  assert (same_registry self2 self3) as Hr3.
  { destruct results; [by apply run_collectors_registry in H3|].
    simplify_eq. apply same_registry_refl. }
  assert (same_registry self self3) as Hr.
  { eapply same_registry_trans; [|exact Hr3]. by eapply same_registry_trans. }
  destruct exit; [|by simplify_eq|by simplify_eq].
  destruct (prepare_derived _ _ _ _ _) as [r4 self4] eqn:H4.
  apply prepare_derived_registry in H4.
  assert (same_registry self self4) by by eapply same_registry_trans.
  destruct r4; by simplify_eq.
Qed.

Lemma hit_state_registry m i self : same_registry self (hit_state m i self).
Proof. same_fields. Qed.

Lemma compute_registry d cached P self o self' :
  compute d cached P self = (o, self') → same_registry self self'.
Proof.
  intros Hc.
  destruct (reusable_state cached P self) as [i|] eqn:Hr.
  - destruct (compute_hit d _ _ _ _ Hr) as (m & s & Hm & Hs & Hc').
    rewrite Hc in Hc'. injection Hc' as _ ->. apply hit_state_registry.
  - destruct (compute_miss _ _ _ _ _ _ Hr Hc) as (r & self1 & Hn & Hres).
    apply compute_new_registry in Hn.
    destruct r as [o'|[i d0]].
    + by destruct Hres as [_ ->].
    + destruct Hres as (m & _ & _ & -> & _).
      eapply same_registry_trans; [exact Hn|apply hit_state_registry].
Qed.

End registry_facts.

(** ** The state an evaluation leaves current *)

Section current_facts.
Context {F : Type} `{!Num F} `{!CAMB F}.
Implicit Types (self : theory) (s : slot) (P : gmap string F).

Lemma foldl_max_le_bound (b x : Z) (l : list Z) :
  x ≤ b → Forall (λ y, y ≤ b) l → foldl Z.max x l ≤ b.
Proof.
  revert x. induction l as [|y l IH]; intros x Hx Hl; simpl; [done|].
  apply list.Forall_cons in Hl as [Hy Hl]. apply IH; [lia|done].
Qed.

(** The state whose recency is 1 while every other is at most 0 is the one
    [current_state] returns. *)
Lemma current_index_of_one self i s :
  _states self !! i = Some s → last s = 1 →
  (∀ j t, j ≠ i → _states self !! j = Some t → last t ≤ 0) →
  current_index self = Ok i.
Proof.
  intros Hs Hl Hothers. unfold current_index.
  assert (lasts_of self !! i = Some 1) as Hi.
  { by rewrite lasts_of_lookup, Hs; simpl; rewrite Hl. }
  assert (Forall (λ y, y ≤ 1) (lasts_of self)) as Hle.
  { apply list.Forall_forall. intros y Hy.
    apply list_elem_of_lookup in Hy as [j Hj]. rewrite lasts_of_lookup in Hj.
    destruct (_states self !! j) as [t|] eqn:Ht; [|done]. simpl in Hj.
    injection Hj as <-. destruct (decide (j = i)) as [->|Hne].
    - simplify_eq. lia.
    - pose proof (Hothers j t Hne Ht). lia. }
  assert (py_max (lasts_of self) = Ok 1) as ->.
  { destruct (lasts_of self) as [|x l] eqn:El; [by rewrite lookup_nil in Hi|].
    simpl. f_equal.
    destruct (foldl_max_ge x l) as [Hx Hge].
    apply list.Forall_cons in Hle as [Hx1 Hl1].
    pose proof (foldl_max_le_bound 1 x l Hx1 Hl1) as Hub.
    assert (1 ≤ foldl Z.max x l); [|lia].
    destruct i as [|i]; simpl in Hi; [by simplify_eq|].
    apply list_elem_of_lookup_2 in Hi.
    by apply (proj1 (list.Forall_forall _ _) Hge). }
  simpl. apply py_index_unique; [done|].
  intros j Hj Hj1. rewrite lasts_of_lookup in Hj1.
  destruct (_states self !! j) as [t|] eqn:Ht; [|done]. simpl in Hj1.
  injection Hj1 as Hj1. assert (j ≠ i) as Hne by lia.
  pose proof (Hothers j t Hne Ht). lia.
Qed.

End current_facts.

Section evaluation_facts.
Context {F : Type} `{!Num F} `{!CAMB F}.
Implicit Types (self : theory) (s : slot) (P : gmap string F).

(** What [compute_new] leaves of a [_derived] that is not the empty
    dictionary. *)
Lemma compute_new_derived d P lasts self r self' :
  compute_new d P lasts self = (r, self') → d ≠ Some ∅ →
  match r with
  | inl (Return _ d') => d' = d
  | inl (Raise _) => True
  | inr (_, d') => d' = d
  end.
Proof.
  unfold compute_new, prepare_derived. intros Hc Hd.
  repeat case_match; simplify_eq; done.
Qed.

Lemma run_collectors_None results i cs self exit self' k :
  (k, None) ∈ cs → run_collectors results i cs self = (exit, self') →
  exit ≠ LoopDone.
Proof.
  revert self. induction cs as [|[product [collector|]] cs IH]; intros self Hin; simpl.
  - by apply elem_of_nil in Hin.
  - apply elem_of_cons in Hin as [[=]|Hin]. intros Hrun.
    destruct (method collector) as [m|].
    + destruct (call_method _ _ _ _) as [v|e]; [by eapply IH|].
      repeat case_match; by simplify_eq.
    + by eapply IH.
  - by intros [= <- <-].
Qed.

Lemma compute_new_None d P lasts self r self' k :
  (k, None) ∈ collectors self → compute_new d P lasts self = (r, self') →
  ¬ is_inr r.
Proof.
  unfold compute_new. intros Hk Hc.
  destruct (_ ≫= _) as [i_state|]; [|simplify_eq; simpl; tauto].
  destruct (set P i_state self) as [r1 self1] eqn:Hs.
  apply set_registry in Hs.
  assert (collectors self1 = collectors self) as Hc1 by apply Hs.
  destruct r1 as [[camb_params|]|e]; [|simplify_eq; simpl; tauto..].
  rewrite Hc1 in Hc. destruct (collectors self) as [|c0 cs] eqn:Ecs.
  { by apply elem_of_nil in Hk. }
  destruct (if needs_perts self1 then _ else _) as [results|e]; simpl in Hc;
    [|simplify_eq; simpl; tauto].
  destruct (run_collectors _ _ _ _) as [exit self3] eqn:H3.
  rewrite Hc1 in H3.
  apply (run_collectors_None _ _ _ _ _ _ k) in H3; [|done].
  destruct exit; [done|simplify_eq; simpl; tauto..].
Qed.

End evaluation_facts.

Section evaluation_properties.
Context {F : Type} `{!Num F} `{!CAMB F}.
Implicit Types (self : theory) (s : slot) (P : gmap string F).

(** X1: after an evaluation that returns 1 or 2 the state that
    [current_state] returns holds the point evaluated and a result for every
    registered collector; its recency is 1 and that of every other state is
    at most 0. *)
Theorem successful_compute_is_current d cached P self st d' self' :
  compute d cached P self = (Return st d', self') → st ≠ 0 →
  ∃ i s,
    current_index self' = Ok i ∧ current_state self' = Ok s ∧
    params s = Some P ∧ last s = 1 ∧
    (∀ j t, j ≠ i → _states self' !! j = Some t → last t ≤ 0) ∧
    ∀ k, k ∈ odict.keys (collectors self') → k ∈ odict.keys (products s).
Proof.
  intros Hc Hst.
  destruct (compute_success _ _ _ _ _ _ _ Hc Hst)
    as (_ & i & s & Hs & Hp & Hhas & Hl & Hothers & _).
  pose proof (current_index_of_one _ _ _ Hs Hl Hothers) as Hi.
  exists i, s. split; [done|]. split.
  { unfold current_state. rewrite Hi. simpl. by rewrite Hs. }
  split; [done|]. split; [done|]. split; [done|].
  by apply has_products_spec.
Qed.

(** X2: after an evaluation that returns 1 or 2, [get_param] gives back the
    value of an input parameter of the point, looked up under its translated
    name; and when the derived parameters were asked for, it gives the value
    that the evaluation returned for a name that is not an input. *)
Theorem get_param_after_compute d cached P self st d' self' p :
  compute d cached P self = (Return st d', self') → st ≠ 0 →
  (∀ x, P !! translate_param self p = Some x → get_param p self' = Ok x) ∧
  (∀ dd y, d = Some ∅ → d' = Some dd → P !! translate_param self p = None →
     dd !! translate_param self p = Some y → get_param p self' = Ok y).
Proof.
  intros Hc Hst.
  destruct (compute_success _ _ _ _ _ _ _ Hc Hst)
    as (_ & i & s & Hs & Hp & _ & Hl & Hothers & Hd).
  pose proof (current_index_of_one _ _ _ Hs Hl Hothers) as Hi.
  assert (current_state self' = Ok s) as Hcs.
  { unfold current_state. rewrite Hi. simpl. by rewrite Hs. }
  assert (translate_param self' p = translate_param self p) as Ht.
  { apply compute_registry in Hc. destruct Hc as (_ & _ & Hr & Hu & _).
    unfold translate_param. by rewrite Hr, Hu. }
  unfold get_param. rewrite Hcs. simpl. rewrite Ht, Hp. simpl. split.
  - by intros x ->.
  - intros dd y Hempty -> -> Hy. specialize (Hd Hempty). injection Hd as ->.
    by rewrite Hy.
Qed.

(** X3: an evaluation that returns 1 makes no call into the library and
    changes nothing of any state but its recency. *)
Theorem status_one_changes_only_recency d cached P self d' self' :
  compute d cached P self = (Return 1 d', self') →
  camb_calls self' = camb_calls self ∧
  length (_states self') = length (_states self) ∧
  ∀ j t', _states self' !! j = Some t' →
    ∃ t, _states self !! j = Some t ∧ params t' = params t ∧
         products t' = products t ∧ derived t' = derived t ∧
         derived_extra t' = derived_extra t ∧ set_args t' = set_args t.
Proof.
  intros Hc.
  destruct (reusable_state cached P self) as [i|] eqn:Hr.
  2:{ by destruct (miss_never_returns_1 _ _ _ _ _ _ Hr Hc d'). }
  destruct (compute_hit d _ _ _ _ Hr) as (m & s & Hm & Hs & Hc').
  rewrite Hc in Hc'. injection Hc' as _ ->.
  split; [done|]. split; [apply hit_state_length|].
  intros j t' Ht'. rewrite hit_state_lookup in Ht'.
  destruct (_states self !! j) as [t|]; [|done]. simpl in Ht'.
  exists t. split; [done|]. by destruct (decide (j = i)); simplify_eq.
Qed.

(** X4: an evaluation with caching off never returns 1: it calls into the
    library again, whatever the states hold. *)
Theorem uncached_compute_recomputes d P self o self' :
  _states self ≠ [] → compute d false P self = (o, self') →
  (∀ d', o ≠ Return 1 d') ∧ (camb_calls self < camb_calls self')%nat.
Proof.
  intros Hne Hc.
  assert (reusable_state false P self = None) as Hr by done.
  split.
  - exact (miss_never_returns_1 _ _ _ _ _ _ Hr Hc).
  - exact (compute_miss_calls _ _ _ _ _ _ Hne Hr Hc).
Qed.

(** X5: an evaluation that returns 0 leaves the recency of every state and
    the [_derived] dictionary as they were; the state of lowest recency
    holds the new point, the other states are untouched. *)
Theorem zero_status_keeps_recency d cached P self d' self' :
  compute d cached P self = (Return 0 d', self') →
  d' = d ∧ lasts_of self' = lasts_of self ∧
  ∃ i, oldest self = Ok i ∧
    (∀ j, j ≠ i → _states self' !! j = _states self !! j) ∧
    (∀ s', _states self' !! i = Some s' → params s' = Some P).
Proof.
  intros Hc.
  destruct (reusable_state cached P self) as [i|] eqn:Hr.
  { destruct (compute_hit d _ _ _ _ Hr) as (m & s & _ & _ & Hc').
    rewrite Hc in Hc'. by injection Hc'. }
  destruct (compute_miss _ _ _ _ _ _ Hr Hc) as (r & self1 & Hn & Hres).
  destruct r as [o'|[i d0]].
  2:{ by destruct Hres as (m & _ & [=] & _). }
  destruct Hres as [<- ->].
  assert (d' = d) as ->.
  { by destruct (compute_new_inl _ _ _ _ _ _ Hn) as [[=]|[e [=]]]. }
  split; [done|].
  pose proof (compute_new_spec _ _ _ _ _ Hn) as Hspec.
  destruct (oldest self) as [i|]; [|by destruct Hspec].
  destruct Hspec as [Hf _]. split.
  { eapply lasts_of_frame; [|exact Hf]. by intros s s' (_ & ? & _). }
  exists i. split; [done|].
  destruct Hf as (_ & _ & Hlen & Hsame & Hi). split; [done|].
  intros s' Hs'.
  destruct (_states self !! i) as [s|] eqn:Hs.
  - destruct (Hi s eq_refl) as (s1 & Hs1 & Hp & _). by simplify_eq.
  - apply lookup_ge_None in Hs. rewrite <-Hlen in Hs.
    apply lookup_ge_None in Hs. congruence.
Qed.

(** X6: a [_derived] argument that is not the empty dictionary, [None]
    included, comes back as it was given from every evaluation that
    returns. *)
Theorem nonempty_derived_is_left_alone d cached P self st d' self' :
  d ≠ Some ∅ → compute d cached P self = (Return st d', self') → d' = d.
Proof.
  intros Hd Hc.
  destruct (reusable_state cached P self) as [i|] eqn:Hr.
  { destruct (compute_hit d _ _ _ _ Hr) as (m & s & _ & _ & Hc').
    rewrite Hc in Hc'. rewrite decide_False in Hc' by done. by injection Hc'. }
  destruct (compute_miss _ _ _ _ _ _ Hr Hc) as (r & self1 & Hn & Hres).
  pose proof (compute_new_derived _ _ _ _ _ _ Hn Hd) as Hder.
  destruct r as [o'|[i d0]].
  - destruct Hres as [<- _]. done.
  - destruct Hres as (m & _ & [= _ ->] & _). done.
Qed.

(** X7: while some collector is [None], as the requirement of ["CAMBdata"]
    leaves it, no evaluation returns 2: one that reaches the collectors ends
    in an exception or in 0. *)
Theorem none_collector_never_computes k d cached P self o self' :
  (k, None) ∈ collectors self → compute d cached P self = (o, self') →
  ∀ d', o ≠ Return 2 d'.
Proof.
  intros Hk Hc d' ->.
  destruct (reusable_state cached P self) as [i|] eqn:Hr.
  { destruct (compute_hit d _ _ _ _ Hr) as (m & s & _ & _ & Hc').
    rewrite Hc in Hc'. by injection Hc'. }
  destruct (compute_miss _ _ _ _ _ _ Hr Hc) as (r & self1 & Hn & Hres).
  pose proof (compute_new_None _ _ _ _ _ _ k Hk Hn) as Hnone.
  destruct r as [o'|[i d0]]; [|by apply Hnone].
  destruct Hres as [<- ->].
  by destruct (compute_new_inl _ _ _ _ _ _ Hn) as [[=]|[e [=]]].
Qed.

End evaluation_properties.

(** ** Declarations that repeat or come in another order *)

Section declaration_facts.
Context {F : Type} `{!Num F} `{!CAMB F}.
Implicit Types (self : theory) (v : option (gmap string (rfield F))).

(** Sorting the distinct elements gives one array for one set of values. *)
Lemma sort_unique_ext (a b : list F) :
  (∀ x, x ∈ a ↔ x ∈ b) → np_sort (np_unique a) = np_sort (np_unique b).
Proof.
  intros Hab. apply (StronglySorted_unique fle).
  - apply np_sort_ascending.
  - apply np_sort_ascending.
  - apply NoDup_Permutation.
    + rewrite np_sort_Permutation. apply np_unique_NoDup.
    + rewrite np_sort_Permutation. apply np_unique_NoDup.
    + intros x. by rewrite !np_sort_elem, !np_unique_elem.
Qed.

Lemma odict_put_put {K V} `{EqDecision K} (k : K) (v w : V) (d : list (K * V)) :
  odict.put k w (odict.put k v d) = odict.put k w d.
Proof.
  induction d as [|[k0 v0] d IH]; simpl.
  - by rewrite decide_True.
  - destruct (decide (k0 = k)) as [->|Hne]; simpl.
    + by rewrite decide_True.
    + rewrite decide_False by done. by rewrite IH.
Qed.

(** Two objects with the same fields are the same object. *)
Lemma theory_eq self self' :
  input_params self = input_params self' →
  output_params self = output_params self' →
  renames self = renames self' →
  use_planck_names self = use_planck_names self' →
  stop_at_error self = stop_at_error self' →
  _states self = _states self' →
  collectors self = collectors self' →
  extra_args self = extra_args self' →
  extra_attrs self = extra_attrs self' →
  derived_extra_names self = derived_extra_names self' →
  needs_perts self = needs_perts self' →
  limber self = limber self' →
  non_linear_lens self = non_linear_lens self' →
  non_linear_pk self = non_linear_pk self' →
  _base_params self = _base_params self' →
  _reduced_extra_args self = _reduced_extra_args self' →
  sources self = sources self' →
  H_units_conv_factor self = H_units_conv_factor self' →
  _needs self = _needs self' →
  camb_calls self = camb_calls self' →
  self = self'.
Proof. destruct self, self'. simpl. intros. by subst. Qed.

Lemma add_to_redshifts_value z self self' :
  add_to_redshifts z self = Ok self' →
  ∃ new, np_atleast_1d z = Ok new ∧
    self' = with_extra_args
              (<["redshifts" :=
                   PArr (reverse (np_sort (np_unique (new ++ solver_redshifts self))))]>
                 (extra_args self)) self.
Proof.
  unfold add_to_redshifts, solver_redshifts. intros H. ok_bind H. injection H as <-.
  exists a. split; [done|].
  destruct (extra_args self !! "redshifts") as [[]|]; by simplify_eq/=.
Qed.

Lemma add_to_redshifts_is_Ok z self new :
  np_atleast_1d z = Ok new →
  (∀ x, extra_args self !! "redshifts" = Some x → ∃ l, np_atleast_1d x = Ok l) →
  add_to_redshifts z self
  = Ok (with_extra_args
          (<["redshifts" :=
               PArr (reverse (np_sort (np_unique (new ++ solver_redshifts self))))]>
             (extra_args self)) self).
Proof.
  unfold add_to_redshifts, solver_redshifts. intros -> Hx. simpl.
  destruct (extra_args self !! "redshifts") as [x|]; [|done].
  destruct (Hx x eq_refl) as [l Hl]. by destruct x.
Qed.

End declaration_facts.

Section declaration_properties.
Context {F : Type} `{!Num F} `{!CAMB F}.
Implicit Types (self : theory) (v : option (gmap string (rfield F))).
#[local] Arguments np_sort : simpl never.
#[local] Arguments np_unique : simpl never.

(** X8: declaring [fsigma8] a second time with the same redshifts changes
    nothing: the loop of [needs] succeeds again and leaves the object the
    first declaration left. *)
Theorem fsigma8_declared_twice v self self1 :
  needs_one "fsigma8" v self = Ok self1 → needs_one "fsigma8" v self1 = Ok self1.
Proof.
  change (needs_one "fsigma8" v self) with (needs_fsigma8 "fsigma8" v self).
  change (needs_one "fsigma8" v self1) with (needs_fsigma8 "fsigma8" v self1).
  unfold needs_fsigma8. intros H.
  destruct (req_get v "z" ≫= _) as [z|] eqn:Ez; simpl in *; [|done].
  destruct (add_to_redshifts z self) as [s1|] eqn:Ea; simpl in *; [|done].
  destruct (add_to_redshifts_value _ _ _ Ea) as (new & Hnew & ->).
  injection H as <-.
  rewrite (add_to_redshifts_is_Ok z _ new Hnew).
  2:{ simpl. intros x. rewrite lookup_insert_eq. intros [= <-]. by eexists. }
  simpl. f_equal. apply theory_eq; try reflexivity.
  - simpl. apply odict_put_put.
  - unfold solver_redshifts. simpl.
    rewrite lookup_insert_eq, insert_insert_eq.
    do 3 f_equal. apply sort_unique_ext. intros x.
    rewrite elem_of_app, sort_unique_reversed_elem, elem_of_app. tauto.
Qed.

(** X9: the list kept for the library does not depend on the order in which
    redshifts are added to it: adding [z2] and then [z1] succeeds and leaves
    the object that adding [z1] and then [z2] leaves. *)
Theorem add_to_redshifts_commute z1 z2 self self1 self2 :
  add_to_redshifts z1 self = Ok self1 → add_to_redshifts z2 self1 = Ok self2 →
  ∃ self1', add_to_redshifts z2 self = Ok self1' ∧
            add_to_redshifts z1 self1' = Ok self2.
Proof.
  intros H1 H2.
  destruct (add_to_redshifts_value _ _ _ H1) as (new1 & Hnew1 & ->).
  destruct (add_to_redshifts_value _ _ _ H2) as (new2 & Hnew2 & ->).
  assert (∀ x, extra_args self !! "redshifts" = Some x →
            ∃ l, np_atleast_1d x = Ok l) as Harr.
  { intros x Hx. unfold add_to_redshifts in H1. rewrite Hnew1, Hx in H1. simpl in H1.
    destruct (np_atleast_1d x); [by eexists|done]. }
  eexists. split; [by apply add_to_redshifts_is_Ok|].
  rewrite (add_to_redshifts_is_Ok z1 _ new1 Hnew1).
  2:{ simpl. intros x. rewrite lookup_insert_eq. intros [= <-]. by eexists. }
  f_equal. apply theory_eq; try reflexivity.
  unfold solver_redshifts. simpl.
  rewrite !lookup_insert_eq, !insert_insert_eq.
  do 3 f_equal. apply sort_unique_ext. intros x.
  rewrite !elem_of_app, !sort_unique_reversed_elem, !elem_of_app. tauto.
Qed.

End declaration_properties.

(** ** The requirement of spectra *)

Section spectra_requirement_facts.
Context {F : Type} `{!Num F} `{!CAMB F}.
Implicit Types (self : theory) (v : option (gmap string (rfield F))) (x y : F).

Lemma fle_fmax_l x y : fle x (fmax x y).
Proof. unfold fmax. destruct (decide (fle x y)); [done|reflexivity]. Qed.

Lemma fle_fmax_r x y : fle y (fmax x y).
Proof.
  unfold fmax. destruct (decide (fle x y)) as [|Hn]; [reflexivity|].
  by destruct (total fle x y).
Qed.

Lemma foldl_fmax_ge x (l : list F) :
  fle x (foldl fmax x l) ∧ Forall (λ y, fle y (foldl fmax x l)) l.
Proof.
  revert x. induction l as [|y l IH]; intros x; simpl; [split; [reflexivity|constructor]|].
  destruct (IH (fmax x y)) as [H1 H2]. split.
  - etrans; [apply fle_fmax_l|exact H1].
  - constructor; [|done]. etrans; [apply fle_fmax_r|exact H1].
Qed.

Lemma py_max_F_ge (l : list F) m : py_max_F l = Ok m → Forall (λ y, fle y m) l.
Proof.
  destruct l as [|x l]; simpl; [done|]. intros [= <-].
  destruct (foldl_fmax_ge x l). by constructor.
Qed.

Lemma res_mapM_Forall2 {A B} (f : A → res B) (l : list A) (r : list B) :
  res_mapM f l = Ok r → Forall2 (λ a b, f a = Ok b) l r.
Proof.
  revert r. induction l as [|a l IH]; intros r Hr; simpl in Hr.
  - injection Hr as <-. constructor.
  - ok_bind Hr. injection Hr as <-. constructor; [done|by apply IH].
Qed.

End spectra_requirement_facts.

Section spectra_requirement_properties.
Context {F : Type} `{!Num F} `{!CAMB F}.
Implicit Types (self : theory) (v : option (gmap string (rfield F))) (x y : F).

(** X10: a requirement of spectra going through the loop of [needs]: the
    collector's list of spectra has no repetition and holds what it held,
    ["total"], and ["lens_potential"] when a spectrum named pp in any letter
    case is asked for; [lmax] becomes a number that is at least the one held
    before and at least every multipole asked for. *)
Theorem Cl_requirement_accumulates v self self' :
  needs_one "Cl" v self = Ok self' →
  NoDup (collector_spectra self') ∧
  (∀ name, name ∈ collector_spectra self' ↔
     name ∈ collector_spectra self ∨ name = "total" ∨
     (name = "lens_potential" ∧
      ∃ d cl, v = Some d ∧ is_Some (d !! cl) ∧ lower cl = "pp")) ∧
  ∃ lmax, extra_args self' !! "lmax" = Some (PNum lmax) ∧
    (∀ old, extra_args self !! "lmax" = Some (PNum old) → fle old lmax) ∧
    (∀ d cl l, v = Some d → d !! cl = Some (RVal (PNum l)) → fle l lmax).
Proof.
  change (needs_one "Cl" v self) with (needs_Cl "Cl" v self).
  unfold needs_Cl. intros H.
  destruct v as [d|]; simpl in H; [|done].
  destruct (res_mapM _ (map_to_list d)) as [values|] eqn:Hvals; simpl in H; [|done].
  destruct (py_max_F values) as [m|] eqn:Hm; simpl in H; [|done].
  destruct (extra_num self "lmax") as [old|] eqn:Hold; simpl in H; [|done].
  match type of H with
  | (?o ≫= _) = _ => destruct o as [old_spectra|] eqn:Hsp; simpl in H; [|done]
  end.
  assert (old_spectra = collector_spectra self) as ->.
  { unfold collector_spectra.
    destruct (odict.get (KStr "Cl") (collectors self)) as [[c|]|]; simplify_eq; try done.
    destruct (kwargs c !! "spectra") as [[[]|]|]; by simplify_eq. }
  injection H as H.
  assert (collector_spectra self'
          = remove_dups
              (collector_spectra self ++ ["total"]
               ++ (if bool_decide ("pp" ∈ (λ kv, lower kv.1) <$> map_to_list d)
                   then ["lens_potential"] else []))) as Hs.
  { rewrite <- H. unfold collector_spectra at 1. simpl.
    rewrite odict_get_put_eq. simpl. by rewrite lookup_insert_eq. }
  assert (extra_args self' !! "lmax" = Some (PNum (fmax m old))) as Hl.
  { rewrite <- H. simpl. apply lookup_insert_eq. }
  clear H Hsp. rewrite Hs. split; [apply NoDup_remove_dups|]. split.
  - intros name. rewrite elem_of_remove_dups, !elem_of_app, list_elem_of_singleton.
    apply or_iff_compat_l, or_iff_compat_l. case_bool_decide as Hpp.
    + rewrite list_elem_of_singleton. split; [|tauto]. intros ->. split; [done|].
      apply list_elem_of_fmap in Hpp as ([cl w] & Hcl & Hin).
      apply elem_of_map_to_list in Hin. exists d, cl. by rewrite Hin.
    + split; [by intros ?%elem_of_nil|].
      intros (_ & d' & cl & [= <-] & [w Hw] & Hcl). exfalso. apply Hpp.
      apply list_elem_of_fmap. exists (cl, w). split; [done|].
      by apply elem_of_map_to_list.
  - exists (fmax m old). split; [done|]. split.
    + intros old' Ho. unfold extra_num in Hold. rewrite Ho in Hold.
      injection Hold as ->. apply fle_fmax_r.
    + intros d' cl l [= <-] Hcl. etrans; [|apply fle_fmax_l].
      apply elem_of_map_to_list in Hcl.
      apply res_mapM_Forall2 in Hvals.
      apply list_elem_of_lookup in Hcl as [j Hj].
      destruct (Forall2_lookup_l _ _ _ _ _ Hvals Hj) as (val & Hval & Hf).
      simpl in Hf. injection Hf as <-.
      apply (proj1 (list.Forall_forall _ _) (py_max_F_ge _ _ Hm)).
      by eapply list_elem_of_lookup_2.
Qed.

End spectra_requirement_properties.

(** ** Parameters that the library fixes *)

Section fixed_facts.
Context {F : Type} `{!Num F} `{!CAMB F}.
Implicit Types (self : theory) (P : gmap string F)
  (args reduced : gmap string (pyval F)).

Lemma check_fixed_Some fixed args reduced name :
  name ∈ fixed → is_Some (args !! name) →
  ∃ f r, check_fixed fixed args reduced = (Some f, r).
Proof.
  revert reduced. induction fixed as [|f fixed IH]; intros reduced Hin Hs.
  - by apply elem_of_nil in Hin.
  - simpl. destruct (decide (is_Some (args !! f))) as [|Hn]; [by eauto|].
    apply elem_of_cons in Hin as [->|Hin]; [done|]. by apply IH.
Qed.

Lemma check_fixed_None fixed args reduced r :
  check_fixed fixed args reduced = (None, r) →
  (∀ k, k ∈ fixed → args !! k = None ∧ r !! k = None) ∧
  (∀ k, k ∉ fixed → r !! k = reduced !! k).
Proof.
  revert reduced. induction fixed as [|f fixed IH]; intros reduced; simpl.
  - intros [= <-]. split; [by intros k ?%elem_of_nil|done].
  - destruct (decide (is_Some (args !! f))) as [|Hn]; [done|].
    intros Hc. destruct (IH _ Hc) as [H1 H2]. split.
    + intros k [->|Hk]%elem_of_cons; [|by apply H1].
      split; [by apply eq_None_not_Some|].
      destruct (decide (f ∈ fixed)) as [Hf|Hf]; [by apply H1|].
      rewrite H2 by done. apply lookup_delete_eq.
    + intros k [Hne Hk]%not_elem_of_cons. rewrite H2 by done.
      by apply lookup_delete_ne.
Qed.

End fixed_facts.

Section fixed_properties.
Context {F : Type} `{!Num F} `{!CAMB F}.
Implicit Types (self : theory) (P : gmap string F).

(** X11: while the base parameters are not built, a point that gives a
    value to an argument of [set_classes], [set_matter_power] or
    [set_for_lmax] makes [set] raise, once the library has accepted the
    arguments. *)
Theorem sampled_fixed_parameter_raises P i self name params0 :
  _base_params self = None →
  camb_set_params None (extra_args self ∪ translate_args self P) = Ok params0 →
  name ∈ set_classes_args ++ set_matter_power_args ++ set_for_lmax_args →
  is_Some (translate_args self P !! name) →
  (set P i self).1 = Err (LoggedError "Trying to sample fixed theory parameter").
Proof.
  intros Hb Hset Hin Hs. unfold set, set_try, prepare_base.
  cbn [_base_params update_state with_states extra_args].
  change (translate_args (update_state i (with_params (Some P)) self) P)
    with (translate_args self P).
  rewrite Hb. cbn [extra_args with_reduced_extra_args count_call with_camb_calls].
  rewrite Hset.
  destruct (check_fixed_Some _ _ (extra_args self) _ Hin Hs) as (f & r & Hc).
  cbn [_reduced_extra_args with_reduced_extra_args count_call with_camb_calls].
  rewrite Hc. done.
Qed.

(** X12: a call of [set] that builds the base parameters leaves in
    [_reduced_extra_args] the extra arguments without those of
    [set_classes], [set_matter_power] and [set_for_lmax], none of which the
    point gives a value to. *)
Theorem reduced_extra_args_have_no_fixed P i self r self' :
  _base_params self = None → set P i self = (r, self') →
  is_Some (_base_params self') →
  ∀ k,
    (k ∈ set_classes_args ++ set_matter_power_args ++ set_for_lmax_args →
     _reduced_extra_args self' !! k = None ∧ translate_args self P !! k = None) ∧
    (k ∉ set_classes_args ++ set_matter_power_args ++ set_for_lmax_args →
     _reduced_extra_args self' !! k = extra_args self !! k).
Proof.
  intros Hb Hs [base Hbuilt]. unfold set, set_try, prepare_base in Hs.
  cbn [_base_params update_state with_states extra_args] in Hs.
  change (translate_args (update_state i (with_params (Some P)) self) P)
    with (translate_args self P) in Hs.
  rewrite Hb in Hs.
  cbn [extra_args _reduced_extra_args with_reduced_extra_args count_call
       with_camb_calls] in Hs.
  destruct (check_fixed _ (translate_args self P) (extra_args self))
    as [sampled reduced] eqn:Hc.
  assert (sampled = None ∧ _reduced_extra_args self' = reduced) as [-> Hred].
  { repeat case_match; simplify_eq; simpl in *; try done; congruence. }
  destruct (check_fixed_None _ _ _ _ Hc) as [H1 H2]. rewrite Hred.
  intros k. split; [intros Hk; destruct (H1 k Hk); by split|apply H2].
Qed.

End fixed_properties.

(** ** Derived parameters *)

Section derived_facts.
Context {F : Type} `{!Num F} `{!CAMB F}.
Implicit Types (self : theory) (P : gmap string F).

Lemma _get_derived_all_loop_spec self im ps acc d :
  _get_derived_all_loop self im ps acc = Ok d →
  ∀ p, (is_Some (d !! p) ↔ p ∈ ps ∨ is_Some (acc !! p)) ∧
       (p ∈ ps → ∃ x, d !! p = Some x ∧
                   _get_derived (translate_param self p) im = Ok (Some x)).
Proof.
  revert acc. induction ps as [|q ps IH]; intros acc; simpl.
  - intros [= <-] p. split; [|by intros ?%elem_of_nil].
    split; [by right|]. by intros [?%elem_of_nil|].
  - intros H.
    destruct (_get_derived (translate_param self q) im) as [[x|]|] eqn:Hq;
      simpl in H; [|done..].
    intros p. destruct (IH _ H p) as [Hkeys Hvals]. split.
    + rewrite Hkeys, elem_of_cons. destruct (decide (p = q)) as [->|Hne].
      * rewrite lookup_insert_eq. split; [by intros; left; left|by eauto].
      * rewrite lookup_insert_ne by done. tauto.
    + intros [->|Hp]%elem_of_cons; [|by apply Hvals].
      destruct (decide (q ∈ ps)) as [Hin|Hnin]; [by apply Hvals|].
      exists x. split; [|done].
      assert (∀ acc' d', _get_derived_all_loop self im ps acc' = Ok d' →
                q ∉ ps → d' !! q = acc' !! q) as Hkeep.
      { clear. induction ps as [|r ps IH]; intros acc' d'; simpl.
        - by intros [= <-].
        - intros H [Hne Hn]%not_elem_of_cons.
          destruct (_get_derived _ _) as [[y|]|]; simpl in H; [|done..].
          rewrite (IH _ _ H Hn). by apply lookup_insert_ne. }
      rewrite (Hkeep _ _ H Hnin). apply lookup_insert_eq.
Qed.

Lemma prepare_derived_keys i camb_params results self d' self' :
  prepare_derived (Some ∅) i camb_params results self = (Ok d', self') →
  ∃ dd, d' = Some dd ∧ ∀ p, is_Some (dd !! p) ↔ p ∈ output_params self.
Proof.
  unfold prepare_derived. rewrite decide_True by done. intros Hp.
  destruct (_get_derived_all self _) as [dd|] eqn:Hd; [|done].
  exists dd. split; [by repeat case_match; simplify_eq|].
  intros p. destruct (_get_derived_all_loop_spec _ _ _ _ _ Hd p) as [Hk _].
  rewrite Hk. split; [|by left].
  intros [?|[? Hx]]; [done|by rewrite lookup_empty in Hx].
Qed.

Lemma compute_new_derived_keys P lasts self i d0 self' :
  compute_new (Some ∅) P lasts self = (inr (i, d0), self') →
  ∃ dd, d0 = Some dd ∧ ∀ p, is_Some (dd !! p) ↔ p ∈ output_params self.
Proof.
  unfold compute_new. intros Hc.
  destruct (_ ≫= _) as [i_state|]; [|by simplify_eq].
  destruct (set P i_state self) as [r1 self1] eqn:Hs.
  apply set_registry in Hs.
  destruct r1 as [[camb_params|]|e]; [|by simplify_eq..].
  destruct (match collectors self1 with [] => _ | _ => _ end) as [r2 self2] eqn:H2.
  assert (same_registry self1 self2) as Hr2.
  { destruct (collectors self1); simplify_eq; same_fields. }
  destruct r2 as [results|e]; [|by simplify_eq].
  destruct (match results with Some _ => _ | None => _ end) as [exit self3] eqn:H3.
  assert (same_registry self2 self3) as Hr3.
  { destruct results; [by apply run_collectors_registry in H3|].
    simplify_eq. same_fields. }
  destruct exit; [|by simplify_eq..].
  destruct (prepare_derived _ _ _ _ _) as [r4 self4] eqn:H4.
  destruct r4 as [d4|]; [|by simplify_eq].
  destruct (prepare_derived_keys _ _ _ _ _ _ H4) as (dd & -> & Hk).
  injection Hc as <- <- <-. exists dd. split; [done|].
  intros p. rewrite Hk.
  assert (output_params self3 = output_params self) as ->; [|done].
  destruct Hr3 as (_ & -> & _). destruct Hr2 as (_ & -> & _).
  by destruct Hs as (_ & -> & _).
Qed.

End derived_facts.

Section derived_properties.
Context {F : Type} `{!Num F} `{!CAMB F}.
Implicit Types (self : theory) (P : gmap string F).

(** X13: the dictionary of derived parameters that [_get_derived_all]
    returns has the output parameters as its keys, each with the value that
    [_get_derived] gives for its translated name. *)
Theorem derived_keys_are_output_params self im d :
  _get_derived_all self im = Ok d →
  (∀ p, is_Some (d !! p) ↔ p ∈ output_params self) ∧
  (∀ p, p ∈ output_params self →
     ∃ x, d !! p = Some x ∧ _get_derived (translate_param self p) im = Ok (Some x)).
Proof.
  unfold _get_derived_all. intros Hd. split.
  - intros p. destruct (_get_derived_all_loop_spec _ _ _ _ _ Hd p) as [Hk _].
    rewrite Hk. split; [|by left].
    intros [?|[? Hx]]; [done|by rewrite lookup_empty in Hx].
  - intros p. by destruct (_get_derived_all_loop_spec _ _ _ _ _ Hd p) as [_ Hv].
Qed.

(** X14: an evaluation that is given the empty dictionary for [_derived]
    and returns 2 hands back a dictionary whose keys are the output
    parameters. *)
Theorem computed_derived_has_output_params cached P self d' self' :
  compute (Some ∅) cached P self = (Return 2 d', self') →
  ∃ dd, d' = Some dd ∧ ∀ p, is_Some (dd !! p) ↔ p ∈ output_params self.
Proof.
  intros Hc.
  destruct (reusable_state cached P self) as [i|] eqn:Hr.
  { destruct (compute_hit (Some ∅) _ _ _ _ Hr) as (m & s & _ & _ & Hc').
    rewrite Hc in Hc'. by injection Hc'. }
  destruct (compute_miss _ _ _ _ _ _ Hr Hc) as (r & self1 & Hn & Hres).
  destruct r as [o'|[i d0]].
  - destruct Hres as [<- ->].
    by destruct (compute_new_inl _ _ _ _ _ _ Hn) as [[=]|[e [=]]].
  - destruct Hres as (m & _ & [= ->] & _).
    by eapply compute_new_derived_keys.
Qed.

End derived_properties.

(** ** Redshifts that are not among those computed *)

Section searchsorted_facts.
Context {F : Type} `{!Num F}.
Implicit Types (a : list F) (v : F).

Lemma np_searchsorted_beyond a v :
  Forall (λ x, flt x v) a → np_searchsorted a v = length a.
Proof.
  induction 1 as [|x a Hx Ha IH]; [done|]. simpl.
  by rewrite decide_True, IH.
Qed.

Lemma np_searchsorted_first a v i x :
  a !! i = Some x → ¬ flt x v →
  (∀ j y, (j < i)%nat → a !! j = Some y → flt y v) →
  np_searchsorted a v = i.
Proof.
  revert i. induction a as [|y a IH]; intros i Hi Hx Hbefore; [done|].
  simpl. destruct i as [|i]; simpl in Hi.
  - injection Hi as ->. by rewrite decide_False.
  - rewrite decide_True by (apply (Hbefore 0%nat); [lia|done]).
    f_equal. apply IH; [done..|].
    intros j z Hj Hz. apply (Hbefore (S j)); [lia|done].
Qed.

End searchsorted_facts.

Section accessor_properties.
Context {F : Type} `{!Num F} `{!CAMB F}.
Implicit Types (self : theory) (P : gmap string F).

Lemma _get_z_dependent_background quantity z self redshifts cs stored :
  quantity ≠ "fsigma8" → collector_z self quantity = Some redshifts →
  current_state self = Ok cs →
  odict.get (KStr quantity) (products cs) = Some (VArr stored) →
  _get_z_dependent quantity z self
  = Fresh <$> np_take stored ((λ zi, np_searchsorted redshifts zi) <$> z).
Proof.
  intros Hq Hz Hcs Hst. unfold _get_z_dependent, collector_z in *.
  rewrite decide_False by done.
  destruct (odict.get (KStr quantity) (collectors self)) as [[c|]|]; [|done..].
  simpl. destruct (kwargs c !! "z") as [[[]|]|]; simplify_eq/=.
  rewrite Hcs. simpl. unfold state_get. by rewrite Hst.
Qed.

(** X15: a background quantity asked at a redshift beyond every one it was
    computed at raises [IndexError]. *)
Theorem redshift_beyond_the_last quantity z0 self redshifts cs stored :
  quantity ≠ "fsigma8" → collector_z self quantity = Some redshifts →
  current_state self = Ok cs →
  odict.get (KStr quantity) (products cs) = Some (VArr stored) →
  (length stored ≤ length redshifts)%nat →
  Forall (λ zi, flt zi z0) redshifts →
  _get_z_dependent quantity [z0] self
  = Err (IndexError "index is out of bounds for axis 0").
Proof.
  intros Hq Hz Hcs Hst Hlen Hall.
  rewrite (_get_z_dependent_background _ _ _ _ _ _ Hq Hz Hcs Hst).
  simpl. rewrite (np_searchsorted_beyond _ _ Hall).
  unfold np_take. simpl. by rewrite (lookup_ge_None_2 stored).
Qed.

(** X16: a background quantity asked at a value that lies between the
    redshifts it was computed at returns the value stored for the first
    redshift that is not below it, without any error. *)
Theorem redshift_between_returns_the_next quantity z0 self redshifts cs stored i zi
    val :
  quantity ≠ "fsigma8" → collector_z self quantity = Some redshifts →
  current_state self = Ok cs →
  odict.get (KStr quantity) (products cs) = Some (VArr stored) →
  StronglySorted fle redshifts →
  redshifts !! i = Some zi → stored !! i = Some val →
  fle z0 zi →
  (∀ j zj, (j < i)%nat → redshifts !! j = Some zj → flt zj z0) →
  _get_z_dependent quantity [z0] self = Ok (Fresh [val]).
Proof.
  intros Hq Hz Hcs Hst _ Hi Hv Hle Hbefore.
  rewrite (_get_z_dependent_background _ _ _ _ _ _ Hq Hz Hcs Hst).
  simpl. rewrite (np_searchsorted_first _ _ i zi Hi); [|..|done].
  - unfold np_take. simpl. by rewrite Hv.
  - intros [Hzi Hne]. apply Hne. by apply (anti_symm fle).
Qed.

(** X17: an interpolator asked for a second time is the stored one: the call
    returns what the first returned and changes nothing. *)
Theorem interpolator_asked_twice var_pair nonlinear extrap_kmax self h self1 :
  get_Pk_interpolator var_pair nonlinear extrap_kmax self = (Ok h, self1) →
  get_Pk_interpolator var_pair nonlinear extrap_kmax self1 = (Ok h, self1).
Proof.
  intros H1.
  destruct (get_Pk_interpolator_memo _ _ _ _ _ _ H1) as (i & Hf & Hh).
  destruct (Hh h eq_refl) as (-> & Hi & s' & Hs' & Hkey).
  assert (current_index self1 = Ok i) as Hi1.
  { unfold current_index in *.
    erewrite (lasts_of_frame i _ self self1); [done| |exact Hf].
    by intros s t (_ & _ & _ & ? & _). }
  unfold get_Pk_interpolator. rewrite Hi1, Hs'.
  assert (odict.mem (KPk_interpolator nonlinear extrap_kmax var_pair.1 var_pair.2)
            (products s') = true) as ->; [|done].
  apply odict_mem_true. by apply odict_get_is_Some.
Qed.

(** X18: after an evaluation that returns 1 or 2, the matter power spectrum
    of every pair of variables that has a collector is there: [get_matter_power]
    returns the tuple stored in the current state. *)
Theorem registered_pair_is_retrievable d cached P self st d' self' nonlinear a b :
  compute d cached P self = (Return st d', self') → st ≠ 0 →
  Kmatter_power_spectrum nonlinear a b ∈ odict.keys (collectors self) →
  (nonlinear = true → non_linear_pk self = true) →
  ∃ i, current_index self' = Ok i ∧
    get_matter_power (a, b) nonlinear None self'
    = Ok (Stored i (Kmatter_power_spectrum nonlinear a b)).
Proof.
  intros Hc Hst Hk Hnl.
  destruct (compute_success _ _ _ _ _ _ _ Hc Hst)
    as (Hcoll & i & s & Hs & Hp & Hhas & Hl & Hothers & _).
  pose proof (current_index_of_one _ _ _ Hs Hl Hothers) as Hi.
  exists i. split; [done|]. unfold get_matter_power.
  assert (non_linear_pk self' = non_linear_pk self) as ->.
  { apply compute_registry in Hc. apply Hc. }
  assert (nonlinear && negb (non_linear_pk self) = false) as ->.
  { destruct nonlinear; [|done]. by rewrite Hnl. }
  rewrite Hi. simpl. rewrite Hs. simpl.
  assert (odict.mem (Kmatter_power_spectrum nonlinear a b) (products s) = true)
    as ->; [|done].
  apply odict_mem_true. apply (proj1 (has_products_spec _ _) Hhas).
  by rewrite Hcoll.
Qed.

End accessor_properties.

(** ** The collectors of the matter power spectrum *)

Section pair_facts.
Context {F : Type} `{!Num F} `{!CAMB F}.
Implicit Types (self : theory) (v : option (gmap string (rfield F))).

Lemma foldl_set_collector_get {A} (f : A → ckey F) (c : option (Collector F))
    (l : list A) self a :
  a ∈ l →
  odict.get (f a) (collectors (foldl (λ self a, set_collector (f a) c self) self l))
  = Some c.
Proof.
  revert self. induction l as [|b l IH] using rev_ind; intros self Hin.
  - by apply elem_of_nil in Hin.
  - rewrite foldl_app. simpl. destruct (decide (f b = f a)) as [Heq|Hne].
    + rewrite Heq. apply odict_get_put_eq.
    + rewrite odict_get_put_ne by done. apply IH.
      apply elem_of_app in Hin as [Hin|Hin]; [done|].
      apply list_elem_of_singleton in Hin. by subst.
Qed.

Lemma shared_kwargs_last (kw : gmap string (rfield F)) (pairs : list (string * string))
    pair :
  list.last pairs = Some pair →
  foldl (λ kw (pair : string * string),
           <["var2" := RVal (PStr pair.2)]> (<["var1" := RVal (PStr pair.1)]> kw))
    kw pairs !! "var1" = Some (RVal (PStr pair.1)) ∧
  foldl (λ kw (pair : string * string),
           <["var2" := RVal (PStr pair.2)]> (<["var1" := RVal (PStr pair.1)]> kw))
    kw pairs !! "var2" = Some (RVal (PStr pair.2)).
Proof.
  destruct pairs as [|p0 ps] using rev_ind; [done|].
  rewrite last_snoc. intros [= ->]. rewrite foldl_app. simpl. split.
  - rewrite lookup_insert_ne by done. apply lookup_insert_eq.
  - apply lookup_insert_eq.
Qed.

Lemma pair_collectors_get kw nonlinear pairs self a b last_pair :
  (a, b) ∈ pairs → list.last pairs = Some last_pair →
  ∃ c, odict.get (Kmatter_power_spectrum nonlinear a b)
         (collectors (pair_collectors kw nonlinear pairs self)) = Some (Some c) ∧
       kwargs c !! "var1" = Some (RVal (PStr last_pair.1)) ∧
       kwargs c !! "var2" = Some (RVal (PStr last_pair.2)).
Proof.
  intros Hin Hlast. unfold pair_collectors. eexists. split.
  - apply (foldl_set_collector_get
             (λ pair : string * string,
                Kmatter_power_spectrum nonlinear pair.1 pair.2) _ pairs self (a, b) Hin).
  - simpl. by apply shared_kwargs_last.
Qed.

End pair_facts.

Section needs_properties.
Context {F : Type} `{!Num F} `{!CAMB F}.
Implicit Types (self : theory) (v : option (gmap string (rfield F))).

(** X19: a requirement of the matter power spectrum for several pairs of
    variables registers one collector for each pair, and every one of them
    holds the variables of the last pair as its [var1] and [var2]: the loop
    hands the one dictionary it keeps updating to all of them. *)
Theorem pair_collectors_share_the_last_pair k d pairs last_pair self self' :
  k = "Pk_interpolator" ∨ k = "matter_power_spectrum" →
  needs_one k (Some d) self = Ok self' →
  d !! "vars_pairs" = Some (RVal (PPairs pairs)) →
  list.last pairs = Some last_pair →
  ∀ a b, (a, b) ∈ pairs →
    ∃ c, odict.get
           (Kmatter_power_spectrum (from_option truthy true (d !! "nonlinear")) a b)
           (collectors self') = Some (Some c) ∧
         kwargs c !! "var1" = Some (RVal (PStr last_pair.1)) ∧
         kwargs c !! "var2" = Some (RVal (PStr last_pair.2)).
Proof.
  intros Hk H Hvp Hlast a b Hin.
  assert (needs_one k (Some d) self = needs_Pk k (Some d) self) as Hone.
  { unfold needs_one. by destruct Hk as [-> | ->]. }
  rewrite Hone in H. clear Hone. unfold needs_Pk in H.
  ok_bind H. simpl in E3. rewrite Hvp in E3. injection E3 as <-.
  assert (truthy (RVal (PPairs pairs)) = true) as Ht.
  { simpl. apply bool_decide_eq_true. by intros ->. }
  rewrite Ht in H. destruct (_ || _); [done|]. ok_bind H.
  injection H as <-.
  rewrite !lookup_insert_ne by done.
  destruct (from_option truthy true (d !! "nonlinear"));
    cbn [collectors with_needs_perts]; by apply pair_collectors_get.
Qed.

(** X20: declaring requirements changes no state of the cache, whatever
    they hold, and leaves the base parameters to be built again. *)
Theorem needs_keeps_the_cache reqs self self' :
  needs reqs self = Ok self' →
  _states self' = _states self ∧ _base_params self' = None.
Proof.
  intros H. split; [by eapply needs_states|].
  unfold needs, needs_finish in H. ok_bind H.
  destruct (decide _); [done|]. ok_bind H. by simplify_eq.
Qed.


End needs_properties.

(** ** The results object *)

Section CAMBdata_facts.
Context {F : Type} `{!Num F} `{!CAMB F}.
Implicit Types (self : theory) (s : slot) (v : option (gmap string (rfield F)))
  (K : ckey F).

Lemma odict_put_elem {A B} `{EqDecision A} (k k' : A) (x x' : B) (d : list (A * B)) :
  (k', x') ∈ odict.put k x d → (k', x') ∈ d ∨ (k', x') = (k, x).
Proof.
  induction d as [|[k0 x0] d IH]; simpl.
  - intros ?%list_elem_of_singleton. by right.
  - destruct (decide (k0 = k)) as [->|Hne].
    + intros [->|Hin]%elem_of_cons; [by right|]. left. by right.
    + intros [->|Hin]%elem_of_cons; [left; by left|].
      destruct (IH Hin) as [?|?]; [left; by right|by right].
Qed.

Lemma unset_same K self self' :
  collectors self' = collectors self → unset K self → unset K self'.
Proof. unfold unset. by intros ->. Qed.

Lemma unset_set_collector K k c self :
  (k ≠ K ∨ c = None) → unset K self → unset K (set_collector k c self).
Proof.
  unfold unset, set_collector. simpl. intros Hk Hu c' Hin.
  apply odict_put_elem in Hin as [Hin|[= <- <-]]; [by eapply Hu|].
  by destruct Hk.
Qed.

Lemma unset_pair_collectors K kw nonlinear pairs self :
  (∀ a b, K ≠ Kmatter_power_spectrum nonlinear a b) →
  unset K self → unset K (pair_collectors kw nonlinear pairs self).
Proof.
  intros HK. unfold pair_collectors. generalize (foldl
    (λ kw0 (pair : string * string),
       <["var2":=RVal (PStr pair.2)]> (<["var1":=RVal (PStr pair.1)]> kw0)) kw pairs).
  intros shared. revert self.
  induction pairs as [|p ps IH]; intros self Hu; simpl; [done|].
  apply IH. apply unset_set_collector; [left|done]. by intros <-; eapply HK.
Qed.

Lemma needs_one_unset k v self self' :
  needs_one k v self = Ok self' →
  unset (KStr "CAMBdata") self → unset (KStr "CAMBdata") self'.
Proof.
  unfold needs_one. intros H Hu.
  destruct (decide (k = "Cl")) as [->|].
  { unfold needs_Cl in H. ok_bind H. injection H as <-.
    intros c Hin. simpl in Hin.
    apply odict_put_elem in Hin as [Hin|Hin]; [by eapply Hu|by simplify_eq]. }
  destruct (decide (k = "H")) as [->|].
  { unfold needs_H in H. ok_bind H. unfold needs_background in E. ok_bind E.
    simplify_eq. intros c Hin. simpl in Hin.
    apply odict_put_elem in Hin as [Hin|Hin]; [by eapply Hu|by simplify_eq]. }
  destruct (decide (k = "angular_diameter_distance")) as [->|].
  { unfold needs_background in H. ok_bind H. simplify_eq.
    by apply unset_set_collector; [left|]. }
  destruct (decide (k = "comoving_radial_distance")) as [->|].
  { unfold needs_background in H. ok_bind H. simplify_eq.
    by apply unset_set_collector; [left|]. }
  destruct (decide (k = "fsigma8")) as [->|].
  { unfold needs_fsigma8 in H. ok_bind H. simplify_eq.
    destruct (add_to_redshifts_spec _ _ _ E0) as (_ & _ & Hc & _).
    intros c Hin. simpl in Hin. rewrite Hc in Hin.
    apply odict_put_elem in Hin as [Hin|Hin]; [by eapply Hu|by simplify_eq]. }
  destruct (decide (k = "Pk_interpolator" ∨ k = "matter_power_spectrum")).
  { unfold needs_Pk in H. ok_bind H.
    destruct (add_to_redshifts_spec _ _ _ E2) as (_ & _ & Hc & _).
    destruct (_ || _); [done|]. ok_bind H. injection H as <-.
    eapply unset_same; [|apply unset_pair_collectors; [done|]]; [reflexivity|].
    destruct (from_option truthy true _);
      (eapply unset_same; [|exact Hu]); simpl; by rewrite Hc. }
  destruct (decide (k = "source_Cl")) as [->|].
  { unfold needs_source_Cl in H. ok_bind H. injection H as <-.
    intros c Hin. simpl in Hin.
    apply odict_put_elem in Hin as [Hin|Hin]; [|by simplify_eq].
    assert (collectors a3 = collectors self) as Hc.
    { destruct (_ !! "lmax"); [|by simplify_eq]. ok_bind E3. by simplify_eq. }
    rewrite Hc in Hin. by eapply Hu. }
  destruct (decide (k = "CAMBdata")) as [->|].
  { injection H as <-. by apply unset_set_collector; [right|]. }
  destruct v; [done|]. unfold needs_derived in H.
  eapply unset_same; [|exact Hu].
  destruct (bool_decide _), (decide _); by simplify_eq.
Qed.

Lemma needs_loop_unset items self self' :
  needs_loop items self = Ok self' →
  unset (KStr "CAMBdata") self → unset (KStr "CAMBdata") self'.
Proof.
  revert self. induction items as [|[k v] items IH]; intros self; simpl.
  - by intros [= <-].
  - intros H Hu. ok_bind H. eapply IH; [exact H|]. by eapply needs_one_unset.
Qed.

Lemma needs_unset reqs self self' :
  needs reqs self = Ok self' →
  unset (KStr "CAMBdata") self → unset (KStr "CAMBdata") self'.
Proof.
  unfold needs, needs_finish. intros H Hu. ok_bind H.
  apply needs_loop_unset in E0; [|by eapply unset_same; [|exact Hu]].
  destruct (decide _); [done|]. ok_bind H. injection H as <-.
  eapply unset_same; [|exact E0]. by destruct (negb _).
Qed.

Lemma no_new_refl K s : no_new K s s.
Proof. by unfold no_new. Qed.

Lemma no_new_trans K s1 s2 s3 : no_new K s1 s2 → no_new K s2 s3 → no_new K s1 s3.
Proof. unfold no_new. auto. Qed.

Lemma keep_no_new K s s' : keep_rel s s' → no_new K s s'.
Proof. unfold keep_rel, no_new. intros (_ & _ & ->). done. Qed.

Lemma run_collectors_no_new K results i cs self exit self' :
  (∀ c, (K, Some c) ∉ cs) →
  run_collectors results i cs self = (exit, self') →
  frame i (no_new K) self self'.
Proof.
  revert self. induction cs as [|[product [collector|]] cs IH]; intros self HK; simpl.
  - intros [= <- <-]. apply frame_refl, no_new_refl.
  - assert (product ≠ K) as Hne.
    { intros ->. apply (HK collector). by left. }
    assert (∀ c, (K, Some c) ∉ cs) as HK'.
    { intros c Hin. apply (HK c). by right. }
    assert (∀ w self1, frame i (no_new K) self self1 →
              frame i (no_new K) self (store_product i product w self1)) as Hstore.
    { intros w self1 Hf. eapply frame_trans; [apply no_new_trans|exact Hf|].
      apply frame_update_state. intros s. unfold no_new. simpl.
      by rewrite odict_get_put_ne. }
    intros Hrun.
    destruct (method collector) as [m|].
    + destruct (call_method _ _ _ _) as [w|e].
      * eapply frame_trans; [apply no_new_trans| |eapply IH; [done|exact Hrun]].
        apply Hstore. apply frame_fields; [apply no_new_refl|done..].
      * assert (self' = count_call self) as ->.
        { repeat case_match; by simplify_eq. }
        apply frame_fields; [apply no_new_refl|done..].
    + eapply frame_trans; [apply no_new_trans| |eapply IH; [done|exact Hrun]].
      apply Hstore, frame_refl, no_new_refl.
  - intros [= <- <-]. apply frame_refl, no_new_refl.
Qed.

Lemma compute_new_no_new K d P self r self' i :
  unset K self → oldest self = Ok i →
  compute_new d P (lasts_of self) self = (r, self') →
  frame i (no_new K) self self'.
Proof.
  unfold compute_new, oldest. intros HK Ho Hc. rewrite Ho in Hc.
  destruct (set P i self) as [rs self1] eqn:Hset.
  pose proof (set_frame _ _ _ _ _ Hset) as Hf1.
  assert (frame i (no_new K) self self1) as Hn1.
  { eapply frame_weaken; [|exact Hf1]. unfold set_rel, no_new.
    by intros s s' (_ & _ & ->). }
  destruct rs as [[camb_params|]|e]; simplify_eq; [|done..].
  destruct (match collectors self1 with [] => _ | _ => _ end) as [rr self2] eqn:Hres.
  assert (frame i (no_new K) self1 self2) as Hn2.
  { destruct (collectors self1); simplify_eq.
    - apply frame_refl, no_new_refl.
    - apply frame_fields; [apply no_new_refl|done..]. }
  assert (collectors self2 = collectors self) as Hc2.
  { destruct Hf1 as (Hc1 & _), Hn2 as (Hc2' & _). congruence. }
  assert (frame i (no_new K) self self2) as Hn12.
  { eapply frame_trans; [apply no_new_trans|exact Hn1|exact Hn2]. }
  destruct rr as [results|e]; simplify_eq; [|done].
  destruct (match results with Some _ => _ | None => _ end) as [exit self3] eqn:Hrun.
  assert (frame i (no_new K) self self3) as Hn3.
  { destruct results as [dres|]; simplify_eq; [|done].
    eapply frame_trans; [apply no_new_trans|exact Hn12|].
    eapply run_collectors_no_new; [|exact Hrun]. by rewrite Hc2. }
  destruct exit; simplify_eq; [|done..].
  destruct (prepare_derived d i camb_params results self3) as [rd self4] eqn:Hd.
  apply prepare_derived_frame in Hd.
  assert (frame i (no_new K) self self4).
  { eapply frame_trans; [apply no_new_trans|exact Hn3|].
    eapply frame_weaken; [apply keep_no_new|exact Hd]. }
  destruct rd; by simplify_eq.
Qed.

(** From a change confined to one state to every state. *)
Lemma frame_no_new K i self self' :
  frame i (no_new K) self self' →
  (∀ j t, _states self !! j = Some t → odict.get K (products t) = None) →
  ∀ j t', _states self' !! j = Some t' → odict.get K (products t') = None.
Proof.
  intros (_ & _ & Hlen & Hsame & Hi) Hall j t' Ht'.
  destruct (decide (j = i)) as [->|Hne].
  - destruct (_states self !! i) as [t|] eqn:Ht.
    + destruct (Hi t eq_refl) as (s' & Hs' & Hn). simplify_eq.
      apply Hn. by eapply Hall.
    + apply lookup_ge_None in Ht. rewrite <-Hlen in Ht.
      apply lookup_ge_None in Ht. congruence.
  - rewrite Hsame in Ht' by done. by eapply Hall.
Qed.

Lemma compute_no_CAMBdata d cached P self o self' :
  compute d cached P self = (o, self') → no_CAMBdata self → no_CAMBdata self'.
Proof.
  intros Hc [Hu Hall].
  destruct (compute_slots _ _ _ _ _ _ Hc) as (Hcoll & _ & _).
  split; [by eapply unset_same|].
  destruct (reusable_state cached P self) as [i|] eqn:Hr.
  - destruct (compute_hit d _ _ _ _ Hr) as (m & s & _ & _ & Hc').
    rewrite Hc in Hc'. injection Hc' as _ ->.
    intros j t' (t & Ht & _ & -> & _)%hit_state_slot. by eapply Hall.
  - destruct (compute_miss _ _ _ _ _ _ Hr Hc) as (r & self1 & Hn & Hres).
    assert (∀ j t, _states self1 !! j = Some t →
              odict.get (KStr "CAMBdata") (products t) = None) as Hall1.
    { pose proof (compute_new_spec _ _ _ _ _ Hn) as Hspec.
      destruct (oldest self) as [i|] eqn:Ho.
      - eapply frame_no_new; [|exact Hall]. by eapply compute_new_no_new.
      - by destruct Hspec as [_ ->]. }
    destruct r as [o'|[i d0]].
    + by destruct Hres as [_ ->].
    + destruct Hres as (m & _ & _ & -> & _).
      intros j t' (t & Ht & _ & -> & _)%hit_state_slot. by eapply Hall1.
Qed.

Lemma get_Pk_interpolator_no_CAMBdata var_pair nonlinear extrap_kmax self r self' :
  get_Pk_interpolator var_pair nonlinear extrap_kmax self = (r, self') →
  no_CAMBdata self → no_CAMBdata self'.
Proof.
  intros Hg [Hu Hall].
  destruct (get_Pk_interpolator_memo _ _ _ _ _ _ Hg) as (i & Hf & _).
  split; [eapply unset_same; [apply Hf|exact Hu]|].
  eapply frame_no_new; [|exact Hall].
  eapply frame_weaken; [|exact Hf]. unfold memo_rel, no_new.
  intros s s' (_ & _ & _ & _ & [->|(result & _ & ->)]); [done|].
  by rewrite odict_get_put_ne.
Qed.

Lemma session_no_CAMBdata self0 self :
  no_CAMBdata self0 → session self0 self → no_CAMBdata self.
Proof.
  intros H0. induction 1 as [|self reqs self' _ IH Hn|self d cached P o self' _ IH Hc
                            |self vp nl ek r self' _ IH Hg].
  - done.
  - destruct IH as [Hu Hall]. split; [by eapply needs_unset|].
    rewrite (needs_states _ _ _ Hn). exact Hall.
  - by eapply compute_no_CAMBdata.
  - by eapply get_Pk_interpolator_no_CAMBdata.
Qed.

End CAMBdata_facts.

Section CAMBdata_properties.
Context {F : Type} `{!Num F} `{!CAMB F}.
Implicit Types (self : theory).

(** X22: from an object without collectors and with empty states, as
    [initialize] leaves it, no sequence of requirements, evaluations and
    requests for interpolators leads to an object on which [get_CAMBdata]
    returns: the requirement of ["CAMBdata"] registers [None] in place of a
    collector, so no state ever holds a result under that key. *)
Theorem get_CAMBdata_never_returns self0 self :
  collectors self0 = [] → fresh_cache self0 → session self0 self →
  ∃ e, get_CAMBdata self = Err e.
Proof.
  intros Hc Hfresh Hs.
  assert (no_CAMBdata self0) as H0.
  { split.
    - intros c. rewrite Hc. apply not_elem_of_nil.
    - intros j t. rewrite Hfresh. intros [-> _]%lookup_replicate. done. }
  destruct (session_no_CAMBdata _ _ H0 Hs) as [_ Hall].
  unfold get_CAMBdata, current_state.
  destruct (current_index self) as [i|e]; simpl; [|by eexists].
  destruct (_states self !! i) as [s|] eqn:Hi; simpl; [|by eexists].
  rewrite (Hall i s Hi). by eexists.
Qed.

End CAMBdata_properties.

(** ** Source windows *)

Section window_facts.
Context {F : Type} `{!Num F} `{!CAMB F}.
Implicit Types (self : theory) (P : gmap string F).

Lemma build_windows_Ok srcs ws srcs' :
  build_windows srcs = (Ok ws, srcs') → srcs' = srcs ∧ length ws = length srcs.
Proof.
  revert ws srcs'. induction srcs as [|[source window] srcs IH]; intros ws srcs'; simpl.
  - by intros [= <- <-].
  - intros H.
    destruct (if decide (default PNone (window !! "function") = PStr "spline")
              then _ else _) as [w|e] eqn:Hb; [|done].
    destruct (build_windows srcs) as [r rest'] eqn:Hrest.
    destruct r as [ws'|e]; [|done]. simpl in H. injection H as <- <-.
    destruct (IH _ _ eq_refl) as [-> Hlen]. split; [|by simpl; rewrite length_fmap || rewrite Hlen].
    f_equal. f_equal. apply insert_delete_id.
    destruct (window !! "function") as [f|]; [done|].
    simpl in Hb. by repeat case_decide.
Qed.

End window_facts.

Section more_properties.
Context {F : Type} `{!Num F} `{!CAMB F}.
Implicit Types (self : theory) (P : gmap string F).
#[local] Arguments build_windows : simpl never.


(** X24: a call of [set] that returns parameters leaves the source windows
    as it found them: the function of each window, taken out of its
    dictionary while the window is built, is put back. *)
Theorem set_restores_the_sources P i self camb_params self' :
  set P i self = (Ok (Some camb_params), self') → sources self' = sources self.
Proof.
  unfold set, set_try, prepare_base. intros Hs. simpl in Hs.
  destruct (_base_params self) as [base|].
  { repeat case_match; simplify_eq; simpl in *; congruence. }
  destruct (camb_set_params None _) as [params0|e].
  2:{ repeat case_match; simplify_eq; simpl in *; congruence. }
  destruct (check_fixed _ _ _) as [sampled reduced].
  destruct sampled; [repeat case_match; simplify_eq; simpl in *; congruence|].
  destruct (set_attrs _ _) as [params1|e];
    [|repeat case_match; simplify_eq; simpl in *; congruence].
  destruct (sources self) as [[|w ws]|] eqn:Hsrc.
  { repeat case_match; simplify_eq; simpl in *; congruence. }
  2:{ repeat case_match; simplify_eq; simpl in *; congruence. }
  destruct (build_windows (w :: ws)) as [built srcs] eqn:Hb.
  destruct built as [source_windows|e];
    [|repeat case_match; simplify_eq; simpl in *; congruence].
  apply build_windows_Ok in Hb as [-> _].
  repeat case_match; simplify_eq; simpl in *; congruence.
Qed.

(** X25: in a cache used with caching on from its three empty states, a
    point whose evaluation returned 1 or 2 is found again at once: the next
    evaluation of it returns 1 and makes no call into the library. *)
Theorem same_point_again self0 self A d1 st1 d1' self1 d2 :
  fresh_cache self0 → reachable self0 self →
  compute d1 true A self = (Return st1 d1', self1) → st1 ≠ 0 →
  ∃ d2' self2, compute d2 true A self1 = (Return 1 d2', self2) ∧
               camb_calls self2 = camb_calls self1.
Proof.
  intros Hfresh Hreach H1 Hst.
  pose proof (reachable_inv _ _ (fresh_cache_inv _ Hfresh) Hreach) as Hinv.
  pose proof (compute_preserves_inv _ _ _ _ _ Hinv H1) as [Hu1 _].
  destruct (compute_success _ _ _ _ _ _ _ H1 Hst)
    as (_ & iA & sA & HsA & HpA & HhA & _).
  assert (reusable_state true A self1 = Some iA) as Hr.
  { apply reusable_state_spec. split; [done|]. split; [|by exists sA].
    apply find_state_spec. exists sA. split; [done|]. split; [done|].
    intros j t Hj Ht Hpt. assert (j = iA); [|lia].
    by apply (Hu1 j iA t sA A). }
  destruct (compute_hit d2 _ _ _ _ Hr) as (m & s & _ & _ & Hc).
  by eexists _, _.
Qed.

End more_properties.

Section derived_requirement_properties.
Context {F : Type} `{!Num F} `{!CAMB F}.
Implicit Types (self : theory).

(** X26: a derived parameter asked for as a requirement is kept under its
    translated name, once: the list stays without repetition, and asking
    for the parameter again changes nothing. *)
Theorem derived_parameter_declared_twice k self self1 :
  k ∉ ["Cl"; "H"; "angular_diameter_distance"; "comoving_radial_distance";
       "fsigma8"; "Pk_interpolator"; "matter_power_spectrum"; "source_Cl";
       "CAMBdata"] →
  needs_one k None self = Ok self1 →
  translate_param self k ∈ derived_extra_names self1 ∧
  (NoDup (derived_extra_names self) → NoDup (derived_extra_names self1)) ∧
  needs_one k None self1 = Ok self1.
Proof.
  intros Hk.
  assert (∀ s, needs_one k None s = needs_derived k s) as Hone.
  { intros s. unfold needs_one.
    repeat (destruct (decide _) as [Hd|_];
            [exfalso; apply Hk; apply list_elem_of_In; simpl;
             try destruct Hd as [Hd|Hd]; rewrite Hd; tauto|]).
    done. }
  rewrite !Hone. unfold needs_derived. intros H.
  assert (translate_param self1 k = translate_param self k) as Ht.
  { unfold translate_param.
    destruct (bool_decide _), (decide _); by simplify_eq. }
  rewrite Ht.
  assert (translate_param self k ∈ derived_extra_names self1) as Hin.
  { case_bool_decide as Hb; destruct (decide _); simplify_eq; simpl; try done;
      apply elem_of_app; right; by left. }
  split; [done|]. split.
  - intros Hnd. case_bool_decide as Hb.
    + destruct (decide _); by simplify_eq.
    + assert (NoDup (derived_extra_names self ++ [translate_param self k])).
      { apply list.NoDup_app. split; [done|].
        split; [by intros x Hx ->%list_elem_of_singleton|apply NoDup_singleton]. }
      destruct (decide _); by simplify_eq.
  - rewrite bool_decide_eq_true_2 by done.
    destruct (decide (k = "sigma8")) as [->|]; [|done].
    f_equal. apply theory_eq; try reflexivity.
    all: case_bool_decide; simplify_eq; simpl; try done.
    all: try by rewrite odict_put_put.
Qed.

End derived_requirement_properties.

(** ** The cache driver on the stand-in library *)

Lemma pA_ne_pB : pA ≠ pB.
Proof. intros H. apply (f_equal (λ m, m !! "H0")) in H. vm_compute in H. done. Qed.

Lemma pA_ne_pC : pA ≠ pC.
Proof. intros H. apply (f_equal (λ m, m !! "H0")) in H. vm_compute in H. done. Qed.

Lemma pA_ne_pE : pA ≠ pE.
Proof. intros H. apply (f_equal (λ m, m !! "H0")) in H. vm_compute in H. done. Qed.

Lemma cached_params_unique_witness :
  unique_params
    (compute None true pA (compute None true pD (compute None true pA toy_H).2).2).2.
Proof.
  apply (cached_params_unique toy_H).
  - reflexivity.
  - eapply reachable_compute; [|apply surjective_pairing].
    eapply reachable_compute; [|apply surjective_pairing].
    eapply reachable_compute; [|apply surjective_pairing].
    apply reachable_refl.
Defined.

(** C5, the claim as stated fails: an evaluation with caching off of a point
    that the cache already holds stores it in a second state. *)
Lemma uncached_evaluation_duplicates :
  ¬ unique_params (compute None false pA (compute None true pA toy_H).2).2.
Proof.
  intros Hu.
  assert (0 = 1)%nat; [|done].
  apply (unique_params_lookup _ 0 1 pA Hu); vm_compute; reflexivity.
Qed.

Lemma hit_after_A_B_A_witness :
  ∃ self3,
    compute (Some ∅) true pA
      (compute None true pB (compute (Some ∅) true pA toy_H).2).2 =
    (Return 1 (Some {[ "H0" := 67 ]}), self3) ∧
    camb_calls self3 =
    camb_calls (compute None true pB (compute (Some ∅) true pA toy_H).2).2.
Proof.
  apply (hit_after_A_B_A toy_H toy_H pA pB None true 2 (Some {[ "H0" := 67 ]})
           (compute (Some ∅) true pA toy_H).2
           (compute None true pB (compute (Some ∅) true pA toy_H).2).1
           (compute None true pB (compute (Some ∅) true pA toy_H).2).2).
  - reflexivity.
  - apply reachable_refl.
  - apply pA_ne_pB.
  - apply pair_eta_fst. vm_compute. reflexivity.
  - done.
  - apply surjective_pairing.
Defined.

Lemma new_requirement_forces_miss_witness :
  reusable_state true pA toy_fsigma8_then_H = None ∧
  (∀ d', (compute None true pA toy_fsigma8_then_H).1 ≠ Return 1 d') ∧
  (camb_calls toy_fsigma8_then_H
   < camb_calls (compute None true pA toy_fsigma8_then_H).2)%nat.
Proof.
  apply (new_requirement_forces_miss toy_fsigma8 toy_fsigma8 pA None
           (compute None true pA toy_fsigma8).1 (compute None true pA toy_fsigma8).2
           [("H", Some {[ "z" := RVal (PArr [0; 2; 4]) ]})] toy_fsigma8_then_H
           (KStr "H") None
           (compute None true pA toy_fsigma8_then_H).1
           (compute None true pA toy_fsigma8_then_H).2).
  - reflexivity.
  - apply reachable_refl.
  - apply surjective_pairing.
  - apply res_eta. vm_compute. reflexivity.
  - apply list_elem_of_In. vm_compute. auto.
  - intros Hin%list_elem_of_In. vm_compute in Hin. intuition discriminate.
  - apply surjective_pairing.
Defined.

Local Notation "self ▷ p" := ((compute None true p self).2)
  (at level 50, left associativity, only parsing).

Lemma fourth_point_evicts_first_witness :
  params <$> _states (toy_H ▷ pA ▷ pB ▷ pC) = [Some pA; Some pB; Some pC] ∧
  lasts_of (toy_H ▷ pA ▷ pB ▷ pC) = [-1; 0; 1] ∧
  oldest (toy_H ▷ pA ▷ pB ▷ pC) = Ok 0%nat ∧
  params <$> _states (toy_H ▷ pA ▷ pB ▷ pC ▷ pE) = [Some pE; Some pB; Some pC] ∧
  (∀ s3 s4 k,
     _states (toy_H ▷ pA ▷ pB ▷ pC) !! 0%nat = Some s3 →
     _states (toy_H ▷ pA ▷ pB ▷ pC ▷ pE) !! 0%nat = Some s4 →
     k ∈ odict.keys (products s3) → k ∈ odict.keys (products s4)) ∧
  (∀ d o self5,
     compute d true pA (toy_H ▷ pA ▷ pB ▷ pC ▷ pE) = (o, self5) →
     reusable_state true pA (toy_H ▷ pA ▷ pB ▷ pC ▷ pE) = None ∧
     (∀ x, o ≠ Return 1 x) ∧
     (camb_calls (toy_H ▷ pA ▷ pB ▷ pC ▷ pE) < camb_calls self5)%nat).
Proof.
  apply (fourth_point_evicts_first toy_H pA pB pC pE None None None None
           None None None None
           (toy_H ▷ pA) (toy_H ▷ pA ▷ pB)).
  - reflexivity.
  - apply pA_ne_pB.
  - apply pA_ne_pC.
  - apply pA_ne_pE.
  - apply pair_eta_fst. vm_compute. reflexivity.
  - apply pair_eta_fst. vm_compute. reflexivity.
  - apply pair_eta_fst. vm_compute. reflexivity.
  - apply pair_eta_fst. vm_compute. reflexivity.
Defined.

(** C4, the claim as stated fails: taking a state for a new point does not
    clear its results.  After three evaluations the first state holds the
    results of [pA]; once [set] has stored a fourth point in it, they are
    still there. *)
Lemma acquisition_keeps_results :
  oldest (run_computes [pA; pB; pC] toy_H) = Ok 0%nat ∧
  (params <$> _states (set pE 0 (run_computes [pA; pB; pC] toy_H)).2) !! 0%nat
  = Some (Some pE) ∧
  (products <$> _states (set pE 0 (run_computes [pA; pB; pC] toy_H)).2) !! 0%nat
  = Some [(KStr "H", VArr [67; 69; 71])].
Proof. repeat split; vm_compute; reflexivity. Qed.

(** C1, the code at the failing input.  With the collector of [H] registered
    and three points computed, the out-of-range point [pD] makes [compute]
    return 0 without raising; but the state it took then holds [pD] together
    with the results and derived parameters of [pA], so the next evaluation
    of [pD] returns 1 with the derived parameters of [pA] and the accessors
    serve the quantities of [pA]. *)
Theorem rejected_point_is_served_as_hit :
  (params <$> _states toy_ABC) = [Some pA; Some pB; Some pC] ∧
  (compute (Some ∅) true pD toy_ABC).1 = Return 0 (Some ∅) ∧
  params <$> _states (compute (Some ∅) true pD toy_ABC).2
  = [Some pD; Some pB; Some pC] ∧
  (products <$> _states (compute (Some ∅) true pD toy_ABC).2) !! 0%nat
  = Some [(KStr "H", VArr [67; 69; 71])] ∧
  (compute (Some ∅) true pD (compute (Some ∅) true pD toy_ABC).2).1
  = Return 1 (Some {[ "H0" := 67 ]}) ∧
  get_H [0] "1/Mpc" (compute (Some ∅) true pD (compute (Some ∅) true pD toy_ABC).2).2
  = Ok (Fresh [67]).
Proof. repeat split; vm_compute; reflexivity. Qed.

(** ** The requirement registry on the stand-in library *)

(** C7, the code at the failing input.  The first declaration of the Hubble
    rate at three redshifts succeeds; declaring the very same requirement
    again raises from [_combine_z], where [np.concatenate] is handed the new
    redshifts as its axis, so the second declaration does not leave the
    state of the first: it leaves no state at all. *)
Theorem second_declaration_raises :
  res_is_ok (needs [("H", req_z [0; 2; 4])] toy0) = true ∧
  collector_z toy_H "H" = Some [0; 2; 4] ∧
  res_error (needs [("H", req_z [0; 2; 4])] toy_H)
  = Some (TypeError "only integer scalar arrays can be converted to a scalar index").
Proof. repeat split; vm_compute; reflexivity. Qed.

Lemma redshift_lists_of_requirement_witness :
  ∃ new l,
    declared_z (req_z [1; 0; 1]) = Ok new ∧
    extra_args (res_get (needs_one "fsigma8" (req_z [1; 0; 1]) toy0) toy0)
      !! "redshifts" = Some (PArr l) ∧
    StronglySorted (flip flt) l ∧
    ∀ x, x ∈ l ↔ x ∈ new ∨ x ∈ solver_redshifts toy0.
Proof.
  apply (redshift_lists_of_requirement "fsigma8" (req_z [1; 0; 1]) toy0
           (res_get (needs_one "fsigma8" (req_z [1; 0; 1]) toy0) toy0)).
  - apply res_eta. vm_compute. reflexivity.
  - by left.
Defined.

(** C8, the claim as stated fails: the redshifts declared for the Hubble
    rate do not reach the list kept for the library, which stays unset. *)
Lemma background_redshifts_not_sent :
  res_is_ok (needs [("H", req_z [0; 2; 4])] toy0) = true ∧
  declared_z (req_z [0; 2; 4]) = Ok [0; 2; 4] ∧
  extra_args toy_H !! "redshifts" = None ∧
  collector_z toy_H "H" = Some [0; 2; 4].
Proof. repeat split; vm_compute; reflexivity. Qed.

(** ** The accessors on the stand-in library *)

Lemma toy_redshifts_ascending : StronglySorted fle [0; 2; 4].
Proof.
  repeat first [apply SSorted_nil | apply SSorted_cons | apply Forall_nil
               | apply Forall_cons]; by vm_compute.
Qed.

Lemma present_redshifts_return_stored_witness :
  ∃ vals,
    _get_z_dependent "H" [2; 0] (toy_H ▷ pA) = Ok (Fresh vals) ∧
    Forall2 (stored_at [0; 2; 4] [67; 69; 71]) [2; 0] vals ∧
    ("H" = "H" → ∀ units factors factor,
       H_units_conv_factor (toy_H ▷ pA) = Some factors →
       factors !! units = Some factor →
       get_H [2; 0] units (toy_H ▷ pA) = Ok (Fresh ((λ x, fmul x factor) <$> vals))).
Proof.
  apply (present_redshifts_return_stored "H" [2; 0] (toy_H ▷ pA)
           (res_get (current_state (toy_H ▷ pA)) empty_state)
           [0; 2; 4] [67; 69; 71]).
  - done.
  - vm_compute. reflexivity.
  - intros H. discriminate H.
  - intros _. apply toy_redshifts_ascending.
  - apply res_eta. vm_compute. reflexivity.
  - vm_compute. reflexivity.
  - reflexivity.
  - repeat constructor.
Defined.

(** C2, the claim as stated fails: asked for a redshift that is not among
    those computed, [get_H] returns the value stored for the next one and
    [get_fsigma8] returns an empty array; neither raises. *)
Lemma absent_redshift_returns_a_value :
  collector_z (toy_H ▷ pA) "H" = Some [0; 2; 4] ∧
  (products <$> _states (toy_H ▷ pA)) !! 0%nat
  = Some [(KStr "H", VArr [67; 69; 71])] ∧
  get_H [1] "1/Mpc" (toy_H ▷ pA) = Ok (Fresh [69]) ∧
  extra_args (toy_fsigma8 ▷ pA) !! "redshifts" = Some (PArr [1; 0]) ∧
  get_fsigma8 [5] (toy_fsigma8 ▷ pA) = Ok (Fresh []).
Proof. repeat split; vm_compute; reflexivity. Qed.

Lemma get_Cl_scaling_witness :
  get_Cl true "muK2" (toy_Cl ▷ pA)
  = Ok (Fresh
          ([("ell", f_of_nat <$> seq 0 4);
            ("tt", weighted (cl_factor true (fmul _T_CMB_K f1e6)) [67; 67; 67; 67]);
            ("ee", weighted (cl_factor true (fmul _T_CMB_K f1e6)) [67; 67; 67; 67]);
            ("bb", weighted (cl_factor true (fmul _T_CMB_K f1e6)) [67; 67; 67; 67]);
            ("te", weighted (cl_factor true (fmul _T_CMB_K f1e6)) [67; 67; 67; 67])]
           ++ [("pp", weighted pp_factor [67; 67; 67; 67])])).
Proof.
  apply (get_Cl_scaling true "muK2" (toy_Cl ▷ pA)
           (res_get (current_state (toy_Cl ▷ pA)) empty_state)
           [("total", [[67; 67; 67; 67]; [67; 67; 67; 67];
                       [67; 67; 67; 67]; [67; 67; 67; 67]]);
            ("lens_potential", [[67; 0; 0]; [67; 0; 0]; [67; 0; 0]; [67; 0; 0]])]
           [[67; 67; 67; 67]; [67; 67; 67; 67]; [67; 67; 67; 67]; [67; 67; 67; 67]]
           [67; 67; 67; 67] [67; 67; 67; 67] [67; 67; 67; 67] [67; 67; 67; 67]
           (Some [67; 67; 67; 67]) (fmul _T_CMB_K f1e6)).
  - apply res_eta. vm_compute. reflexivity.
  - vm_compute. reflexivity.
  - reflexivity.
  - reflexivity.
  - reflexivity.
  - reflexivity.
  - reflexivity.
  - reflexivity.
  - by intros a [= <-].
  - reflexivity.
Defined.

(** C9, the claim as stated fails: without the weighting the lensing
    potential is returned as stored, the factor 2 pi is not applied. *)
Lemma unweighted_lensing_potential_is_as_stored :
  (products <$> _states (toy_Cl ▷ pA)) !! 0%nat
  = Some [(KStr "Cl",
           VSpectra
             [("total", [[67; 67; 67; 67]; [67; 67; 67; 67];
                         [67; 67; 67; 67]; [67; 67; 67; 67]]);
              ("lens_potential",
               [[67; 0; 0]; [67; 0; 0]; [67; 0; 0]; [67; 0; 0]])])] ∧
  get_Cl false "1" (toy_Cl ▷ pA)
  = Ok (Fresh [("ell", [0; 1; 2; 3]); ("tt", [67; 67; 67; 67]);
               ("ee", [67; 67; 67; 67]); ("bb", [67; 67; 67; 67]);
               ("te", [67; 67; 67; 67]); ("pp", [67; 67; 67; 67])]) ∧
  fmul 67 two_pi ≠ 67.
Proof. repeat split; vm_compute; (reflexivity || discriminate). Qed.

Lemma accessors_and_the_cache_witness :
  ∃ i,
    frame i
      (memo_rel
         (KPk_interpolator true None ("delta_tot", "delta_tot").1
            ("delta_tot", "delta_tot").2))
      (toy_Pk ▷ pA)
      (get_Pk_interpolator ("delta_tot", "delta_tot") true None (toy_Pk ▷ pA)).2 ∧
    ∀ h,
      (get_Pk_interpolator ("delta_tot", "delta_tot") true None (toy_Pk ▷ pA)).1 = Ok h →
      h = Stored i
            (KPk_interpolator true None ("delta_tot", "delta_tot").1
               ("delta_tot", "delta_tot").2) ∧
      current_index (toy_Pk ▷ pA) = Ok i ∧
      ∃ s',
        _states
          (get_Pk_interpolator ("delta_tot", "delta_tot") true None (toy_Pk ▷ pA)).2
          !! i = Some s' ∧
        is_Some
          (odict.get
             (KPk_interpolator true None ("delta_tot", "delta_tot").1
                ("delta_tot", "delta_tot").2) (products s')).
Proof.
  destruct (accessors_and_the_cache (toy_Pk ▷ pA)) as (_ & _ & _ & _ & _ & H).
  apply H, surjective_pairing.
Defined.

(** C10, the claim as stated fails: [get_Pk_interpolator] adds the
    interpolator to the results of the current state, and what it and
    [get_matter_power] hand out is the stored object. *)
Lemma interpolator_is_stored_in_the_state :
  (products <$> _states (toy_Pk ▷ pA)) !! 0%nat
  = Some [(Kmatter_power_spectrum true "delta_tot" "delta_tot",
           VPk [1; 2] [0] [[67; 68]])] ∧
  (get_Pk_interpolator ("delta_tot", "delta_tot") true None (toy_Pk ▷ pA)).1
  = Ok (Stored 0 (KPk_interpolator true None "delta_tot" "delta_tot")) ∧
  (products <$>
     _states (get_Pk_interpolator ("delta_tot", "delta_tot") true None
                (toy_Pk ▷ pA)).2) !! 0%nat
  = Some [(Kmatter_power_spectrum true "delta_tot" "delta_tot",
           VPk [1; 2] [0] [[67; 68]]);
          (KPk_interpolator true None "delta_tot" "delta_tot",
           VInterp [0] [1; 2] [[6; 6]] true None)] ∧
  get_matter_power ("delta_tot", "delta_tot") true None (toy_Pk ▷ pA)
  = Ok (Stored 0 (Kmatter_power_spectrum true "delta_tot" "delta_tot")).
Proof. repeat split; vm_compute; reflexivity. Qed.

(** ** The further properties on the stand-in library *)

Lemma toy_H_states : _states toy_H ≠ [].
Proof. intros H%(f_equal length). vm_compute in H. done. Qed.

Lemma successful_compute_is_current_witness :
  ∃ i s,
    current_index (toy_H ▷ pA) = Ok i ∧ current_state (toy_H ▷ pA) = Ok s ∧
    params s = Some pA ∧ last s = 1 ∧
    (∀ j t, j ≠ i → _states (toy_H ▷ pA) !! j = Some t → last t ≤ 0) ∧
    ∀ k, k ∈ odict.keys (collectors (toy_H ▷ pA)) → k ∈ odict.keys (products s).
Proof.
  apply (successful_compute_is_current None true pA toy_H 2 None).
  - apply pair_eta_fst. vm_compute. reflexivity.
  - done.
Defined.

Lemma get_param_after_compute_witness :
  (∀ x, pA !! translate_param toy_H "H0" = Some x →
        get_param "H0" (compute (Some ∅) true pA toy_H).2 = Ok x) ∧
  (∀ (dd : gmap string Z) y,
     Some (∅ : gmap string Z) = Some ∅ → Some {[ "H0" := 67 ]} = Some dd →
     pA !! translate_param toy_H "H0" = None →
     dd !! translate_param toy_H "H0" = Some y →
     get_param "H0" (compute (Some ∅) true pA toy_H).2 = Ok y).
Proof.
  apply (get_param_after_compute (Some ∅) true pA toy_H 2 (Some {[ "H0" := 67 ]})).
  - apply pair_eta_fst. vm_compute. reflexivity.
  - done.
Defined.

Lemma status_one_changes_only_recency_witness :
  camb_calls (toy_H ▷ pA ▷ pA) = camb_calls (toy_H ▷ pA) ∧
  length (_states (toy_H ▷ pA ▷ pA)) = length (_states (toy_H ▷ pA)) ∧
  ∀ j t', _states (toy_H ▷ pA ▷ pA) !! j = Some t' →
    ∃ t, _states (toy_H ▷ pA) !! j = Some t ∧ params t' = params t ∧
         products t' = products t ∧ derived t' = derived t ∧
         derived_extra t' = derived_extra t ∧ set_args t' = set_args t.
Proof.
  apply (status_one_changes_only_recency None true pA (toy_H ▷ pA) None).
  apply pair_eta_fst. vm_compute. reflexivity.
Defined.

Lemma uncached_compute_recomputes_witness :
  (∀ d', (compute None false pA (toy_H ▷ pA)).1 ≠ Return 1 d') ∧
  (camb_calls (toy_H ▷ pA) < camb_calls (compute None false pA (toy_H ▷ pA)).2)%nat.
Proof.
  apply (uncached_compute_recomputes None pA (toy_H ▷ pA)).
  - intros H%(f_equal length). vm_compute in H. done.
  - apply surjective_pairing.
Defined.

Lemma zero_status_keeps_recency_witness :
  Some (∅ : gmap string Z) = Some ∅ ∧
  lasts_of (compute (Some ∅) true pD toy_ABC).2 = lasts_of toy_ABC ∧
  ∃ i, oldest toy_ABC = Ok i ∧
    (∀ j, j ≠ i →
       _states (compute (Some ∅) true pD toy_ABC).2 !! j = _states toy_ABC !! j) ∧
    (∀ s', _states (compute (Some ∅) true pD toy_ABC).2 !! i = Some s' →
       params s' = Some pD).
Proof.
  apply (zero_status_keeps_recency (Some ∅) true pD toy_ABC (Some ∅)).
  apply pair_eta_fst. vm_compute. reflexivity.
Defined.

Lemma nonempty_derived_is_left_alone_witness :
  Some ({[ "omegam" := 1 ]} : gmap string Z) = Some {[ "omegam" := 1 ]}.
Proof.
  apply (nonempty_derived_is_left_alone (Some {[ "omegam" := 1 ]}) true pA toy_H 2
           (Some {[ "omegam" := 1 ]})
           (compute (Some {[ "omegam" := 1 ]}) true pA toy_H).2).
  - intros H. apply (f_equal (λ m, default ∅ m !! "omegam")) in H.
    vm_compute in H. done.
  - apply pair_eta_fst. vm_compute. reflexivity.
Defined.

Lemma none_collector_never_computes_witness :
  (KStr "CAMBdata", None) ∈ collectors toy_CAMBdata ∧
  ∀ d', (compute None true pA toy_CAMBdata).1 ≠ Return 2 d'.
Proof.
  assert ((KStr "CAMBdata", None) ∈ collectors toy_CAMBdata) as Hk.
  { apply list_elem_of_In. vm_compute. auto. }
  split; [exact Hk|].
  apply (none_collector_never_computes (KStr "CAMBdata") None true pA toy_CAMBdata
           _ (compute None true pA toy_CAMBdata).2).
  - exact Hk.
  - apply surjective_pairing.
Defined.

Lemma fsigma8_declared_twice_witness :
  needs_one "fsigma8" (req_z [0; 1])
    (res_get (needs_one "fsigma8" (req_z [0; 1]) toy0) toy0)
  = Ok (res_get (needs_one "fsigma8" (req_z [0; 1]) toy0) toy0).
Proof.
  apply (fsigma8_declared_twice (req_z [0; 1]) toy0).
  apply res_eta. vm_compute. reflexivity.
Defined.

Lemma add_to_redshifts_commute_witness :
  ∃ self1',
    add_to_redshifts (PArr [2; 0]) toy0 = Ok self1' ∧
    add_to_redshifts (PArr [1; 0]) self1'
    = Ok (res_get
            (add_to_redshifts (PArr [2; 0])
               (res_get (add_to_redshifts (PArr [1; 0]) toy0) toy0)) toy0).
Proof.
  apply (add_to_redshifts_commute (PArr [1; 0]) (PArr [2; 0]) toy0
           (res_get (add_to_redshifts (PArr [1; 0]) toy0) toy0)).
  - apply res_eta. vm_compute. reflexivity.
  - apply res_eta. vm_compute. reflexivity.
Defined.

Lemma Cl_requirement_accumulates_witness :
  NoDup (collector_spectra
           (res_get (needs_one "Cl" (Some tt_and_pp) toy0) toy0)) ∧
  (∀ name,
     name ∈ collector_spectra
              (res_get (needs_one "Cl" (Some tt_and_pp) toy0) toy0) ↔
     name ∈ collector_spectra toy0 ∨ name = "total" ∨
     (name = "lens_potential" ∧
      ∃ d cl, Some tt_and_pp = Some d ∧
              is_Some (d !! cl) ∧ lower cl = "pp")) ∧
  ∃ lmax,
    extra_args
      (res_get (needs_one "Cl" (Some tt_and_pp) toy0) toy0) !! "lmax" = Some (PNum lmax) ∧
    (∀ old, extra_args toy0 !! "lmax" = Some (PNum old) → fle old lmax) ∧
    (∀ d cl l, Some tt_and_pp = Some d →
       d !! cl = Some (RVal (PNum l)) → fle l lmax).
Proof.
  apply (Cl_requirement_accumulates
           (Some tt_and_pp) toy0).
  apply res_eta. vm_compute. reflexivity.
Defined.

Lemma sampled_fixed_parameter_raises_witness :
  (set {[ "dark_energy_model" := 1 ]} 0 toy0).1
  = Err (LoggedError "Trying to sample fixed theory parameter").
Proof.
  apply (sampled_fixed_parameter_raises {[ "dark_energy_model" := 1 ]} 0 toy0
           "dark_energy_model" {[ "dark_energy_model" := PNum 1 ]}).
  - reflexivity.
  - vm_compute. reflexivity.
  - apply list_elem_of_In. vm_compute. auto.
  - exists (PNum 1). vm_compute. reflexivity.
Defined.

Lemma reduced_extra_args_have_no_fixed_witness :
  _base_params toy_fsigma8 = None ∧
  ∀ k,
    (k ∈ set_classes_args ++ set_matter_power_args ++ set_for_lmax_args →
     _reduced_extra_args (set pA 0 toy_fsigma8).2 !! k = None ∧
     translate_args toy_fsigma8 pA !! k = None) ∧
    (k ∉ set_classes_args ++ set_matter_power_args ++ set_for_lmax_args →
     _reduced_extra_args (set pA 0 toy_fsigma8).2 !! k = extra_args toy_fsigma8 !! k).
Proof.
  split; [reflexivity|].
  apply (reduced_extra_args_have_no_fixed pA 0 toy_fsigma8 (set pA 0 toy_fsigma8).1).
  - reflexivity.
  - apply surjective_pairing.
  - apply (bool_decide_unpack _). vm_compute. exact I.
Defined.

Lemma derived_keys_are_output_params_witness :
  (∀ p, is_Some (({[ "H0" := 67 ]} : gmap string Z) !! p) ↔ p ∈ output_params toy0) ∧
  (∀ p, p ∈ output_params toy0 →
     ∃ x, ({[ "H0" := 67 ]} : gmap string Z) !! p = Some x ∧
          _get_derived (translate_param toy0 p) toy_outputs = Ok (Some x)).
Proof.
  apply (derived_keys_are_output_params toy0 toy_outputs).
  vm_compute. reflexivity.
Defined.

Lemma computed_derived_has_output_params_witness :
  ∃ dd, Some ({[ "H0" := 67 ]} : gmap string Z) = Some dd ∧
        ∀ p, is_Some (dd !! p) ↔ p ∈ output_params toy_H.
Proof.
  apply (computed_derived_has_output_params true pA toy_H (Some {[ "H0" := 67 ]})
           (compute (Some ∅) true pA toy_H).2).
  apply pair_eta_fst. vm_compute. reflexivity.
Defined.

Lemma redshift_beyond_the_last_witness :
  _get_z_dependent "H" [5] (toy_H ▷ pA)
  = Err (IndexError "index is out of bounds for axis 0").
Proof.
  apply (redshift_beyond_the_last "H" 5 (toy_H ▷ pA) [0; 2; 4]
           (res_get (current_state (toy_H ▷ pA)) empty_state) [67; 69; 71]).
  - done.
  - vm_compute. reflexivity.
  - apply res_eta. vm_compute. reflexivity.
  - vm_compute. reflexivity.
  - simpl. lia.
  - repeat (apply Forall_cons; [by vm_compute|]). apply Forall_nil.
Defined.

Lemma redshift_between_returns_the_next_witness :
  _get_z_dependent "H" [1] (toy_H ▷ pA) = Ok (Fresh [69]).
Proof.
  apply (redshift_between_returns_the_next "H" 1 (toy_H ▷ pA) [0; 2; 4]
           (res_get (current_state (toy_H ▷ pA)) empty_state) [67; 69; 71]
           1%nat 2 69).
  - done.
  - vm_compute. reflexivity.
  - apply res_eta. vm_compute. reflexivity.
  - vm_compute. reflexivity.
  - apply toy_redshifts_ascending.
  - reflexivity.
  - reflexivity.
  - by vm_compute.
  - intros [|j] zj Hj; [|lia]. intros [= <-]. by vm_compute.
Defined.

Lemma interpolator_asked_twice_witness :
  get_Pk_interpolator ("delta_tot", "delta_tot") true None
    (get_Pk_interpolator ("delta_tot", "delta_tot") true None (toy_Pk ▷ pA)).2
  = (Ok (Stored 0 (KPk_interpolator true None "delta_tot" "delta_tot")),
     (get_Pk_interpolator ("delta_tot", "delta_tot") true None (toy_Pk ▷ pA)).2).
Proof.
  apply (interpolator_asked_twice ("delta_tot", "delta_tot") true None (toy_Pk ▷ pA)).
  apply pair_eta_fst. vm_compute. reflexivity.
Defined.

Lemma registered_pair_is_retrievable_witness :
  ∃ i, current_index (toy_Pk ▷ pA) = Ok i ∧
    get_matter_power ("delta_tot", "delta_tot") true None (toy_Pk ▷ pA)
    = Ok (Stored i (Kmatter_power_spectrum true "delta_tot" "delta_tot")).
Proof.
  apply (registered_pair_is_retrievable None true pA toy_Pk 2 None).
  - apply pair_eta_fst. vm_compute. reflexivity.
  - done.
  - apply list_elem_of_In. vm_compute. auto.
  - intros _. vm_compute. reflexivity.
Defined.

Lemma pair_collectors_share_the_last_pair_witness :
  two_pairs !! "vars_pairs"
  = Some (RVal (PPairs [("delta_tot", "delta_tot"); ("delta_nonu", "delta_nonu")])) ∧
  ∀ a b, (a, b) ∈ [("delta_tot", "delta_tot"); ("delta_nonu", "delta_nonu")] →
    ∃ c, odict.get
           (Kmatter_power_spectrum
              (from_option truthy true (two_pairs !! "nonlinear")) a b)
           (collectors
              (res_get (needs_one "Pk_interpolator" (Some two_pairs) toy0) toy0))
         = Some (Some c) ∧
         kwargs c !! "var1" = Some (RVal (PStr ("delta_nonu", "delta_nonu").1)) ∧
         kwargs c !! "var2" = Some (RVal (PStr ("delta_nonu", "delta_nonu").2)).
Proof.
  split; [vm_compute; reflexivity|].
  apply (pair_collectors_share_the_last_pair "Pk_interpolator" two_pairs
           [("delta_tot", "delta_tot"); ("delta_nonu", "delta_nonu")]
           ("delta_nonu", "delta_nonu") toy0
           (res_get (needs_one "Pk_interpolator" (Some two_pairs) toy0) toy0)).
  - by left.
  - apply res_eta. vm_compute. reflexivity.
  - vm_compute. reflexivity.
  - reflexivity.
Defined.

Lemma needs_keeps_the_cache_witness :
  _states toy_fsigma8_then_H = _states (toy_fsigma8 ▷ pA) ∧
  _base_params toy_fsigma8_then_H = None.
Proof.
  apply (needs_keeps_the_cache [("H", Some {[ "z" := RVal (PArr [0; 2; 4]) ]})]).
  apply res_eta. vm_compute. reflexivity.
Defined.

Lemma get_CAMBdata_never_returns_witness :
  ∃ e, get_CAMBdata (toy_CAMBdata ▷ pA) = Err e.
Proof.
  apply (get_CAMBdata_never_returns toy0).
  - reflexivity.
  - reflexivity.
  - eapply session_compute; [|apply surjective_pairing].
    eapply (session_needs _ toy0 [("CAMBdata", None)]); [apply session_start|].
    apply res_eta. vm_compute. reflexivity.
Defined.


Lemma set_restores_the_sources_witness :
  sources (set pA 0 toy_sources).2 = sources toy_sources.
Proof.
  apply (set_restores_the_sources pA 0 toy_sources {[ "H0" := PNum 67 ]}).
  apply pair_eta_fst. vm_compute. reflexivity.
Defined.

Lemma same_point_again_witness :
  ∃ d2' self2,
    compute None true pA (toy_H ▷ pA) = (Return 1 d2', self2) ∧
    camb_calls self2 = camb_calls (toy_H ▷ pA).
Proof.
  apply (same_point_again toy_H toy_H pA None 2 None).
  - reflexivity.
  - apply reachable_refl.
  - apply pair_eta_fst. vm_compute. reflexivity.
  - done.
Defined.

Lemma derived_parameter_declared_twice_witness :
  translate_param toy0 "sigma8"
  ∈ derived_extra_names (res_get (needs_one "sigma8" None toy0) toy0) ∧
  (NoDup (derived_extra_names toy0) →
   NoDup (derived_extra_names (res_get (needs_one "sigma8" None toy0) toy0))) ∧
  needs_one "sigma8" None (res_get (needs_one "sigma8" None toy0) toy0)
  = Ok (res_get (needs_one "sigma8" None toy0) toy0).
Proof.
  apply (derived_parameter_declared_twice "sigma8" toy0).
  - intros Hin%list_elem_of_In. vm_compute in Hin. intuition discriminate.
  - apply res_eta. vm_compute. reflexivity.
Defined.
